(** * sql-query-identifier: a shallow embedding of the tokenizer, the
      statement state machine, the top-level parser and [Identify].

    Layout of the development:
    - Go strings are byte strings ([string]); a rune is an integer ([Z]);
      the conversions [[]rune(s)] and [string(runes)] are UTF-8 decoding and
      encoding, written out below.
    - Go's [int] is modelled by [Z]: every integer of the program is an
      offset into the input or a small counter, so 64-bit wrap-around is
      never reached.
    - A computation that may panic returns a [result]; loops run on fuel
      that is computed from the scan cursor, and running out of fuel is a
      third, separate outcome ([OutOfFuel]) that the theorems rule out.
    - What Go's libraries contribute (the Unicode case and digit tables, the
      regular-expression engine used for custom parameters) is taken as
      Section variables. *)

From Stdlib Require Import ZArith List String Ascii Bool Lia DecimalString.
From Stdlib Require Import Sorting.Sorted Sorting.Permutation.
Import ListNotations.

Open Scope string_scope.
Open Scope list_scope.
Open Scope Z_scope.

Set Implicit Arguments.

(** ** Outcomes of a computation *)

Inductive result (A : Type) : Type :=
| Ok (a : A)
| Panic (msg : string)
| OutOfFuel.

Arguments Ok {A} a.
Arguments Panic {A} msg.
Arguments OutOfFuel {A}.

Definition rbind {A B : Type} (r : result A) (k : A -> result B) : result B :=
  match r with
  | Ok a => k a
  | Panic msg => Panic msg
  | OutOfFuel => OutOfFuel
  end.

(** ** Runes, bytes and Go strings *)

Definition rune := Z.

Definition eof : rune := -1.

Definition RuneError : rune := 65533.

Definition byte_of_ascii (a : ascii) : Z := Z.of_N (N_of_ascii a).

Definition ascii_of_byte (b : Z) : ascii := ascii_of_N (Z.to_N b).

Definition bytes_of_string (s : string) : list Z :=
  map byte_of_ascii (list_ascii_of_string s).

Definition string_of_bytes (bs : list Z) : string :=
  string_of_list_ascii (map ascii_of_byte bs).

(** [len(s)] of a Go string: its number of bytes. *)
Definition len (s : string) : Z := Z.of_nat (String.length s).

(** [len(xs)] of a slice. *)
Definition llen {A : Type} (xs : list A) : Z := Z.of_nat (List.length xs).

Definition is_cont (b : Z) : bool := (128 <=? b) && (b <=? 191).

(** [[]rune(s)]: Go decodes UTF-8 and yields U+FFFD for every byte that
    does not start a well-formed sequence (utf8.DecodeRuneInString). *)
Fixpoint decodeRunes (bs : list Z) : list rune :=
  match bs with
  | [] => []
  | b0 :: t1 =>
    if b0 <? 128 then b0 :: decodeRunes t1
    else if (194 <=? b0) && (b0 <=? 223) then
      match t1 with
      | b1 :: t2 =>
        if is_cont b1
        then (Z.lor (Z.shiftl (Z.land b0 31) 6) (Z.land b1 63)) :: decodeRunes t2
        else RuneError :: decodeRunes t1
      | _ => RuneError :: decodeRunes t1
      end
    else if (224 <=? b0) && (b0 <=? 239) then
      match t1 with
      | b1 :: b2 :: t3 =>
        let lo := if b0 =? 224 then 160 else 128 in
        let hi := if b0 =? 237 then 159 else 191 in
        if (lo <=? b1) && (b1 <=? hi) && is_cont b2
        then (Z.lor (Z.shiftl (Z.land b0 15) 12)
                (Z.lor (Z.shiftl (Z.land b1 63) 6) (Z.land b2 63))) :: decodeRunes t3
        else RuneError :: decodeRunes t1
      | _ => RuneError :: decodeRunes t1
      end
    else if (240 <=? b0) && (b0 <=? 244) then
      match t1 with
      | b1 :: b2 :: b3 :: t4 =>
        let lo := if b0 =? 240 then 144 else 128 in
        let hi := if b0 =? 244 then 143 else 191 in
        if (lo <=? b1) && (b1 <=? hi) && is_cont b2 && is_cont b3
        then (Z.lor (Z.shiftl (Z.land b0 7) 18)
                (Z.lor (Z.shiftl (Z.land b1 63) 12)
                   (Z.lor (Z.shiftl (Z.land b2 63) 6) (Z.land b3 63)))) :: decodeRunes t4
        else RuneError :: decodeRunes t1
      | _ => RuneError :: decodeRunes t1
      end
    else RuneError :: decodeRunes t1
  end.

Definition runes_of_string (s : string) : list rune :=
  decodeRunes (bytes_of_string s).

(** [string(r)] for one rune (utf8.AppendRune): surrogates and values
    outside Unicode are written as U+FFFD. *)
Definition encodeRune (r : rune) : list Z :=
  if (0 <=? r) && (r <=? 127) then [r]
  else if (0 <=? r) && (r <=? 2047) then
    [Z.lor 192 (Z.shiftr r 6); Z.lor 128 (Z.land r 63)]
  else if (r <? 0) || (1114111 <? r) || ((55296 <=? r) && (r <=? 57343)) then
    [239; 191; 189]
  else if r <=? 65535 then
    [Z.lor 224 (Z.shiftr r 12); Z.lor 128 (Z.land (Z.shiftr r 6) 63);
     Z.lor 128 (Z.land r 63)]
  else
    [Z.lor 240 (Z.shiftr r 18); Z.lor 128 (Z.land (Z.shiftr r 12) 63);
     Z.lor 128 (Z.land (Z.shiftr r 6) 63); Z.lor 128 (Z.land r 63)].

Definition string_of_runes (rs : list rune) : string :=
  string_of_bytes (flat_map encodeRune rs).

Definition dquote : string := String "034"%char EmptyString.

Definition sappend (a b : string) : string := String.append a b.

Infix "+s+" := sappend (at level 60, right associativity).

Fixpoint join (sep : string) (xs : list string) : string :=
  match xs with
  | [] => ""
  | [x] => x
  | x :: rest => x +s+ sep +s+ join sep rest
  end.

(** [slices.Contains] over strings, runes and booleans of equality. *)
Definition contains_string (xs : list string) (x : string) : bool :=
  existsb (String.eqb x) xs.

Definition contains_rune (xs : list rune) (x : rune) : bool :=
  existsb (Z.eqb x) xs.

(** Go slice expression [xs[lo:hi]] and index expression [xs[i]]; both
    panic outside the bounds. The message kept here is the fixed head of
    Go's message, which goes on with the offending bounds. *)
Definition slice {A : Type} (xs : list A) (lo hi : Z) : result (list A) :=
  if (0 <=? lo) && (lo <=? hi) && (hi <=? llen xs)
  then Ok (firstn (Z.to_nat (hi - lo)) (skipn (Z.to_nat lo) xs))
  else Panic "runtime error: slice bounds out of range".

Definition index (xs : list rune) (i : Z) : result rune :=
  if (0 <=? i) && (i <? llen xs)
  then Ok (nth (Z.to_nat i) xs 0)
  else Panic "runtime error: index out of range".

(** ** types.go: dialects, tokens and the scan cursor *)

Definition Dialect := string.

Definition DialectMSSQL : Dialect := "mssql".
Definition DialectSQLite : Dialect := "sqlite".
Definition DialectMySQL : Dialect := "mysql".
Definition DialectOracle : Dialect := "oracle".
Definition DialectPSQL : Dialect := "psql".
Definition DialectBigQuery : Dialect := "bigquery".
Definition DialectGeneric : Dialect := "generic".

Definition DIALECTS : list Dialect :=
  [DialectMSSQL; DialectSQLite; DialectMySQL; DialectOracle; DialectPSQL;
   DialectBigQuery; DialectGeneric].

Inductive TokenType : Type :=
| TokenWhitespace
| TokenCommentInline
| TokenCommentBlock
| TokenString
| TokenSemicolon
| TokenKeyword
| TokenParameter
| TokenTable
| TokenUnknown.

(** The string a [TokenType] constant stands for in the source. *)
Definition TokenType_string (t : TokenType) : string :=
  match t with
  | TokenWhitespace => "whitespace"
  | TokenCommentInline => "comment-inline"
  | TokenCommentBlock => "comment-block"
  | TokenString => "string"
  | TokenSemicolon => "semicolon"
  | TokenKeyword => "keyword"
  | TokenParameter => "parameter"
  | TokenTable => "table"
  | TokenUnknown => "unknown"
  end.

Definition TokenType_eqb (a b : TokenType) : bool :=
  match a, b with
  | TokenWhitespace, TokenWhitespace
  | TokenCommentInline, TokenCommentInline
  | TokenCommentBlock, TokenCommentBlock
  | TokenString, TokenString
  | TokenSemicolon, TokenSemicolon
  | TokenKeyword, TokenKeyword
  | TokenParameter, TokenParameter
  | TokenTable, TokenTable
  | TokenUnknown, TokenUnknown => true
  | _, _ => false
  end.

Record Token : Type := mkToken {
  tokType : TokenType;
  tokValue : string;
  tokStart : Z;
  tokEnd : Z
}.

Record State : Type := mkState {
  stStart : Z;
  stEnd : Z;
  stPosition : Z;
  stInput : list rune
}.

Definition set_Position (st : State) (p : Z) : State :=
  mkState (stStart st) (stEnd st) p (stInput st).

Record ParamTypes : Type := mkParamTypes {
  Positional : option bool;
  Numbered : list rune;
  Named : list rune;
  Quoted : list rune;
  Custom : list string
}.

(** ** The scanner monad: a cursor threaded through code that may panic *)

Definition M (A : Type) : Type := State -> result (A * State).

Definition ret {A : Type} (a : A) : M A := fun st => Ok (a, st).

Definition bind {A B : Type} (m : M A) (k : A -> M B) : M B :=
  fun st =>
    match m st with
    | Ok (a, st') => k a st'
    | Panic msg => Panic msg
    | OutOfFuel => OutOfFuel
    end.

Definition lift {A : Type} (r : result A) : M A :=
  fun st => rbind r (fun a => Ok (a, st)).

Definition get : M State := fun st => Ok (st, st).

Notation "x <- m ;; k" := (bind m (fun x => k))
  (at level 61, m at next level, right associativity).
Notation "m ;;; k" := (bind m (fun _ => k))
  (at level 61, right associativity).

(** A [for { ... }] loop: the body either continues with a new value of the
    loop-carried variables or breaks with a result. *)
Fixpoint iterate {X A : Type} (fuel : nat) (body : X -> M (X + A)) (x : X) : M A :=
  fun st =>
    match fuel with
    | O => OutOfFuel
    | S n =>
      match body x st with
      | Ok (inl x', st') => iterate n body x' st'
      | Ok (inr a, st') => Ok (a, st')
      | Panic msg => Panic msg
      | OutOfFuel => OutOfFuel
      end
    end.

(** Characters that are still unread. *)
Definition remaining (st : State) : nat :=
  Z.to_nat (llen (stInput st) - 1 - stPosition st).

Definition loop {X A : Type} (body : X -> M (X + A)) (x : X) : M A :=
  fun st => iterate (S (remaining st)) body x st.

(** [for i := 0; i < n; i++ { body }] *)
Fixpoint times (n : nat) (body : M unit) : M unit :=
  match n with
  | O => ret tt
  | S k => body ;;; times k body
  end.

(** ** Cursor primitives *)

Definition read (skip : Z) : M rune :=
  fun st =>
    if stPosition st + skip >=? llen (stInput st) - 1 then Ok (eof, st)
    else
      let st' := set_Position st (stPosition st + 1 + skip) in
      rbind (index (stInput st') (stPosition st')) (fun ch => Ok (ch, st')).

Definition unread : M unit :=
  fun st =>
    if stPosition st <=? stStart st then Ok (tt, st)
    else Ok (tt, set_Position st (stPosition st - 1)).

Definition peekBack : M rune :=
  fun st =>
    if stPosition st =? 0 then Ok (eof, st)
    else rbind (index (stInput st) (stPosition st - 1)) (fun ch => Ok (ch, st)).

Definition peek : M rune :=
  fun st =>
    if stPosition st >=? llen (stInput st) - 1 then Ok (eof, st)
    else rbind (index (stInput st) (stPosition st + 1)) (fun ch => Ok (ch, st)).

(** [string(state.Input[state.Start : state.Position+1])] *)
Definition tokenText : M string :=
  fun st =>
    rbind (slice (stInput st) (stStart st) (stPosition st + 1))
          (fun rs => Ok (string_of_runes rs, st)).

(** [string(state.Input[state.Start:])] *)
Definition remainingInput : M string :=
  fun st =>
    rbind (slice (stInput st) (stStart st) (llen (stInput st)))
          (fun rs => Ok (string_of_runes rs, st)).

(** The token literal shared by the scanners:
    [Token{Type, Value, Start: state.Start, End: state.Start + len(value) - 1}]. *)
Definition tokenOf (ty : TokenType) (value : string) : M Token :=
  st <- get ;;
  ret (mkToken ty value (stStart st) (stStart st + len value - 1)).

(** ** Character classes *)

Definition isWhitespace (ch : rune) : bool :=
  (ch =? 32) || (ch =? 9) || (ch =? 10) || (ch =? 13).

Definition isLetter (ch : rune) : bool :=
  negb (ch =? eof) &&
  (((97 <=? ch) && (ch <=? 122)) || ((65 <=? ch) && (ch <=? 90)) || (ch =? 95)).

Definition isAlphaNumeric (ch : rune) : bool :=
  negb (ch =? eof) && (isLetter ch || ((48 <=? ch) && (ch <=? 57))).

Definition isString (ch : rune) (dialect : Dialect) : bool :=
  let stringStart := [39] in
  let stringStart :=
      if String.eqb dialect DialectMySQL then stringStart ++ [34] else stringStart in
  contains_rune stringStart ch.

Definition isQuotedIdentifier (ch : rune) (dialect : Dialect) : bool :=
  let startQuoteChars :=
      if String.eqb dialect DialectMSSQL then [34; 91] else [34; 96] in
  contains_rune startQuoteChars ch.

(** [endTokens]: closing character of each quote opener. *)
Definition endTokens (ch : rune) : option rune :=
  if ch =? 34 then Some 34
  else if ch =? 39 then Some 39
  else if ch =? 96 then Some 96
  else if ch =? 91 then Some 93
  else None.

Definition keywords : list string :=
  ["SELECT"; "INSERT"; "DELETE"; "UPDATE"; "CREATE"; "DROP"; "DATABASE";
   "SCHEMA"; "TABLE"; "VIEW"; "TRIGGER"; "FUNCTION"; "INDEX"; "ALTER";
   "TRUNCATE"; "WITH"; "AS"; "MATERIALIZED"; "BEGIN"; "DECLARE"; "CASE";
   "LOOP"; "IF"; "REPEAT"; "WHILE"; "FOR"; "PROCEDURE"; "SHOW"; "DATABASES";
   "KEYS"; "TABLES"; "COLUMNS"; "STATUS"; "BINARY"; "BINLOG"; "CHARACTER";
   "COLLATION"; "ENGINE"; "ENGINES"; "ERRORS"; "EVENTS"; "GRANTS"; "MASTER";
   "OPEN"; "PLUGINS"; "PRIVILEGES"; "PROCESSLIST"; "PROFILE"; "PROFILES";
   "RELAYLOG"; "REPLICAS"; "SLAVE"; "REPLICA"; "TRIGGERS"; "VARIABLES"; "WARNINGS"].

(** [individuals]: the single-character tokens. *)
Definition resolveIndividualTokenType (ch : string) : option TokenType :=
  if String.eqb ch ";" then Some TokenSemicolon else None.

(** The class [[a-zA-Z0-9_]] of both dollar-quote expressions ([\w] is
    ASCII-only in RE2 syntax). *)
Definition isWordChar (ch : rune) : bool :=
  ((97 <=? ch) && (ch <=? 122)) || ((65 <=? ch) && (ch <=? 90)) ||
  ((48 <=? ch) && (ch <=? 57)) || (ch =? 95).

Fixpoint takeWhile {A : Type} (f : A -> bool) (xs : list A) : list A :=
  match xs with
  | [] => []
  | x :: rest => if f x then x :: takeWhile f rest else []
  end.

Fixpoint dropWhile {A : Type} (f : A -> bool) (xs : list A) : list A :=
  match xs with
  | [] => []
  | x :: rest => if f x then dropWhile f rest else xs
  end.

(** The match of [^(\$[a-zA-Z0-9_]*\$)] (and of [^\$\w*\$]) at the start of
    the text: a dollar sign, the longest run of word characters, a dollar
    sign.  The star cannot give characters back, since [$] is not a word
    character. *)
Definition dollarQuoteOpener (text : string) : option string :=
  match runes_of_string text with
  | 36 :: rest =>
    match dropWhile isWordChar rest with
    | 36 :: _ => Some (string_of_runes (36 :: takeWhile isWordChar rest ++ [36]))
    | _ => None
    end
  | _ => None
  end.

(** ** What Go's libraries contribute *)

Section Identifier.

(** [unicode.ToUpper] above U+007F and [unicode.IsDigit] above U+00FF are
    table look-ups of Go's standard library. *)
Variable unicodeToUpper : rune -> rune.
Variable unicodeIsDigit : rune -> bool.

(** The regular-expression engine (go-re2) that custom parameter patterns
    are handed to: whether a pattern compiles, and the leftmost match of a
    compiled pattern in a text ([None] when there is none). *)
Variable reCompiles : string -> bool.
Variable reFind : string -> string -> option string.

Definition ToUpperRune (r : rune) : rune :=
  if r <=? 127 then (if (97 <=? r) && (r <=? 122) then r - 32 else r)
  else unicodeToUpper r.

(** [strings.ToUpper]: rune by rune; a negative result of the mapping drops
    the character (strings.Map). *)
Definition ToUpper (s : string) : string :=
  string_of_runes
    (filter (fun r => 0 <=? r) (map ToUpperRune (runes_of_string s))).

Definition IsDigit (r : rune) : bool :=
  if r <=? 255 then (48 <=? r) && (r <=? 57) else unicodeIsDigit r.

Definition isKeyword (word : string) : bool :=
  contains_string keywords (ToUpper word).

(** [regexp.MustCompile("^(?:" + r + ")")] *)
Definition MustCompile (r : string) : result string :=
  let pattern := "^(?:" +s+ r +s+ ")" in
  if reCompiles pattern then Ok pattern
  else Panic ("regexp: Compile(" +s+ pattern +s+ "): error").

(** ** Scanners *)

Definition scanWhitespace : M Token :=
  nextChar <- loop (fun _ : unit =>
                ch <- read 0 ;;
                ret (if negb (isWhitespace ch) then inr ch else inl tt)) tt ;;
  (if negb (nextChar =? eof) then unread else ret tt) ;;;
  value <- tokenText ;;
  tokenOf TokenWhitespace value.

Definition scanCommentInline : M Token :=
  loop (fun _ : unit =>
          nextChar <- read 0 ;;
          ret (if (nextChar =? 10) || (nextChar =? eof) then inr tt else inl tt)) tt ;;;
  value <- tokenText ;;
  tokenOf TokenCommentInline value.

Definition scanDollarQuotedString : M Token :=
  text <- remainingInput ;;
  match dollarQuoteOpener text with
  | None => lift (Panic "Could not find dollar quoted string opener")
  | Some label =>
    let labelRunes := runes_of_string label in
    times (Z.to_nat (llen labelRunes - 1)) (read 0 ;;; ret tt) ;;;
    loop (fun _ : unit =>
            st <- get ;;
            if stPosition st + 1 + llen labelRunes >? llen (stInput st) then
              loop (fun _ : unit =>
                      ch <- read 0 ;;
                      ret (if negb (ch =? eof) then inl tt else inr tt)) tt ;;;
              ret (inr tt)
            else
              peekedSlice <- lift (slice (stInput st) (stPosition st + 1)
                                         (stPosition st + 1 + llen labelRunes)) ;;
              if String.eqb (string_of_runes peekedSlice) label then
                times (Z.to_nat (llen labelRunes)) (read 0 ;;; ret tt) ;;;
                ret (inr tt)
              else
                ch <- read 0 ;;
                ret (if ch =? eof then inr tt else inl tt)) tt ;;;
    value <- tokenText ;;
    tokenOf TokenString value
  end.

Definition scanString (endToken : rune) : M Token :=
  nextChar <- loop (fun _ : unit =>
                nextChar <- read 0 ;;
                if nextChar =? endToken then
                  p <- peek ;;
                  if p =? endToken then
                    read 0 ;;;
                    ret (if nextChar =? eof then inr nextChar else inl tt)
                  else ret (inr nextChar)
                else ret (if nextChar =? eof then inr nextChar else inl tt)) tt ;;
  (if nextChar =? eof then unread else ret tt) ;;;
  value <- tokenText ;;
  tokenOf TokenString value.

Fixpoint getCustomParam_loop (text : string) (patterns : list string) : result string :=
  match patterns with
  | [] => Ok ""
  | r :: rest =>
    rbind (MustCompile r) (fun re =>
      let m := match reFind re text with Some m => m | None => "" end in
      if negb (String.eqb m "") then Ok m else getCustomParam_loop text rest)
  end.

Definition getCustomParam (paramTypes : ParamTypes) : M string :=
  if llen (Custom paramTypes) =? 0 then ret ""
  else
    text <- remainingInput ;;
    lift (getCustomParam_loop text (Custom paramTypes)).

Definition scanParameter (dialect : Dialect) (paramTypes : ParamTypes) : M Token :=
  st0 <- get ;;
  curCh <- lift (index (stInput st0) (stStart st0)) ;;
  nextCh <- peek ;;
  matched <-
    (if (llen (Numbered paramTypes) >? 0) && contains_rune (Numbered paramTypes) curCh
            && negb (nextCh =? eof) && IsDigit nextCh then
       potentialNumberStr <-
         (if stStart st0 + 1 <? llen (stInput st0) then
            subSlice <- lift (slice (stInput st0) (stStart st0 + 1) (llen (stInput st0))) ;;
            ret (string_of_runes
                   (takeWhile (fun r => isLetter r || IsDigit r) subSlice))
          else ret "") ;;
       if (len potentialNumberStr >? 0)
            && forallb IsDigit (runes_of_string potentialNumberStr) then
         times (List.length (runes_of_string potentialNumberStr)) (read 0 ;;; ret tt) ;;;
         ret true
       else ret false
     else ret false) ;;
  matched <-
    (if negb matched && (llen (Named paramTypes) >? 0)
            && contains_rune (Named paramTypes) curCh
            && negb (isQuotedIdentifier nextCh dialect) then
       loop (fun _ : unit =>
               p <- peek ;;
               if isAlphaNumeric p then read 0 ;;; ret (inl tt) else ret (inr tt)) tt ;;;
       ret true
     else ret matched) ;;
  matched <-
    (if negb matched && (llen (Quoted paramTypes) >? 0)
            && contains_rune (Quoted paramTypes) curCh
            && isQuotedIdentifier nextCh dialect then
       quoteChar <- read 0 ;;
       let endQuote := match endTokens quoteChar with Some e => e | None => 0 end in
       loop (fun _ : unit =>
               p <- peek ;;
               if (isAlphaNumeric p || (p =? 32)) && negb (p =? endQuote)
               then read 0 ;;; ret (inl tt) else ret (inr tt)) tt ;;;
       read 0 ;;;
       ret true
     else ret matched) ;;
  matched <-
    (if negb matched && (llen (Custom paramTypes) >? 0) then
       custom <- getCustomParam paramTypes ;;
       if negb (String.eqb custom "") then
         read (len custom - 2) ;;; ret true
       else ret matched
     else ret matched) ;;
  value <- tokenText ;;
  let isPositional := match Positional paramTypes with Some b => b | None => false end in
  if negb matched && negb isPositional && negb (curCh =? 63)
  then tokenOf TokenUnknown value
  else tokenOf TokenParameter value.

Definition scanCommentBlock : M Token :=
  loop (fun prevChar : rune =>
          nextChar <- read 0 ;;
          ret (if (negb (prevChar =? eof) && negb (nextChar =? eof)
                     && String.eqb (string_of_runes [prevChar; nextChar]) "*/")
                  || (nextChar =? eof)
               then inr tt else inl nextChar)) 0 ;;;
  value <- tokenText ;;
  tokenOf TokenCommentBlock value.

Definition scanQuotedIdentifier (endToken : rune) : M Token :=
  nextChar <- loop (fun _ : unit =>
                nextChar <- read 0 ;;
                ret (if (nextChar =? endToken) || (nextChar =? eof)
                     then inr nextChar else inl tt)) tt ;;
  (if nextChar =? eof then unread else ret tt) ;;;
  value <- tokenText ;;
  tokenOf TokenKeyword value.

Definition skipWord (value : string) : M Token :=
  tokenOf TokenUnknown value.

Definition scanWord : M Token :=
  nextChar <- loop (fun _ : unit =>
                nextChar <- read 0 ;;
                ret (if negb (isLetter nextChar) then inr nextChar else inl tt)) tt ;;
  (if negb (nextChar =? eof) then unread else ret tt) ;;;
  value <- tokenText ;;
  if negb (isKeyword value) then skipWord value
  else tokenOf TokenKeyword value.

Definition scanIndividualCharacter : M (option Token) :=
  value <- tokenText ;;
  match resolveIndividualTokenType value with
  | None => ret None
  | Some tokenType => tok <- tokenOf tokenType value ;; ret (Some tok)
  end.

Definition skipChar : M Token :=
  value <- tokenText ;;
  st <- get ;;
  ret (mkToken TokenUnknown value (stStart st) (stStart st)).

(** ** Predicates of the dispatch *)

Fixpoint isCustomParam_loop (text : string) (patterns : list string) : result bool :=
  match patterns with
  | [] => Ok false
  | r :: rest =>
    rbind (MustCompile r) (fun re =>
      match reFind re text with
      | Some _ => Ok true
      | None => isCustomParam_loop text rest
      end)
  end.

Definition isCustomParam (paramTypes : ParamTypes) : M bool :=
  text <- remainingInput ;;
  lift (isCustomParam_loop text (Custom paramTypes)).

Definition isParameter (ch : rune) (paramTypes : option ParamTypes) : M bool :=
  if ch =? eof then ret false
  else
    nextChar <- peek ;;
    prevChar <- peekBack ;;
    if (ch =? 58) && ((prevChar =? 58) || (nextChar =? 58)) then ret false
    else
      match paramTypes with
      | None => lift (Panic "runtime error: invalid memory address or nil pointer dereference")
      | Some pt =>
        if match Positional pt with Some b => b | None => false end && (ch =? 63)
        then ret true
        else if (llen (Numbered pt) >? 0) && contains_rune (Numbered pt) ch
                  && negb (nextChar =? eof) && IsDigit nextChar
        then ret true
        else if (llen (Named pt) >? 0) && contains_rune (Named pt) ch then ret true
        else if (llen (Quoted pt) >? 0) && contains_rune (Quoted pt) ch then ret true
        else if llen (Custom pt) >? 0 then isCustomParam pt
        else ret false
      end.

Definition isDollarQuotedString : M bool :=
  text <- remainingInput ;;
  ret (match dollarQuoteOpener text with Some _ => true | None => false end).

Definition isCommentInline (ch : rune) : M bool :=
  if negb (ch =? 45) then ret false
  else
    nextChar <- read 0 ;;
    let isComment := nextChar =? 45 in
    (if negb isComment then unread else ret tt) ;;;
    ret isComment.

Definition isCommentBlock (ch : rune) : M bool :=
  if negb (ch =? 47) then ret false
  else
    nextChar <- read 0 ;;
    let isComment := nextChar =? 42 in
    (if negb isComment then unread else ret tt) ;;;
    ret isComment.

Definition derefParamTypes (paramTypes : option ParamTypes) : M ParamTypes :=
  match paramTypes with
  | Some pt => ret pt
  | None => lift (Panic "runtime error: invalid memory address or nil pointer dereference")
  end.

(** The dispatch of [ScanToken] on the character it has just read. *)
Definition scanAt (dialect : Dialect) (paramTypes : option ParamTypes) (ch : rune)
  : M Token :=
  if isWhitespace ch then scanWhitespace
  else
    c <- isCommentInline ch ;;
    if c then scanCommentInline
    else
      c <- isCommentBlock ch ;;
      if c then scanCommentBlock
      else
        match (if isString ch dialect then endTokens ch else None) with
        | Some endToken => scanString endToken
        | None =>
          c <- isParameter ch paramTypes ;;
          if c then pt <- derefParamTypes paramTypes ;; scanParameter dialect pt
          else
            c <- isDollarQuotedString ;;
            if c then scanDollarQuotedString
            else
              match (if isQuotedIdentifier ch dialect then endTokens ch else None) with
              | Some endToken => scanQuotedIdentifier endToken
              | None =>
                if isLetter ch then scanWord
                else
                  individual <- scanIndividualCharacter ;;
                  match individual with
                  | Some tok => ret tok
                  | None => skipChar
                  end
              end
        end.

Definition ScanToken (dialect : Dialect) (paramTypes : option ParamTypes) : M Token :=
  ch <- read 0 ;;
  scanAt dialect paramTypes ch.

(** ** types.go: statements *)

Definition StatementType := string.

Definition StatementInsert : StatementType := "INSERT".
Definition StatementUpdate : StatementType := "UPDATE".
Definition StatementDelete : StatementType := "DELETE".
Definition StatementSelect : StatementType := "SELECT".
Definition StatementTruncate : StatementType := "TRUNCATE".
Definition StatementCreateTrigger : StatementType := "CREATE_TRIGGER".
Definition StatementCreateFunction : StatementType := "CREATE_FUNCTION".
Definition StatementCreateProcedure : StatementType := "CREATE_PROCEDURE".
Definition StatementAnonBlock : StatementType := "ANON_BLOCK".
Definition StatementUnknown : StatementType := "UNKNOWN".

Inductive ExecutionType : Type :=
| ExecutionListing
| ExecutionModification
| ExecutionInformation
| ExecutionAnonBlock
| ExecutionUnknown.

Record Statement : Type := mkStatement {
  sStart : Z;
  sEnd : Z;
  sType : option StatementType;
  sExecutionType : option ExecutionType;
  sEndStatement : option string;
  sCanEnd : option bool;
  sDefiner : option Z;
  sAlgorithm : option Z;
  sSQLSecurity : option Z;
  sParameters : list string;
  sTables : list string;
  sIsCte : option bool
}.

Definition set_sStart (s : Statement) (v : Z) : Statement :=
  mkStatement v (sEnd s) (sType s) (sExecutionType s) (sEndStatement s) (sCanEnd s)
    (sDefiner s) (sAlgorithm s) (sSQLSecurity s) (sParameters s) (sTables s) (sIsCte s).

Definition set_sEnd (s : Statement) (v : Z) : Statement :=
  mkStatement (sStart s) v (sType s) (sExecutionType s) (sEndStatement s) (sCanEnd s)
    (sDefiner s) (sAlgorithm s) (sSQLSecurity s) (sParameters s) (sTables s) (sIsCte s).

Definition set_sType (s : Statement) (v : option StatementType) : Statement :=
  mkStatement (sStart s) (sEnd s) v (sExecutionType s) (sEndStatement s) (sCanEnd s)
    (sDefiner s) (sAlgorithm s) (sSQLSecurity s) (sParameters s) (sTables s) (sIsCte s).

Definition set_sExecutionType (s : Statement) (v : option ExecutionType) : Statement :=
  mkStatement (sStart s) (sEnd s) (sType s) v (sEndStatement s) (sCanEnd s)
    (sDefiner s) (sAlgorithm s) (sSQLSecurity s) (sParameters s) (sTables s) (sIsCte s).

Definition set_sEndStatement (s : Statement) (v : option string) : Statement :=
  mkStatement (sStart s) (sEnd s) (sType s) (sExecutionType s) v (sCanEnd s)
    (sDefiner s) (sAlgorithm s) (sSQLSecurity s) (sParameters s) (sTables s) (sIsCte s).

Definition set_sCanEnd (s : Statement) (v : option bool) : Statement :=
  mkStatement (sStart s) (sEnd s) (sType s) (sExecutionType s) (sEndStatement s) v
    (sDefiner s) (sAlgorithm s) (sSQLSecurity s) (sParameters s) (sTables s) (sIsCte s).

Definition set_sDefiner (s : Statement) (v : option Z) : Statement :=
  mkStatement (sStart s) (sEnd s) (sType s) (sExecutionType s) (sEndStatement s) (sCanEnd s)
    v (sAlgorithm s) (sSQLSecurity s) (sParameters s) (sTables s) (sIsCte s).

Definition set_sAlgorithm (s : Statement) (v : option Z) : Statement :=
  mkStatement (sStart s) (sEnd s) (sType s) (sExecutionType s) (sEndStatement s) (sCanEnd s)
    (sDefiner s) v (sSQLSecurity s) (sParameters s) (sTables s) (sIsCte s).

Definition set_sSQLSecurity (s : Statement) (v : option Z) : Statement :=
  mkStatement (sStart s) (sEnd s) (sType s) (sExecutionType s) (sEndStatement s) (sCanEnd s)
    (sDefiner s) (sAlgorithm s) v (sParameters s) (sTables s) (sIsCte s).

Definition set_sParameters (s : Statement) (v : list string) : Statement :=
  mkStatement (sStart s) (sEnd s) (sType s) (sExecutionType s) (sEndStatement s) (sCanEnd s)
    (sDefiner s) (sAlgorithm s) (sSQLSecurity s) v (sTables s) (sIsCte s).

Definition set_sTables (s : Statement) (v : list string) : Statement :=
  mkStatement (sStart s) (sEnd s) (sType s) (sExecutionType s) (sEndStatement s) (sCanEnd s)
    (sDefiner s) (sAlgorithm s) (sSQLSecurity s) (sParameters s) v (sIsCte s).

Definition set_sIsCte (s : Statement) (v : option bool) : Statement :=
  mkStatement (sStart s) (sEnd s) (sType s) (sExecutionType s) (sEndStatement s) (sCanEnd s)
    (sDefiner s) (sAlgorithm s) (sSQLSecurity s) (sParameters s) (sTables s) v.

Record ConcreteStatement : Type := mkConcrete {
  cStart : Z;
  cEnd : Z;
  cType : StatementType;
  cExecutionType : ExecutionType;
  cEndStatement : option string;
  cCanEnd : option bool;
  cDefiner : option Z;
  cAlgorithm : option Z;
  cSQLSecurity : option Z;
  cParameters : list string;
  cTables : list string;
  cIsCte : option bool
}.

Definition ToConcrete (s : Statement) : ConcreteStatement :=
  mkConcrete (sStart s) (sEnd s)
    (match sType s with Some t => t | None => StatementUnknown end)
    (match sExecutionType s with Some e => e | None => ExecutionUnknown end)
    (sEndStatement s) (sCanEnd s) (sDefiner s) (sAlgorithm s) (sSQLSecurity s)
    (sParameters s) (sTables s) (sIsCte s).

Record IdentifyResult : Type := mkIdentifyResult {
  rStart : Z;
  rEnd : Z;
  rText : string;
  rType : StatementType;
  rExecutionType : ExecutionType;
  rParameters : list string;
  rTables : list string
}.

Record IdentifyOptions : Type := mkIdentifyOptions {
  optStrict : option bool;
  optDialect : option Dialect;
  optIdentifyTables : option bool;
  optParamTypes : option ParamTypes
}.

Record ParseResult : Type := mkParseResult {
  prType : string;
  prStart : Z;
  prEnd : Z;
  Body : list ConcreteStatement;
  Tokens : list Token
}.

Record AcceptToken : Type := mkAccept {
  atType : string;
  atValue : string
}.

Record StepValidation : Type := mkValidation {
  RequireBefore : list string;
  AcceptTokens : list AcceptToken
}.

(** A step's [Add] closure mutates the statement it captured, which is the
    parser's own statement: it is a function on that statement here. *)
Record Step : Type := mkStep {
  PreCanGoToNext : Token -> bool;
  Validation : option StepValidation;
  Add : Token -> Statement -> Statement;
  PostCanGoToNext : Token -> bool
}.

(** ** The statement parser's tables *)

Definition ExecutionTypes : list (StatementType * ExecutionType) :=
  [("SELECT", ExecutionListing); ("INSERT", ExecutionModification);
   ("DELETE", ExecutionModification); ("UPDATE", ExecutionModification);
   ("TRUNCATE", ExecutionModification); ("CREATE_DATABASE", ExecutionModification);
   ("CREATE_SCHEMA", ExecutionModification); ("CREATE_TABLE", ExecutionModification);
   ("CREATE_VIEW", ExecutionModification); ("CREATE_TRIGGER", ExecutionModification);
   ("CREATE_FUNCTION", ExecutionModification); ("CREATE_INDEX", ExecutionModification);
   ("CREATE_PROCEDURE", ExecutionModification); ("SHOW_BINARY", ExecutionListing);
   ("SHOW_BINLOG", ExecutionListing); ("SHOW_CHARACTER", ExecutionListing);
   ("SHOW_COLLATION", ExecutionListing); ("SHOW_CREATE", ExecutionListing);
   ("SHOW_ENGINE", ExecutionListing); ("SHOW_ENGINES", ExecutionListing);
   ("SHOW_ERRORS", ExecutionListing); ("SHOW_EVENTS", ExecutionListing);
   ("SHOW_FUNCTION", ExecutionListing); ("SHOW_GRANTS", ExecutionListing);
   ("SHOW_MASTER", ExecutionListing); ("SHOW_OPEN", ExecutionListing);
   ("SHOW_PLUGINS", ExecutionListing); ("SHOW_PRIVILEGES", ExecutionListing);
   ("SHOW_PROCEDURE", ExecutionListing); ("SHOW_PROCESSLIST", ExecutionListing);
   ("SHOW_PROFILE", ExecutionListing); ("SHOW_PROFILES", ExecutionListing);
   ("SHOW_RELAYLOG", ExecutionListing); ("SHOW_REPLICAS", ExecutionListing);
   ("SHOW_SLAVE", ExecutionListing); ("SHOW_REPLICA", ExecutionListing);
   ("SHOW_STATUS", ExecutionListing); ("SHOW_TRIGGERS", ExecutionListing);
   ("SHOW_VARIABLES", ExecutionListing); ("SHOW_WARNINGS", ExecutionListing);
   ("SHOW_DATABASES", ExecutionListing); ("SHOW_KEYS", ExecutionListing);
   ("SHOW_INDEX", ExecutionListing); ("SHOW_TABLE", ExecutionListing);
   ("SHOW_TABLES", ExecutionListing); ("SHOW_COLUMNS", ExecutionListing);
   ("DROP_DATABASE", ExecutionModification); ("DROP_SCHEMA", ExecutionModification);
   ("DROP_TABLE", ExecutionModification); ("DROP_VIEW", ExecutionModification);
   ("DROP_TRIGGER", ExecutionModification); ("DROP_FUNCTION", ExecutionModification);
   ("DROP_INDEX", ExecutionModification); ("DROP_PROCEDURE", ExecutionModification);
   ("ALTER_DATABASE", ExecutionModification); ("ALTER_SCHEMA", ExecutionModification);
   ("ALTER_TABLE", ExecutionModification); ("ALTER_VIEW", ExecutionModification);
   ("ALTER_TRIGGER", ExecutionModification); ("ALTER_FUNCTION", ExecutionModification);
   ("ALTER_INDEX", ExecutionModification); ("ALTER_PROCEDURE", ExecutionModification);
   ("UNKNOWN", ExecutionUnknown); ("ANON_BLOCK", ExecutionAnonBlock)].

(** A Go map read [m[k]] with its [ok] flag. *)
Fixpoint lookup {V : Type} (m : list (string * V)) (k : string) : option V :=
  match m with
  | [] => None
  | (k', v) :: rest => if String.eqb k k' then Some v else lookup rest k
  end.

Definition statementsWithEnds : list StatementType :=
  [StatementCreateTrigger; StatementCreateFunction; StatementCreateProcedure;
   StatementAnonBlock; StatementUnknown].

Definition blockOpeners : list (Dialect * list string) :=
  [(DialectGeneric, ["BEGIN"; "CASE"]);
   (DialectPSQL, ["BEGIN"; "CASE"; "LOOP"; "IF"]);
   (DialectMySQL, ["BEGIN"; "CASE"; "LOOP"; "IF"]);
   (DialectMSSQL, ["BEGIN"; "CASE"]);
   (DialectSQLite, ["BEGIN"; "CASE"]);
   (DialectOracle, ["DECLARE"; "BEGIN"; "CASE"]);
   (DialectBigQuery, ["BEGIN"; "CASE"; "IF"; "LOOP"; "REPEAT"; "WHILE"; "FOR"])].

Record ParseOptions : Type := mkParseOptions {
  IsStrict : bool;
  poDialect : Dialect;
  IdentifyTables : bool;
  poParamTypes : option ParamTypes
}.

Record cteState : Type := mkCte {
  isCte : bool;
  asSeen : bool;
  statementEnd : bool;
  parens : Z;
  cteCursor : State;
  params : list string
}.

Record stateMachineParser : Type := mkParser {
  statement : Statement;
  steps : list Step;
  options : ParseOptions;
  currentStepIndex : Z;
  prevToken : option Token;
  prevNonWhitespaceToken : option Token;
  lastBlockOpener : option Token;
  anonBlockStarted : bool;
  openBlocks : Z
}.

Definition set_statement (p : stateMachineParser) (s : Statement) : stateMachineParser :=
  mkParser s (steps p) (options p) (currentStepIndex p) (prevToken p)
    (prevNonWhitespaceToken p) (lastBlockOpener p) (anonBlockStarted p) (openBlocks p).

Definition set_currentStepIndex (p : stateMachineParser) (i : Z) : stateMachineParser :=
  mkParser (statement p) (steps p) (options p) i (prevToken p)
    (prevNonWhitespaceToken p) (lastBlockOpener p) (anonBlockStarted p) (openBlocks p).

Definition set_prevToken (p : stateMachineParser) (t : option Token) : stateMachineParser :=
  mkParser (statement p) (steps p) (options p) (currentStepIndex p) t
    (prevNonWhitespaceToken p) (lastBlockOpener p) (anonBlockStarted p) (openBlocks p).

Definition set_prevNonWhitespaceToken (p : stateMachineParser) (t : option Token)
  : stateMachineParser :=
  mkParser (statement p) (steps p) (options p) (currentStepIndex p) (prevToken p)
    t (lastBlockOpener p) (anonBlockStarted p) (openBlocks p).

Definition set_lastBlockOpener (p : stateMachineParser) (t : option Token)
  : stateMachineParser :=
  mkParser (statement p) (steps p) (options p) (currentStepIndex p) (prevToken p)
    (prevNonWhitespaceToken p) t (anonBlockStarted p) (openBlocks p).

Definition set_anonBlockStarted (p : stateMachineParser) (b : bool) : stateMachineParser :=
  mkParser (statement p) (steps p) (options p) (currentStepIndex p) (prevToken p)
    (prevNonWhitespaceToken p) (lastBlockOpener p) b (openBlocks p).

Definition set_openBlocks (p : stateMachineParser) (n : Z) : stateMachineParser :=
  mkParser (statement p) (steps p) (options p) (currentStepIndex p) (prevToken p)
    (prevNonWhitespaceToken p) (lastBlockOpener p) (anonBlockStarted p) n.

Definition GetStatement (p : stateMachineParser) : Statement := statement p.

Definition createInitialStatement : Statement :=
  mkStatement (-1) 0 None None None None None None None [] [] None.

Definition initState (input : list rune) (prevState : option State) : State :=
  match prevState with
  | Some prev =>
    mkState (stPosition prev + 1) (llen (stInput prev) - 1) (stPosition prev) (stInput prev)
  | None => mkState 0 (llen input - 1) (-1) input
  end.


(** ** The statement state machine (stateMachineParser) *)

Definition setPrevToken (p : stateMachineParser) (token : Token) : stateMachineParser :=
  let p := set_prevToken p (Some token) in
  if negb (TokenType_eqb (tokType token) TokenWhitespace)
  then set_prevNonWhitespaceToken p (Some token)
  else p.

Definition isValidToken (step : Step) (token : Token) : bool :=
  match Validation step with
  | None => true
  | Some v =>
    existsb (fun accept =>
               let isValidType := String.eqb (TokenType_string (tokType token)) (atType accept) in
               let isValidValue :=
                   String.eqb (atValue accept) ""
                   || String.eqb (ToUpper (tokValue token)) (atValue accept) in
               isValidType && isValidValue)
            (AcceptTokens v)
  end.

(** [*p.statement.Type == t], read only where the type is known to be set. *)
Definition typeIs (s : Statement) (t : StatementType) : bool :=
  match sType s with
  | Some t' => String.eqb t' t
  | None => false
  end.

(** [preTableKeywords.MatchString]: the expression [(?i)^from$|^join$|^into$]
    accepts exactly the three words in any letter case; none of their
    letters has a case variant outside ASCII. *)
Definition asciiLower (s : string) : string :=
  string_of_bytes
    (map (fun b => if (65 <=? b) && (b <=? 90) then b + 32 else b) (bytes_of_string s)).

Definition preTableKeywords (value : string) : bool :=
  let v := asciiLower value in
  String.eqb v "from" || String.eqb v "join" || String.eqb v "into".

(** [strings.ReplaceAll(s, " ", "_")] *)
Definition replaceSpaces (s : string) : string :=
  string_of_bytes (map (fun b => if b =? 32 then 95 else b) (bytes_of_string s)).

Definition string_of_Z (n : Z) : string := NilZero.string_of_int (Z.to_int n).

(** The ways a stretch of [AddToken] ends: by [return], or by falling
    through to the code below it. *)
Inductive flow : Type :=
| Return (p : stateMachineParser)
| Continue (p : stateMachineParser).

(** The block-opener stretch of [AddToken] (keyword tokens). *)
Definition openBlock (p : stateMachineParser) (token nextToken : Token) : flow :=
  if TokenType_eqb (tokType token) TokenKeyword then
    let upperVal := ToUpper (tokValue token) in
    let dialect := poDialect (options p) in
    let isBlockOpener :=
        contains_string
          (match lookup blockOpeners dialect with Some l => l | None => [] end) upperVal in
    if isBlockOpener
         && match prevNonWhitespaceToken p with
            | None => true
            | Some t => negb (String.eqb (ToUpper (tokValue t)) "END")
            end
    then
      let next := ToUpper (tokValue nextToken) in
      let canOpenBlock :=
          if negb (String.eqb upperVal "BEGIN") then true
          else if negb (String.eqb next "TRANSACTION") then
            if negb (String.eqb dialect DialectSQLite) then true
            else negb (String.eqb next "DEFERRED" || String.eqb next "IMMEDIATE"
                       || String.eqb next "EXCLUSIVE")
          else false in
      if canOpenBlock then
        if String.eqb dialect DialectOracle
             && match lastBlockOpener p with
                | Some t => String.eqb (tokValue t) "DECLARE"
                | None => false
                end
             && String.eqb upperVal "BEGIN"
        then Return (set_lastBlockOpener (setPrevToken p token) (Some token))
        else
          let p := set_openBlocks p (openBlocks p + 1) in
          let p := set_lastBlockOpener p (Some token) in
          let p := setPrevToken p token in
          if typeIs (statement p) StatementAnonBlock && negb (anonBlockStarted p)
          then Continue (set_anonBlockStarted p true)
          else match sType (statement p) with
               | Some _ => Return p
               | None => Continue p
               end
      else Continue p
    else Continue p
  else Continue p.

Definition captureTables (p : stateMachineParser) (token nextToken : Token)
  : stateMachineParser :=
  if IdentifyTables (options p) && preTableKeywords (tokValue token)
       && match sIsCte (statement p) with None => true | Some b => negb b end
  then
    if typeIs (statement p) StatementSelect || typeIs (statement p) StatementInsert then
      let tableValue := tokValue nextToken in
      if negb (contains_string (sTables (statement p)) tableValue)
      then set_statement p (set_sTables (statement p) (sTables (statement p) ++ [tableValue]))
      else p
    else p
  else p.

Definition captureParameters (p : stateMachineParser) (token : Token)
  : stateMachineParser :=
  if TokenType_eqb (tokType token) TokenParameter then
    if String.eqb (tokValue token) "?"
         || negb (contains_string (sParameters (statement p)) (tokValue token))
    then set_statement p
           (set_sParameters (statement p) (sParameters (statement p) ++ [tokValue token]))
    else p
  else p.

Definition prevIsWhitespace (p : stateMachineParser) : option bool :=
  match prevToken p with
  | Some t => Some (TokenType_eqb (tokType t) TokenWhitespace)
  | None => None
  end.

(** The modifier stretch: words before the statement's object that are
    passed over without consulting the steps. *)
Definition skipModifiers (p : stateMachineParser) (token : Token) : flow :=
  let upperValue := ToUpper (tokValue token) in
  let dialect := poDialect (options p) in
  if String.eqb upperValue "UNIQUE"
       || (String.eqb dialect DialectMySQL
           && (String.eqb upperValue "FULLTEXT" || String.eqb upperValue "SPATIAL"))
       || (String.eqb dialect DialectMSSQL
           && (String.eqb upperValue "CLUSTERED" || String.eqb upperValue "NONCLUSTERED"))
  then Return (setPrevToken p token)
  else if (String.eqb dialect DialectPSQL || String.eqb dialect DialectMSSQL
           || String.eqb dialect DialectBigQuery)
            && String.eqb upperValue "MATERIALIZED"
  then Return (setPrevToken p token)
  else if negb (String.eqb dialect DialectSQLite)
            && (let prevIsOr :=
                    match prevNonWhitespaceToken p with
                    | Some t => String.eqb (ToUpper (tokValue t)) "OR"
                    | None => false
                    end in
                let isAlterOrReplace :=
                    if String.eqb dialect DialectMSSQL
                    then String.eqb upperValue "ALTER"
                    else String.eqb upperValue "REPLACE" in
                String.eqb upperValue "OR" || (prevIsOr && isAlterOrReplace))
  then Return (setPrevToken p token)
  else if (String.eqb dialect DialectPSQL
           && (String.eqb upperValue "TEMP" || String.eqb upperValue "TEMPORARY"))
          || (String.eqb dialect DialectSQLite
              && (String.eqb upperValue "TEMP" || String.eqb upperValue "TEMPORARY"
                  || String.eqb upperValue "VIRTUAL"))
  then Return (setPrevToken p token)
  else if String.eqb dialect DialectMySQL && String.eqb upperValue "DEFINER"
  then Return (setPrevToken (set_statement p (set_sDefiner (statement p) (Some 0))) token)
  else
  match (match sDefiner (statement p) with
         | Some d =>
           if (d =? 0) && String.eqb (tokValue token) "="
           then Return (setPrevToken
                          (set_statement p (set_sDefiner (statement p) (Some (d + 1)))) token)
           else if d >? 0 then
             if (d =? 1) && match prevIsWhitespace p with Some b => b | None => false end
             then Return (setPrevToken
                            (set_statement p (set_sDefiner (statement p) (Some (d + 1)))) token)
             else if (d >? 1) && match prevIsWhitespace p with Some b => negb b | None => false end
             then Return (setPrevToken p token)
             else Continue (set_statement p (set_sDefiner (statement p) None))
           else Continue p
         | None => Continue p
         end) with
  | Return p => Return p
  | Continue p =>
  if String.eqb dialect DialectMySQL && String.eqb upperValue "ALGORITHM"
  then Return (setPrevToken (set_statement p (set_sAlgorithm (statement p) (Some 0))) token)
  else
  match (match sAlgorithm (statement p) with
         | Some a =>
           if (a =? 0) && String.eqb (tokValue token) "="
           then Return (setPrevToken
                          (set_statement p (set_sAlgorithm (statement p) (Some (a + 1)))) token)
           else if a >? 0 then
             if (a =? 1) && match prevIsWhitespace p with Some b => b | None => false end
             then Return (setPrevToken
                            (set_statement p (set_sAlgorithm (statement p) (Some (a + 1)))) token)
             else if (a >? 1)
                       && match prevToken p with
                          | Some t => contains_string ["UNDEFINED"; "MERGE"; "TEMPTABLE"]
                                                      (ToUpper (tokValue t))
                          | None => false
                          end
             then Return (setPrevToken p token)
             else Continue (set_statement p (set_sAlgorithm (statement p) None))
           else Continue p
         | None => Continue p
         end) with
  | Return p => Return p
  | Continue p =>
  if String.eqb dialect DialectMySQL && String.eqb upperValue "SQL"
  then Return (setPrevToken (set_statement p (set_sSQLSecurity (statement p) (Some 0))) token)
  else
  match sSQLSecurity (statement p) with
  | Some s =>
    if ((s =? 0) && String.eqb upperValue "SECURITY")
         || ((s =? 1) && (String.eqb upperValue "DEFINER" || String.eqb upperValue "INVOKER"))
    then Return (setPrevToken
                   (set_statement p (set_sSQLSecurity (statement p) (Some (s + 1)))) token)
    else if s =? 2
    then Continue (set_statement p (set_sSQLSecurity (statement p) None))
    else Continue p
  | None => Continue p
  end
  end
  end.

(** [p.steps[i]] *)
Definition stepAt (p : stateMachineParser) (i : Z) : result Step :=
  if (0 <=? i) && (i <? llen (steps p)) then
    match nth_error (steps p) (Z.to_nat i) with
    | Some s => Ok s
    | None => Panic "runtime error: index out of range"
    end
  else Panic "runtime error: index out of range".

(** [p.steps[p.currentStepIndex]], moving on first when the step says so. *)
Definition currentStepOf (p : stateMachineParser) (token : Token)
  : result (stateMachineParser * Step) :=
  rbind (stepAt p (currentStepIndex p)) (fun currentStep =>
    if PreCanGoToNext currentStep token then
      let p := set_currentStepIndex p (currentStepIndex p + 1) in
      rbind (stepAt p (currentStepIndex p)) (fun s => Ok (p, s))
    else Ok (p, currentStep)).

(** The panic message of a step whose required predecessor is missing. *)
Definition missingPredecessor (p : stateMachineParser) (currentStep : Step) (token : Token)
  : option string :=
  let requireBefore :=
      match Validation currentStep with Some v => RequireBefore v | None => [] end in
  match prevToken p with
  | Some prev =>
    if match Validation currentStep with Some _ => true | None => false end
         && (llen requireBefore >? 0)
         && negb (contains_string requireBefore (TokenType_string (tokType prev)))
    then Some ("Expected any of these tokens " +s+ join " or " requireBefore
               +s+ " before " +s+ dquote +s+ tokValue token +s+ dquote
               +s+ " (currentStep=" +s+ string_of_Z (currentStepIndex p) +s+ ").")
    else None
  | None => None
  end.

(** The panic message of a token the step does not accept. *)
Definition unexpectedToken (p : stateMachineParser) (currentStep : Step) (token : Token)
  : string :=
  let expectedTokenStrings :=
      match Validation currentStep with
      | Some v =>
        map (fun accept => "(type=" +s+ dquote +s+ atType accept +s+ dquote
                           +s+ " value=" +s+ dquote +s+ atValue accept +s+ dquote +s+ ")")
            (AcceptTokens v)
      | None => []
      end in
  "Expected any of these tokens " +s+ join " or " expectedTokenStrings
  +s+ " instead of type=" +s+ dquote +s+ TokenType_string (tokType token) +s+ dquote
  +s+ " value=" +s+ dquote +s+ tokValue token +s+ dquote
  +s+ " (currentStep=" +s+ string_of_Z (currentStepIndex p) +s+ ").".

Definition executionTypeOf (s : Statement) : ExecutionType :=
  match sType s with
  | Some t =>
    match lookup ExecutionTypes t with
    | Some e => e
    | None => ExecutionUnknown
    end
  | None => ExecutionUnknown
  end.

(** The step's effect, the execution type, the move to the next step. *)
Definition applyStep (p : stateMachineParser) (currentStep : Step) (token : Token)
  : stateMachineParser :=
  let p := set_statement p (Add currentStep token (statement p)) in
  let p := set_statement p
             (set_sExecutionType (statement p) (Some (executionTypeOf (statement p)))) in
  let p := if PostCanGoToNext currentStep token
           then set_currentStepIndex p (currentStepIndex p + 1) else p in
  setPrevToken p token.

(** The step stretch of [AddToken]. *)
Definition runStep (p : stateMachineParser) (token : Token) : result stateMachineParser :=
  rbind (currentStepOf p token) (fun '(p, currentStep) =>
    match missingPredecessor p currentStep token with
    | Some msg => Panic msg
    | None =>
      if negb (isValidToken currentStep token) && IsStrict (options p)
      then Panic (unexpectedToken p currentStep token)
      else Ok (applyStep p currentStep token)
    end).

Definition AddToken (p : stateMachineParser) (token nextToken : Token)
  : result stateMachineParser :=
  match sEndStatement (statement p) with
  | Some _ => Panic "This statement has already got to the end."
  | None =>
    let statementTypeEnds :=
        match sType (statement p) with
        | Some t => contains_string statementsWithEnds t
        | None => false
        end in
    if TokenType_eqb (tokType token) TokenSemicolon
         && (negb statementTypeEnds
             || ((openBlocks p =? 0)
                 && (typeIs (statement p) StatementUnknown
                     || match sCanEnd (statement p) with Some b => b | None => false end)))
    then Ok (set_statement p (set_sEndStatement (statement p) (Some ";")))
    else if (openBlocks p >? 0) && String.eqb (ToUpper (tokValue token)) "END" then
      let p := set_openBlocks p (openBlocks p - 1) in
      let p := if openBlocks p =? 0
               then set_statement p (set_sCanEnd (statement p) (Some true)) else p in
      Ok (setPrevToken p token)
    else if TokenType_eqb (tokType token) TokenWhitespace then Ok (setPrevToken p token)
    else
      match openBlock p token nextToken with
      | Return p => Ok p
      | Continue p =>
        let p := captureTables p token nextToken in
        let p := captureParameters p token in
        if match sType (statement p) with Some _ => true | None => false end
             && (sStart (statement p) >=? 0)
        then Ok (setPrevToken p token)
        else
          match skipModifiers p token with
          | Return p => Ok p
          | Continue p => runStep p token
          end
      end
  end.


Definition stateMachineStatementParser (statement : Statement) (steps : list Step)
           (options : ParseOptions) : stateMachineParser :=
  mkParser statement steps options 0 None None None false 0.

(** ** The statement parsers *)

Definition kw (value : string) : AcceptToken := mkAccept "keyword" value.

Definition setStartIfUnset (token : Token) (s : Statement) : Statement :=
  if sStart s <? 0 then set_sStart s (tokStart token) else s.

(** The one step of SELECT, INSERT, UPDATE, DELETE and TRUNCATE. *)
Definition singleStep (word : string) (statementType : StatementType) : Step :=
  mkStep (fun _ => false)
         (Some (mkValidation [] [kw word]))
         (fun token s => setStartIfUnset token (set_sType s (Some statementType)))
         (fun _ => true).

Definition createSelectStatementParser (options : ParseOptions) : stateMachineParser :=
  stateMachineStatementParser createInitialStatement
    [singleStep "SELECT" StatementSelect] options.

Definition createBlockStatementParser (options : ParseOptions) : stateMachineParser :=
  let statement := set_sType createInitialStatement (Some StatementAnonBlock) in
  let acceptTokens :=
      (if String.eqb (poDialect options) DialectOracle then [kw "DECLARE"] else [])
        ++ [kw "BEGIN"] in
  stateMachineStatementParser statement
    [mkStep (fun _ => false) (Some (mkValidation [] acceptTokens))
            setStartIfUnset (fun _ => true)]
    options.

Definition createInsertStatementParser (options : ParseOptions) : stateMachineParser :=
  stateMachineStatementParser createInitialStatement
    [singleStep "INSERT" StatementInsert] options.

Definition createUpdateStatementParser (options : ParseOptions) : stateMachineParser :=
  stateMachineStatementParser createInitialStatement
    [singleStep "UPDATE" StatementUpdate] options.

Definition createDeleteStatementParser (options : ParseOptions) : stateMachineParser :=
  stateMachineStatementParser createInitialStatement
    [singleStep "DELETE" StatementDelete] options.

(** The two steps of CREATE, DROP, ALTER and SHOW: the verb, then (after a
    whitespace token) the object, which names the type. *)
Definition verbStep (verb : string) : Step :=
  mkStep (fun _ => false) (Some (mkValidation [] [kw verb]))
         setStartIfUnset (fun _ => true).

Definition objectStep (acceptTokens : list AcceptToken)
           (typeOf : Token -> StatementType) : Step :=
  mkStep (fun _ => false)
         (Some (mkValidation [TokenType_string TokenWhitespace] acceptTokens))
         (fun token s => set_sType s (Some (typeOf token)))
         (fun _ => true).

Definition createCreateStatementParser (options : ParseOptions) : stateMachineParser :=
  let acceptTokens :=
      (if negb (String.eqb (poDialect options) DialectSQLite)
       then [kw "DATABASE"; kw "SCHEMA"; kw "PROCEDURE"] else [])
        ++ [kw "TABLE"; kw "VIEW"; kw "TRIGGER"; kw "FUNCTION"; kw "INDEX"] in
  stateMachineStatementParser createInitialStatement
    [verbStep "CREATE";
     objectStep acceptTokens (fun token => "CREATE_" +s+ ToUpper (tokValue token))]
    options.

Definition createDropStatementParser (options : ParseOptions) : stateMachineParser :=
  let acceptTokens :=
      (if negb (String.eqb (poDialect options) DialectSQLite)
       then [kw "DATABASE"; kw "SCHEMA"; kw "PROCEDURE"] else [])
        ++ [kw "TABLE"; kw "VIEW"; kw "TRIGGER"; kw "FUNCTION"; kw "INDEX"] in
  stateMachineStatementParser createInitialStatement
    [verbStep "DROP";
     objectStep acceptTokens (fun token => "DROP_" +s+ ToUpper (tokValue token))]
    options.

Definition createAlterStatementParser (options : ParseOptions) : stateMachineParser :=
  let acceptTokens :=
      (if negb (String.eqb (poDialect options) DialectSQLite)
       then [kw "DATABASE"; kw "SCHEMA"; kw "TRIGGER"; kw "FUNCTION"; kw "INDEX"]
              ++ (if negb (String.eqb (poDialect options) DialectBigQuery)
                  then [kw "PROCEDURE"] else [])
       else [])
        ++ [kw "TABLE"; kw "VIEW"] in
  stateMachineStatementParser createInitialStatement
    [verbStep "ALTER";
     objectStep acceptTokens (fun token => "ALTER_" +s+ ToUpper (tokValue token))]
    options.

Definition createTruncateStatementParser (options : ParseOptions) : stateMachineParser :=
  stateMachineStatementParser createInitialStatement
    [singleStep "TRUNCATE" StatementTruncate] options.

Definition createShowStatementParser (options : ParseOptions) : stateMachineParser :=
  stateMachineStatementParser createInitialStatement
    [verbStep "SHOW";
     objectStep
       [kw "DATABASES"; kw "DATABASE"; kw "KEYS"; kw "INDEX"; kw "COLUMNS"; kw "TABLES";
        kw "TABLE"; kw "BINARY"; kw "BINLOG"; kw "CHARACTER"; kw "COLLATION"; kw "CREATE";
        kw "ENGINE"; kw "ENGINES"; kw "ERRORS"; kw "EVENTS"; kw "FUNCTION"; kw "GRANTS";
        kw "MASTER"; kw "OPEN"; kw "PLUGINS"; kw "PRIVILEGES"; kw "PROCEDURE";
        kw "PROCESSLIST"; kw "PROFILE"; kw "PROFILES"; kw "RELAYLOG"; kw "REPLICAS";
        kw "REPLICA"; kw "SLAVE"; kw "STATUS"; kw "TRIGGERS"; kw "VARIABLES"; kw "WARNINGS"]
       (fun token => "SHOW_" +s+ ToUpper (replaceSpaces (tokValue token)))]
    options.

Definition createUnknownStatementParser (options : ParseOptions) : stateMachineParser :=
  stateMachineStatementParser createInitialStatement
    [mkStep (fun _ => false) None
            (fun token s => setStartIfUnset token (set_sType s (Some StatementUnknown)))
            (fun _ => true)]
    options.

Definition createStatementParserByToken (token nextToken : Token) (options : ParseOptions)
  : result stateMachineParser :=
  let byKeyword : option stateMachineParser :=
      if TokenType_eqb (tokType token) TokenKeyword then
        let word := ToUpper (tokValue token) in
        if String.eqb word "SELECT" then Some (createSelectStatementParser options)
        else if String.eqb word "CREATE" then Some (createCreateStatementParser options)
        else if String.eqb word "SHOW" then
          if String.eqb (poDialect options) DialectMySQL
               || String.eqb (poDialect options) DialectGeneric
          then Some (createShowStatementParser options) else None
        else if String.eqb word "DROP" then Some (createDropStatementParser options)
        else if String.eqb word "ALTER" then Some (createAlterStatementParser options)
        else if String.eqb word "INSERT" then Some (createInsertStatementParser options)
        else if String.eqb word "UPDATE" then Some (createUpdateStatementParser options)
        else if String.eqb word "DELETE" then Some (createDeleteStatementParser options)
        else if String.eqb word "TRUNCATE" then Some (createTruncateStatementParser options)
        else if String.eqb word "BEGIN" then
          if (String.eqb (poDialect options) DialectBigQuery
              || String.eqb (poDialect options) DialectOracle)
               && negb (String.eqb (ToUpper (tokValue nextToken)) "TRANSACTION")
          then Some (createBlockStatementParser options) else None
        else if String.eqb word "DECLARE" then
          if String.eqb (poDialect options) DialectOracle
          then Some (createBlockStatementParser options) else None
        else None
      else None in
  match byKeyword with
  | Some p => Ok p
  | None =>
    if negb (IsStrict options) then Ok (createUnknownStatementParser options)
    else Panic ("Invalid statement parser " +s+ dquote +s+ tokValue token +s+ dquote)
  end.

(** ** Parse *)

Section Parse.

Variable isStrict : bool.
Variable dialect : Dialect.
Variable identifyTables : bool.
Variable paramTypes : option ParamTypes.

Fixpoint nextNonWhitespaceToken_loop (fuel : nat) (state : State) : result Token :=
  match fuel with
  | O => OutOfFuel
  | S n =>
    let s := initState [] (Some state) in
    match ScanToken dialect paramTypes s with
    | Ok (token, s) =>
      if negb (TokenType_eqb (tokType token) TokenWhitespace) then Ok token
      else nextNonWhitespaceToken_loop n s
    | Panic msg => Panic msg
    | OutOfFuel => OutOfFuel
    end
  end.

Definition nextNonWhitespaceToken (state : State) : result Token :=
  nextNonWhitespaceToken_loop (S (remaining state)) state.

(** The variables of [Parse] that its loop updates. *)
Record loopState : Type := mkLoop {
  prevState : State;
  statementParser : option stateMachineParser;
  cte : cteState;
  topLevelResult : ParseResult
}.

Definition appendToken (r : ParseResult) (token : Token) : ParseResult :=
  mkParseResult (prType r) (prStart r) (prEnd r) (Body r) (Tokens r ++ [token]).

Definition appendBody (r : ParseResult) (c : ConcreteStatement) : ParseResult :=
  mkParseResult (prType r) (prStart r) (prEnd r) (Body r ++ [c]) (Tokens r).

Definition ignoreOutsideBlankTokens : list TokenType :=
  [TokenWhitespace; TokenCommentInline; TokenCommentBlock; TokenSemicolon].

Definition isBlank (t : TokenType) : bool :=
  existsb (TokenType_eqb t) ignoreOutsideBlankTokens.

(** Record the token and move the cursor past it. *)
Definition consume (ls : loopState) (c : cteState) (token : Token) (tokenState : State)
  : loopState :=
  mkLoop tokenState (statementParser ls) c (appendToken (topLevelResult ls) token).

(** The last lines of the loop body outside a statement: a parameter token
    seen while a CTE is tracked is remembered. *)
Definition rememberParameter (token : Token) (ls : loopState) : loopState :=
  let c := cte ls in
  if isCte c && TokenType_eqb (tokType token) TokenParameter then
    mkLoop (prevState ls) (statementParser ls)
           (mkCte (isCte c) (asSeen c) (statementEnd c) (parens c) (cteCursor c)
                  (params c ++ [tokValue token]))
           (topLevelResult ls)
  else ls.

(** The loop body when no statement parser is active. *)
Definition outsideStatement (ls : loopState) (token nextToken : Token) (tokenState : State)
  : result loopState :=
  let c := cte ls in
  rbind
    (if negb (isCte c) && isBlank (tokType token) then
       Ok (consume ls c token tokenState)
     else if negb (isCte c) && TokenType_eqb (tokType token) TokenKeyword
               && String.eqb (ToUpper (tokValue token)) "WITH" then
       Ok (consume ls (mkCte true (asSeen c) (statementEnd c) (parens c) tokenState (params c))
                   token tokenState)
     else if isCte c && TokenType_eqb (tokType token) TokenSemicolon then
       let ls' := consume ls (mkCte false false false 0 (cteCursor c) (params c))
                          token tokenState in
       Ok (mkLoop (prevState ls') (statementParser ls') (cte ls')
                  (appendBody (topLevelResult ls')
                     (mkConcrete (stStart (cteCursor c)) (tokEnd token)
                        StatementUnknown ExecutionUnknown None None None None None
                        [] [] None)))
     else if isCte c && negb (statementEnd c) then
       let c' :=
           if asSeen c then
             if String.eqb (tokValue token) "(" then
               mkCte (isCte c) (asSeen c) (statementEnd c) (parens c + 1)
                     (cteCursor c) (params c)
             else if String.eqb (tokValue token) ")" then
               mkCte (isCte c) (asSeen c)
                     (if parens c - 1 =? 0 then true else statementEnd c)
                     (parens c - 1) (cteCursor c) (params c)
             else c
           else if String.eqb (ToUpper (tokValue token)) "AS" then
             mkCte (isCte c) true (statementEnd c) (parens c) (cteCursor c) (params c)
           else c in
       Ok (consume ls c' token tokenState)
     else if isCte c && statementEnd c && String.eqb (tokValue token) "," then
       Ok (consume ls (mkCte (isCte c) false false (parens c) (cteCursor c) (params c))
                   token tokenState)
     else if isCte c && statementEnd c && isBlank (tokType token) then
       Ok (consume ls c token tokenState)
     else
       rbind (createStatementParserByToken token nextToken
                (mkParseOptions isStrict dialect identifyTables paramTypes))
             (fun p =>
                if isCte c then
                  let stmt := GetStatement p in
                  let stmt := set_sStart stmt (stStart (cteCursor c)) in
                  let stmt := set_sIsCte stmt (Some true) in
                  let stmt := set_sParameters stmt (sParameters stmt ++ params c) in
                  Ok (mkLoop (prevState ls) (Some (set_statement p stmt))
                             (mkCte false false false (parens c) (cteCursor c) [])
                             (topLevelResult ls))
                else
                  Ok (mkLoop (prevState ls) (Some p) c (topLevelResult ls))))
    (fun ls' => Ok (rememberParameter token ls')).

(** The loop body when a statement parser is active. *)
Definition insideStatement (ls : loopState) (p : stateMachineParser)
           (token nextToken : Token) (tokenState : State) : result loopState :=
  rbind (AddToken p token nextToken) (fun p =>
    let r := appendToken (topLevelResult ls) token in
    let statement := GetStatement p in
    match sEndStatement statement with
    | Some _ =>
      let statement := set_sEnd statement (tokEnd token) in
      Ok (mkLoop tokenState None (cte ls) (appendBody r (ToConcrete statement)))
    | None => Ok (mkLoop tokenState (Some p) (cte ls) r)
    end).

Definition dispatch (ls : loopState) (token nextToken : Token) (tokenState : State)
  : result loopState :=
  match statementParser ls with
  | None => outsideStatement ls token nextToken tokenState
  | Some p => insideStatement ls p token nextToken tokenState
  end.

Definition parseIteration (ls : loopState) : result loopState :=
  let tokenState := initState [] (Some (prevState ls)) in
  rbind (ScanToken dialect paramTypes tokenState) (fun '(token, tokenState) =>
  rbind (nextNonWhitespaceToken tokenState) (fun nextToken =>
  dispatch ls token nextToken tokenState)).

(** [for prevState.Position < topLevelState.End { ... }] *)
Fixpoint Parse_loop (fuel : nat) (topLevelEnd : Z) (ls : loopState) : result loopState :=
  match fuel with
  | O => OutOfFuel
  | S n =>
    if stPosition (prevState ls) <? topLevelEnd
    then rbind (parseIteration ls) (Parse_loop n topLevelEnd)
    else Ok ls
  end.

(** The statement that is still open when the input ends. *)
Definition finish (ls : loopState) : ParseResult :=
  match statementParser ls with
  | Some p =>
    let statement := GetStatement p in
    match sEndStatement statement with
    | None =>
      appendBody (topLevelResult ls)
                 (ToConcrete (set_sEnd statement (prEnd (topLevelResult ls))))
    | Some _ => topLevelResult ls
    end
  | None => topLevelResult ls
  end.

Definition Parse (input : string) : result ParseResult :=
  let inputRunes := runes_of_string input in
  let topLevelState := initState inputRunes None in
  let topLevelResult := mkParseResult "QUERY" 0 (llen inputRunes - 1) [] [] in
  let cte := mkCte false false false 0 topLevelState [] in
  rbind (Parse_loop (2 * List.length inputRunes + 2) (stEnd topLevelState)
                    (mkLoop topLevelState None cte topLevelResult))
        (fun ls => Ok (finish ls)).

End Parse.

(** ** identifier.go *)

Definition DefaultParamTypesFor (dialect : Dialect) : ParamTypes :=
  if String.eqb dialect DialectPSQL then mkParamTypes None [36] [] [] []
  else if String.eqb dialect DialectMSSQL then mkParamTypes None [] [58] [] []
  else if String.eqb dialect DialectBigQuery then mkParamTypes (Some true) [] [64] [64] []
  else if String.eqb dialect DialectSQLite then mkParamTypes (Some true) [63] [58; 64] [] []
  else mkParamTypes (Some true) [] [] [] [].

(** Go's [<] on strings: byte-wise lexicographic order. *)
Fixpoint bytes_ltb (a b : list Z) : bool :=
  match a, b with
  | _, [] => false
  | [], _ :: _ => true
  | x :: a', y :: b' => (x <? y) || ((x =? y) && bytes_ltb a' b')
  end.

Definition string_ltb (a b : string) : bool :=
  bytes_ltb (bytes_of_string a) (bytes_of_string b).

(** [sort.Strings]: the ascending arrangement of the slice. *)
Fixpoint insertSorted (x : string) (xs : list string) : list string :=
  match xs with
  | [] => [x]
  | y :: rest => if string_ltb y x then y :: insertSorted x rest else x :: xs
  end.

Definition sortStrings (xs : list string) : list string :=
  fold_right insertSorted [] xs.

(** [query[lo:hi]] on the bytes of the query. *)
Definition substr (query : string) (lo hi : Z) : result string :=
  rbind (slice (bytes_of_string query) lo hi) (fun bs => Ok (string_of_bytes bs)).

Fixpoint identifyResults (query : string) (sortParams : bool)
         (body : list ConcreteStatement) : result (list IdentifyResult) :=
  match body with
  | [] => Ok []
  | statement :: rest =>
    let parameters := cParameters statement in
    let parameters := if sortParams then sortStrings parameters else parameters in
    rbind (substr query (cStart statement) (Z.min (cEnd statement + 1) (len query)))
          (fun text =>
    rbind (identifyResults query sortParams rest) (fun results =>
    Ok (mkIdentifyResult (cStart statement) (cEnd statement) text (cType statement)
                         (cExecutionType statement) parameters (cTables statement)
          :: results)))
  end.

(** What [Identify] hands back: the result list ([None] is Go's nil slice)
    and the error ([None] is nil). *)
Definition returned : Type := (option (list IdentifyResult) * option string)%type.

(** The body of [Identify], with its named results. *)
Definition identifyBody (query : string) (options : IdentifyOptions) : result returned :=
  let isStrict := match optStrict options with Some b => b | None => true end in
  let dialect := match optDialect options with Some d => d | None => DialectGeneric end in
  let isValidDialect := contains_string DIALECTS dialect in
  if negb isValidDialect then
    Ok (None, Some ("Unknown dialect. Allowed values: [" +s+ join " " DIALECTS +s+ "]"))
  else
    let paramTypes :=
        match optParamTypes options with
        | Some pt => pt
        | None => DefaultParamTypesFor dialect
        end in
    let identifyTables :=
        match optIdentifyTables options with Some b => b | None => false end in
    rbind (Parse isStrict dialect identifyTables (Some paramTypes) query) (fun result =>
    let sortParams :=
        String.eqb dialect DialectPSQL
        && match optParamTypes options with None => true | Some _ => false end in
    rbind (identifyResults query sortParams (Body result)) (fun results =>
    Ok (Some results, None))).

(** [Identify]: the deferred function recovers a panic of the body and turns
    it into the returned error; the result list is then still nil.  A body
    that does not terminate has nothing to return. *)
Definition Identify (query : string) (options : IdentifyOptions) : result returned :=
  match identifyBody query options with
  | Ok r => Ok r
  | Panic msg => Ok (None, Some msg)
  | OutOfFuel => OutOfFuel
  end.

Definition GetExecutionType (command : StatementType) : ExecutionType :=
  match lookup ExecutionTypes command with
  | Some e => e
  | None => ExecutionUnknown
  end.


(** * Properties *)

(** ** Generic facts about the helpers *)

Lemma contains_string_In : forall xs x, contains_string xs x = true <-> In x xs.
Proof.
  intros xs x. unfold contains_string. rewrite existsb_exists. split.
  - intros [y [Hin Heq]]. apply String.eqb_eq in Heq. subst. exact Hin.
  - intros Hin. exists x. split; [exact Hin | apply String.eqb_refl].
Qed.

Lemma contains_string_not_In : forall xs x, ~ In x xs -> contains_string xs x = false.
Proof.
  intros xs x Hn. destruct (contains_string xs x) eqn:E; [|reflexivity].
  apply contains_string_In in E. contradiction.
Qed.

(** [msg] contains [text] (strings.Contains). *)
Definition contains_text (msg text : string) : Prop :=
  exists pre post, msg = pre +s+ text +s+ post.

(** ** Identify: the dialect check *)

(** C7: whatever the query and the strict setting (and the other options),
    a dialect outside [DIALECTS] makes [Identify] return a nil result list
    and the unknown-dialect error. *)
Theorem C7_invalid_dialect_is_an_error :
  forall (query : string) (strict : option bool) (d : Dialect)
         (tables : option bool) (pt : option ParamTypes),
    ~ In d DIALECTS ->
    Identify query (mkIdentifyOptions strict (Some d) tables pt)
    = Ok (None,
          Some "Unknown dialect. Allowed values: [mssql sqlite mysql oracle psql bigquery generic]").
Proof.
  intros query strict d tables pt Hd.
  unfold Identify, identifyBody. cbn [optDialect optStrict].
  rewrite (contains_string_not_In _ _ Hd). reflexivity.
Qed.

(** ** Identify on the literal cases of the specification *)

(** C3: in strict mode "LIST * FROM Persons" is refused: the result list is
    nil and the one error returned carries the text
    [Invalid statement parser "LIST"]. *)
Theorem C3_strict_unknown_statement_fails :
  exists msg : string,
    Identify "LIST * FROM Persons" (mkIdentifyOptions (Some true) None None None)
    = Ok (None, Some msg)
    /\ contains_text msg ("Invalid statement parser " +s+ dquote +s+ "LIST" +s+ dquote).
Proof.
  exists ("Invalid statement parser " +s+ dquote +s+ "LIST" +s+ dquote). split.
  - vm_compute. reflexivity.
  - exists "", "". reflexivity.
Qed.

(** Without strict mode, "LIST * FROM Persons" is one UNKNOWN statement
    over the nineteen characters of the input. *)
Lemma identify_LIST_non_strict :
  Identify "LIST * FROM Persons" (mkIdentifyOptions (Some false) None None None)
  = Ok (Some [mkIdentifyResult 0 18 "LIST * FROM Persons" StatementUnknown
                               ExecutionUnknown [] []],
        None).
Proof. vm_compute. reflexivity. Qed.

(** C4 (amended): without strict mode the same input gives one statement of
    type UNKNOWN and execution type UNKNOWN that spans the whole input,
    offsets 0 to 18. *)
Theorem C4_non_strict_unknown_statement :
  exists r : IdentifyResult,
    Identify "LIST * FROM Persons" (mkIdentifyOptions (Some false) None None None)
    = Ok (Some [r], None)
    /\ rType r = StatementUnknown /\ rExecutionType r = ExecutionUnknown
    /\ rStart r = 0 /\ rEnd r = 18.
Proof.
  eexists. split; [apply identify_LIST_non_strict|]. cbn. repeat split; reflexivity.
Qed.

(** C5: the statement after a CTE header starts at the WITH keyword: one
    SELECT statement with start 0, although the SELECT keyword that opens
    the statement proper is the token at offset 23. *)
Theorem C5_cte_statement_starts_at_with :
  (exists r : IdentifyResult,
      Identify "WITH cte AS (SELECT 1) SELECT * FROM cte;"
               (mkIdentifyOptions None None None None)
      = Ok (Some [r], None)
      /\ rType r = StatementSelect /\ rStart r = 0)
  /\ (exists pr : ParseResult,
         Parse true DialectGeneric false (Some (DefaultParamTypesFor DialectGeneric))
               "WITH cte AS (SELECT 1) SELECT * FROM cte;" = Ok pr
         /\ nth_error (Tokens pr) 0 = Some (mkToken TokenKeyword "WITH" 0 3)
         /\ nth_error (Tokens pr) 12 = Some (mkToken TokenKeyword "SELECT" 23 28)).
Proof.
  split.
  - eexists. split; [vm_compute; reflexivity|]. cbn. split; reflexivity.
  - eexists. split; [vm_compute; reflexivity|]. cbn. split; reflexivity.
Qed.

(** C8: "SELECT * FROM Persons" with dialect generic in strict mode is one
    SELECT statement of execution type LISTING from 0 to 20, with no tables
    and no parameters. *)
Theorem C8_simple_select :
  exists r : IdentifyResult,
    Identify "SELECT * FROM Persons"
             (mkIdentifyOptions (Some true) (Some DialectGeneric) None None)
    = Ok (Some [r], None)
    /\ rType r = StatementSelect /\ rExecutionType r = ExecutionListing
    /\ rStart r = 0 /\ rEnd r = 20 /\ rTables r = [] /\ rParameters r = [].
Proof.
  eexists. split; [vm_compute; reflexivity|]. cbn. repeat split; reflexivity.
Qed.


(** ** Identify: the order of the parameters *)

(** [a <= b] in Go's order on strings. *)
Definition lexle (a b : string) : Prop := string_ltb b a = false.

Lemma bytes_ltb_asym : forall a b, bytes_ltb a b = true -> bytes_ltb b a = false.
Proof.
  induction a as [|x a IH]; intros [|y b] H; simpl in *; try congruence.
  apply orb_true_iff in H. apply orb_false_iff.
  destruct H as [H | H].
  - apply Z.ltb_lt in H. split; [apply Z.ltb_ge; lia|].
    apply andb_false_iff. left. apply Z.eqb_neq. lia.
  - apply andb_true_iff in H. destruct H as [He Hl]. apply Z.eqb_eq in He. subst y.
    split; [apply Z.ltb_irrefl|]. rewrite Z.eqb_refl. simpl. apply IH. exact Hl.
Qed.

Lemma bytes_le_trans : forall a b c,
    bytes_ltb b a = false -> bytes_ltb c b = false -> bytes_ltb c a = false.
Proof.
  induction a as [|x a IH]; intros b c Hab Hbc.
  - destruct c; reflexivity.
  - destruct b as [|y b]; [simpl in Hab; discriminate|].
    destruct c as [|z c]; [simpl in Hbc; discriminate|].
    simpl in *.
    apply orb_false_iff in Hab. destruct Hab as [Hab1 Hab2].
    apply orb_false_iff in Hbc. destruct Hbc as [Hbc1 Hbc2].
    apply Z.ltb_ge in Hab1. apply Z.ltb_ge in Hbc1.
    apply orb_false_iff. split; [apply Z.ltb_ge; lia|].
    destruct (z =? x) eqn:Ezx; [|reflexivity]. simpl.
    apply Z.eqb_eq in Ezx. subst z.
    assert (y = x) by lia. subst y.
    rewrite Z.eqb_refl in Hab2, Hbc2. simpl in Hab2, Hbc2.
    eapply IH; eassumption.
Qed.

Lemma lexle_trans : forall a b c, lexle a b -> lexle b c -> lexle a c.
Proof.
  unfold lexle, string_ltb. intros a b c Hab Hbc.
  eapply bytes_le_trans; eassumption.
Qed.

Lemma insertSorted_perm : forall x xs, Permutation (x :: xs) (insertSorted x xs).
Proof.
  induction xs as [|y rest IH]; simpl; [apply Permutation_refl|].
  destruct (string_ltb y x).
  - eapply perm_trans; [apply perm_swap|]. apply perm_skip. exact IH.
  - apply Permutation_refl.
Qed.

Lemma sortStrings_perm : forall xs, Permutation xs (sortStrings xs).
Proof.
  induction xs as [|x xs IH]; simpl; [apply perm_nil|].
  eapply perm_trans; [apply perm_skip; exact IH|]. apply insertSorted_perm.
Qed.

Lemma insertSorted_sorted :
  forall x xs, StronglySorted lexle xs -> StronglySorted lexle (insertSorted x xs).
Proof.
  induction xs as [|y rest IH]; intros Hs; simpl.
  - constructor; constructor.
  - inversion Hs as [|? ? Hrest Hall]; subst.
    destruct (string_ltb y x) eqn:E.
    + constructor; [apply IH; exact Hrest|].
      eapply Permutation_Forall; [apply insertSorted_perm|].
      constructor; [|exact Hall].
      unfold lexle, string_ltb in *. apply bytes_ltb_asym. exact E.
    + constructor; [exact Hs|].
      constructor; [exact E|].
      eapply Forall_impl; [|exact Hall].
      intros z Hz. eapply lexle_trans; [exact E | exact Hz].
Qed.

Lemma sortStrings_sorted : forall xs, StronglySorted lexle (sortStrings xs).
Proof.
  induction xs as [|x xs IH]; simpl; [constructor|].
  apply insertSorted_sorted. exact IH.
Qed.

(** The options [Identify] works with after defaulting. *)
Definition strictOf (options : IdentifyOptions) : bool :=
  match optStrict options with Some b => b | None => true end.

Definition dialectOf (options : IdentifyOptions) : Dialect :=
  match optDialect options with Some d => d | None => DialectGeneric end.

Definition identifyTablesOf (options : IdentifyOptions) : bool :=
  match optIdentifyTables options with Some b => b | None => false end.

Definition paramTypesOf (options : IdentifyOptions) : ParamTypes :=
  match optParamTypes options with
  | Some pt => pt
  | None => DefaultParamTypesFor (dialectOf options)
  end.

(** The parameters of the results against the parameters the parser
    captured, statement by statement. *)
Definition parameters_as_returned (query : string) (options : IdentifyOptions)
           (results : list IdentifyResult) : Prop :=
  exists pr : ParseResult,
    Parse (strictOf options) (dialectOf options) (identifyTablesOf options)
          (Some (paramTypesOf options)) query = Ok pr
    /\ Forall2
         (fun (r : IdentifyResult) (c : ConcreteStatement) =>
            match optParamTypes options with
            | None =>
              if String.eqb (dialectOf options) DialectPSQL
              then StronglySorted lexle (rParameters r)
                   /\ Permutation (cParameters c) (rParameters r)
              else rParameters r = cParameters c
            | Some _ => rParameters r = cParameters c
            end)
         results (Body pr).

Lemma identifyResults_parameters :
  forall query sortParams body results,
    identifyResults query sortParams body = Ok results ->
    Forall2 (fun r c =>
               rParameters r
               = if sortParams then sortStrings (cParameters c) else cParameters c)
            results body.
Proof.
  intros query sortParams. induction body as [|c body IH]; intros results H; simpl in H.
  - inversion H. constructor.
  - destruct (substr query (cStart c) (Z.min (cEnd c + 1) (len query))) as [text| |];
      simpl in H; try discriminate.
    destruct (identifyResults query sortParams body) as [rest| |]; simpl in H;
      try discriminate.
    inversion H; subst. constructor; [reflexivity|]. apply IH. reflexivity.
Qed.

(** C6: when [Identify] returns results, each result's parameters are the
    captured parameters in ascending order when the dialect is psql and no
    parameter configuration was given, and the captured parameters in their
    capture order in every other case. *)
Theorem C6_parameters_sorted_only_for_default_psql :
  forall (query : string) (options : IdentifyOptions) (results : list IdentifyResult),
    Identify query options = Ok (Some results, None) ->
    parameters_as_returned query options results.
Proof.
  intros query options results H.
  unfold Identify in H.
  destruct (identifyBody query options) as [r| |] eqn:E; try discriminate.
  inversion H; subst r; clear H.
  unfold identifyBody in E.
  fold (strictOf options) in E. fold (dialectOf options) in E.
  fold (identifyTablesOf options) in E. fold (paramTypesOf options) in E.
  destruct (negb (contains_string DIALECTS (dialectOf options))); [discriminate|].
  destruct (Parse (strictOf options) (dialectOf options) (identifyTablesOf options)
                  (Some (paramTypesOf options)) query) as [pr| |] eqn:EP;
    simpl in E; try discriminate.
  destruct (identifyResults query _ (Body pr)) as [rs| |] eqn:ER; simpl in E;
    try discriminate.
  inversion E; subst rs; clear E.
  exists pr. split; [exact EP|].
  apply identifyResults_parameters in ER.
  eapply Forall2_impl; [|exact ER].
  intros r c Hrc. cbv beta in Hrc.
  destruct (optParamTypes options).
  - rewrite andb_false_r in Hrc. exact Hrc.
  - rewrite andb_true_r in Hrc.
    destruct (String.eqb (dialectOf options) DialectPSQL).
    + rewrite Hrc. split; [apply sortStrings_sorted | apply sortStrings_perm].
    + exact Hrc.
Qed.


(** ** The state machine: what each stretch of AddToken leaves alone *)

(** The effect of every step of a parser leaves the end marker and the
    parameters of the statement alone. *)
Definition quietSteps (l : list Step) : Prop :=
  Forall (fun s => forall token st,
              sEndStatement (Add s token st) = sEndStatement st
              /\ sParameters (Add s token st) = sParameters st) l.

(** Case analysis on the test that decides the head of [t]. *)
Ltac split_on t :=
  lazymatch t with
  | if ?c then _ else _ => split_on c
  | match ?x with _ => _ end => split_on x
  | _ => destruct t eqn:?
  end.

Ltac head_step H :=
  lazymatch type of H with
  | ?lhs = _ =>
    lazymatch lhs with
    | if _ then _ else _ => split_on lhs; cbv beta iota in H
    | match _ with _ => _ end => split_on lhs; cbv beta iota in H
    end
  end.

Lemma setPrevToken_statement :
  forall p token, statement (setPrevToken p token) = statement p.
Proof. intros p token. unfold setPrevToken. destruct (negb _); reflexivity. Qed.

Lemma setPrevToken_steps :
  forall p token, steps (setPrevToken p token) = steps p.
Proof. intros p token. unfold setPrevToken. destruct (negb _); reflexivity. Qed.

Lemma setPrevToken_openBlocks :
  forall p token, openBlocks (setPrevToken p token) = openBlocks p.
Proof. intros p token. unfold setPrevToken. destruct (negb _); reflexivity. Qed.

Lemma setPrevToken_options :
  forall p token, options (setPrevToken p token) = options p.
Proof. intros p token. unfold setPrevToken. destruct (negb _); reflexivity. Qed.

(** The parser a [flow] carries. *)
Definition carried (f : flow) : stateMachineParser :=
  match f with Return p => p | Continue p => p end.

Lemma openBlock_statement :
  forall p token nextToken,
    statement (carried (openBlock p token nextToken)) = statement p
    /\ steps (carried (openBlock p token nextToken)) = steps p.
Proof.
  intros p token nextToken. unfold openBlock.
  repeat match goal with
         | |- context [if ?c then _ else _] => destruct c
         | |- context [match sType ?s with _ => _ end] => destruct (sType s)
         end;
    simpl; rewrite ?setPrevToken_statement, ?setPrevToken_steps; split; reflexivity.
Qed.

Lemma captureTables_frame :
  forall p token nextToken,
    sEndStatement (statement (captureTables p token nextToken)) = sEndStatement (statement p)
    /\ sParameters (statement (captureTables p token nextToken)) = sParameters (statement p)
    /\ steps (captureTables p token nextToken) = steps p.
Proof.
  intros p token nextToken. unfold captureTables.
  repeat match goal with
         | |- context [if ?c then _ else _] => destruct c
         end; simpl; repeat split; reflexivity.
Qed.

Lemma captureParameters_frame :
  forall p token,
    sEndStatement (statement (captureParameters p token)) = sEndStatement (statement p)
    /\ steps (captureParameters p token) = steps p
    /\ (tokType token <> TokenParameter ->
        sParameters (statement (captureParameters p token)) = sParameters (statement p)).
Proof.
  intros p token. unfold captureParameters.
  destruct (tokType token); simpl; try (repeat split; reflexivity).
  destruct (_ || _); simpl; repeat split; try reflexivity; intros H; congruence.
Qed.

Lemma skipModifiers_frame :
  forall p token,
    sEndStatement (statement (carried (skipModifiers p token))) = sEndStatement (statement p)
    /\ sParameters (statement (carried (skipModifiers p token))) = sParameters (statement p)
    /\ steps (carried (skipModifiers p token)) = steps p.
Proof.
  intros p token.
  remember (skipModifiers p token) as f eqn:H. symmetry in H.
  unfold skipModifiers in H.
  repeat (head_step H; try (subst f; simpl;
                             rewrite ?setPrevToken_statement, ?setPrevToken_steps;
                             simpl; repeat split; reflexivity)).
Qed.

Lemma stepAt_In : forall p i s, stepAt p i = Ok s -> In s (steps p).
Proof.
  intros p i s H. unfold stepAt in H.
  destruct (_ && _); [|discriminate].
  destruct (nth_error (steps p) (Z.to_nat i)) eqn:E; [|discriminate].
  inversion H; subst. eapply nth_error_In. exact E.
Qed.

Lemma currentStepOf_frame :
  forall p token q s,
    currentStepOf p token = Ok (q, s) ->
    In s (steps p) /\ statement q = statement p /\ steps q = steps p.
Proof.
  intros p token q s H. unfold currentStepOf in H.
  destruct (stepAt p (currentStepIndex p)) as [s0| |] eqn:E0; cbn [rbind] in H;
    try discriminate.
  destruct (PreCanGoToNext s0 token).
  - destruct (stepAt (set_currentStepIndex p (currentStepIndex p + 1)) _) as [s1| |] eqn:E1;
      cbn [rbind] in H; try discriminate.
    inversion H; subst. apply stepAt_In in E1. repeat split; try reflexivity. exact E1.
  - inversion H; subst. apply stepAt_In in E0. repeat split; try reflexivity. exact E0.
Qed.

Lemma applyStep_frame :
  forall p s token,
    quietSteps (steps p) -> In s (steps p) ->
    sEndStatement (statement (applyStep p s token)) = sEndStatement (statement p)
    /\ sParameters (statement (applyStep p s token)) = sParameters (statement p)
    /\ steps (applyStep p s token) = steps p.
Proof.
  intros p s token Hq Hin. unfold quietSteps in Hq. rewrite Forall_forall in Hq.
  destruct (Hq s Hin token (statement p)) as [He Hp].
  unfold applyStep. rewrite setPrevToken_statement, setPrevToken_steps.
  destruct (PostCanGoToNext s token); cbn; rewrite He, Hp; repeat split; reflexivity.
Qed.

Lemma runStep_frame :
  forall p token p',
    quietSteps (steps p) ->
    runStep p token = Ok p' ->
    sEndStatement (statement p') = sEndStatement (statement p)
    /\ sParameters (statement p') = sParameters (statement p)
    /\ steps p' = steps p.
Proof.
  intros p token p' Hq H. unfold runStep in H.
  destruct (currentStepOf p token) as [[q s]| |] eqn:E; cbn [rbind] in H; try discriminate.
  apply currentStepOf_frame in E. destruct E as [Hin [Hst Hsteps]].
  destruct (missingPredecessor q s token); [discriminate|].
  destruct (negb (isValidToken s token) && IsStrict (options q)); [discriminate|].
  inversion H; subst p'; clear H.
  destruct (applyStep_frame q s token) as [H1 [H2 H3]];
    [rewrite Hsteps; exact Hq | rewrite Hsteps; exact Hin |].
  rewrite H1, H2, H3, Hst, Hsteps. repeat split; reflexivity.
Qed.
(** The condition under which [AddToken] takes a semicolon as the end of
    the statement, as the source writes it. *)
Definition endsOnSemicolon (p : stateMachineParser) : bool :=
  let statementTypeEnds :=
      match sType (statement p) with
      | Some t => contains_string statementsWithEnds t
      | None => false
      end in
  negb statementTypeEnds
  || ((openBlocks p =? 0)
      && (typeIs (statement p) StatementUnknown
          || match sCanEnd (statement p) with Some b => b | None => false end)).

(** [AddToken] touches the end marker in its first stretch only. *)
Lemma AddToken_endMarker :
  forall p token nextToken p',
    quietSteps (steps p) ->
    AddToken p token nextToken = Ok p' ->
    sEndStatement (statement p) = None
    /\ steps p' = steps p
    /\ ((TokenType_eqb (tokType token) TokenSemicolon && endsOnSemicolon p = true
         /\ p' = set_statement p (set_sEndStatement (statement p) (Some ";")))
        \/ (TokenType_eqb (tokType token) TokenSemicolon && endsOnSemicolon p = false
            /\ sEndStatement (statement p') = None)).
Proof.
  intros p token nextToken p' Hq H. unfold AddToken in H.
  destruct (sEndStatement (statement p)) eqn:Eend; [discriminate|].
  split; [reflexivity|].
  fold (endsOnSemicolon p) in H.
  destruct (TokenType_eqb (tokType token) TokenSemicolon && endsOnSemicolon p) eqn:Esemi.
  { inversion H; subst. split; [reflexivity|]. left. split; reflexivity. }
  enough (Hgoal : steps p' = steps p /\ sEndStatement (statement p') = None).
  { destruct Hgoal. split; [assumption|]. right. split; [reflexivity|assumption]. }
  destruct ((openBlocks p >? 0) && String.eqb (ToUpper (tokValue token)) "END").
  { inversion H; subst. rewrite setPrevToken_statement, setPrevToken_steps.
    match goal with |- context [if ?c then _ else _] => destruct c end; simpl;
      (split; [reflexivity | exact Eend]). }
  destruct (TokenType_eqb (tokType token) TokenWhitespace).
  { inversion H; subst. rewrite setPrevToken_statement, setPrevToken_steps.
    split; [reflexivity | exact Eend]. }
  destruct (openBlock_statement p token nextToken) as [Hob Hobs].
  destruct (openBlock p token nextToken) as [q|q]; simpl in Hob, Hobs.
  { inversion H; subst. rewrite Hob. split; assumption. }
  destruct (captureTables_frame q token nextToken) as [Ht1 [_ Ht2]].
  destruct (captureParameters_frame (captureTables q token nextToken) token) as [Hp1 [Hp2 _]].
  set (q2 := captureParameters (captureTables q token nextToken) token) in *.
  assert (Hq2 : sEndStatement (statement q2) = None) by congruence.
  assert (Hs2 : steps q2 = steps p) by congruence.
  destruct (match sType (statement q2) with Some _ => true | None => false end
            && (sStart (statement q2) >=? 0)).
  { inversion H; subst. rewrite setPrevToken_statement, setPrevToken_steps.
    split; assumption. }
  destruct (skipModifiers_frame q2 token) as [Hm1 [_ Hm2]].
  destruct (skipModifiers q2 token) as [q3|q3]; simpl in Hm1, Hm2.
  { inversion H; subst. split; congruence. }
  apply runStep_frame in H; [|rewrite Hm2, Hs2; exact Hq].
  destruct H as [H1 [_ H3]]. split; congruence.
Qed.


(** ** The state machine: semicolons *)

(** The statement types for which a semicolon is not enough, as the
    specification lists them. *)
Definition waitsForBlocks (t : StatementType) : bool :=
  String.eqb t "CREATE_TRIGGER" || String.eqb t "CREATE_FUNCTION"
  || String.eqb t "CREATE_PROCEDURE" || String.eqb t "ANON_BLOCK"
  || String.eqb t "UNKNOWN".

(** When a semicolon ends the statement, in the words of the specification:
    always, unless the type is one of the five; for those, when no block is
    open and the type is UNKNOWN or the blocks have all closed. *)
Definition semicolonTerminates (p : stateMachineParser) : bool :=
  match sType (statement p) with
  | Some t =>
    if waitsForBlocks t
    then (openBlocks p =? 0)
         && (String.eqb t "UNKNOWN"
             || match sCanEnd (statement p) with Some b => b | None => false end)
    else true
  | None => true
  end.

Lemma endsOnSemicolon_spec : forall p, endsOnSemicolon p = semicolonTerminates p.
Proof.
  intros p. unfold endsOnSemicolon, semicolonTerminates, typeIs.
  destruct (sType (statement p)) as [t|]; [|reflexivity].
  assert (Hw : contains_string statementsWithEnds t = waitsForBlocks t).
  { unfold contains_string, statementsWithEnds, waitsForBlocks. cbn [existsb].
    unfold StatementCreateTrigger, StatementCreateFunction, StatementCreateProcedure,
      StatementAnonBlock, StatementUnknown.
    rewrite orb_false_r, !orb_assoc. reflexivity. }
  rewrite Hw. unfold StatementUnknown. destruct (waitsForBlocks t); reflexivity.
Qed.



(** Every parser that [createStatementParserByToken] builds has quiet steps. *)
Lemma setStartIfUnset_quiet :
  forall token st,
    sEndStatement (setStartIfUnset token st) = sEndStatement st
    /\ sParameters (setStartIfUnset token st) = sParameters st.
Proof.
  intros token st. unfold setStartIfUnset. destruct (sStart st <? 0); split; reflexivity.
Qed.

Lemma createStatementParserByToken_quiet :
  forall token nextToken options p,
    createStatementParserByToken token nextToken options = Ok p ->
    quietSteps (steps p)
    /\ sEndStatement (statement p) = None
    /\ sParameters (statement p) = [].
Proof.
  intros token nextToken options p H.
  unfold createStatementParserByToken in H.
  repeat (head_step H; try discriminate);
    inversion H; subst p; clear H;
    (split; [|split; reflexivity]);
    unfold quietSteps; cbn [steps createSelectStatementParser createCreateStatementParser
      createShowStatementParser createDropStatementParser createAlterStatementParser
      createInsertStatementParser createUpdateStatementParser createDeleteStatementParser
      createTruncateStatementParser createBlockStatementParser createUnknownStatementParser
      stateMachineStatementParser];
    repeat constructor; cbn [Add singleStep verbStep objectStep];
    try apply setStartIfUnset_quiet;
    match goal with
    | |- context [setStartIfUnset ?t ?s] =>
      destruct (setStartIfUnset_quiet t s) as [He Hp]; first [exact He | exact Hp]
    end.
Qed.


(** ** A small program logic for the scanner monad *)

(** A predicate on cursors that the two moves of the cursor maintain. *)
Definition closed (Q : State -> Prop) : Prop :=
  (forall st skip ch st', -1 <= skip -> Q st -> read skip st = Ok (ch, st') -> Q st')
  /\ (forall st st', Q st -> unread st = Ok (tt, st') -> Q st').

(** [m] maintains [Q]. *)
Definition keeps {A : Type} (Q : State -> Prop) (m : M A) : Prop :=
  forall st a st', Q st -> m st = Ok (a, st') -> Q st'.

(** [m] returns or panics: it never exhausts its fuel. *)
Definition total {A : Type} (m : M A) : Prop :=
  forall st, m st <> OutOfFuel.

(** [m] leaves the cursor where it is. *)
Definition pure {A : Type} (m : M A) : Prop :=
  forall st a st', m st = Ok (a, st') -> st' = st.

Lemma pure_keeps : forall A Q (m : M A), pure m -> keeps Q m.
Proof. intros A Q m Hp st a st' HQ H. apply Hp in H. subst. exact HQ. Qed.

Lemma pure_ret : forall A (a : A), pure (ret a).
Proof. intros A a st b st' H. inversion H. reflexivity. Qed.

Lemma pure_get : pure get.
Proof. intros st a st' H. inversion H. reflexivity. Qed.

Lemma pure_lift : forall A (r : result A), pure (lift r).
Proof. intros A r st a st' H. unfold lift in H. destruct r; inversion H. reflexivity. Qed.

Lemma pure_peek : pure peek.
Proof.
  intros st a st' H. unfold peek in H.
  destruct (stPosition st >=? llen (stInput st) - 1); [inversion H; reflexivity|].
  destruct (index _ _); inversion H. reflexivity.
Qed.

Lemma pure_peekBack : pure peekBack.
Proof.
  intros st a st' H. unfold peekBack in H.
  destruct (stPosition st =? 0); [inversion H; reflexivity|].
  destruct (index _ _); inversion H. reflexivity.
Qed.

Lemma pure_tokenText : pure tokenText.
Proof.
  intros st a st' H. unfold tokenText in H.
  destruct (slice _ _ _); inversion H. reflexivity.
Qed.

Lemma pure_remainingInput : pure remainingInput.
Proof.
  intros st a st' H. unfold remainingInput in H.
  destruct (slice _ _ _); inversion H. reflexivity.
Qed.

Lemma pure_bind :
  forall A B (m : M A) (k : A -> M B),
    pure m -> (forall a, pure (k a)) -> pure (bind m k).
Proof.
  intros A B m k Hm Hk st b st' H. unfold bind in H.
  destruct (m st) as [[a st1]| |] eqn:E; try discriminate.
  apply Hm in E. subst st1. eapply Hk. exact H.
Qed.

Lemma pure_tokenOf : forall ty value, pure (tokenOf ty value).
Proof.
  intros ty value. unfold tokenOf. apply pure_bind; [apply pure_get|].
  intros st. apply pure_ret.
Qed.

Lemma keeps_bind :
  forall A B Q (m : M A) (k : A -> M B),
    keeps Q m -> (forall a, keeps Q (k a)) -> keeps Q (bind m k).
Proof.
  intros A B Q m k Hm Hk st b st' HQ H. unfold bind in H.
  destruct (m st) as [[a st1]| |] eqn:E; try discriminate.
  eapply Hk; [|exact H]. eapply Hm; eassumption.
Qed.

Lemma keeps_read : forall Q skip, closed Q -> -1 <= skip -> keeps Q (read skip).
Proof. intros Q skip [Hr _] Hs st a st' HQ H. eapply Hr; eassumption. Qed.

Lemma keeps_unread : forall Q, closed Q -> keeps Q unread.
Proof. intros Q [_ Hu] st [] st' HQ H. eapply Hu; eassumption. Qed.

Lemma keeps_iterate :
  forall X A Q (body : X -> M (X + A)),
    (forall x, keeps Q (body x)) ->
    forall fuel x, keeps Q (iterate fuel body x).
Proof.
  intros X A Q body Hb. induction fuel as [|n IH]; intros x st a st' HQ H; simpl in H.
  - discriminate.
  - destruct (body x st) as [[[x'|r] st1]| |] eqn:E; try discriminate.
    + eapply IH; [|exact H]. eapply Hb; eassumption.
    + inversion H; subst. eapply Hb; eassumption.
Qed.

Lemma keeps_loop :
  forall X A Q (body : X -> M (X + A)) x,
    (forall x, keeps Q (body x)) -> keeps Q (loop body x).
Proof.
  intros X A Q body x Hb st a st' HQ H. unfold loop in H.
  eapply keeps_iterate; eassumption.
Qed.

Lemma keeps_times :
  forall Q (body : M unit) n, keeps Q body -> keeps Q (times n body).
Proof.
  intros Q body n Hb. induction n as [|n IH]; simpl.
  - apply pure_keeps, pure_ret.
  - apply keeps_bind; [exact Hb | intros _; exact IH].
Qed.

Lemma len_nonempty : forall s, String.eqb s "" = false -> -1 <= len s - 2.
Proof.
  intros [|c s] H; [discriminate|]. unfold len. simpl String.length. lia.
Qed.

(** Decompose a goal [keeps Q m] along the structure of [m]. *)
Ltac keeps_step :=
  lazymatch goal with
  | |- keeps _ (bind _ _) => apply keeps_bind; [|intros ?]
  | |- keeps _ (ret _) => apply pure_keeps, pure_ret
  | |- keeps _ get => apply pure_keeps, pure_get
  | |- keeps _ (lift _) => apply pure_keeps, pure_lift
  | |- keeps _ peek => apply pure_keeps, pure_peek
  | |- keeps _ peekBack => apply pure_keeps, pure_peekBack
  | |- keeps _ tokenText => apply pure_keeps, pure_tokenText
  | |- keeps _ remainingInput => apply pure_keeps, pure_remainingInput
  | |- keeps _ (tokenOf _ _) => apply pure_keeps, pure_tokenOf
  | |- keeps _ (read 0) => apply keeps_read; [assumption | lia]
  | |- keeps _ (read (len ?s - 2)) =>
    apply keeps_read; [assumption | apply len_nonempty; assumption]
  | |- keeps _ unread => apply keeps_unread; assumption
  | |- keeps _ (loop _ _) => apply keeps_loop; intros ?
  | |- keeps _ (times _ _) => apply keeps_times
  | |- keeps _ (if negb (String.eqb ?c "") then _ else _) =>
    destruct (String.eqb c "") eqn:?; cbn [negb]
  | |- keeps _ (if ?c then _ else _) => destruct c
  | |- keeps _ (match ?x with _ => _ end) => destruct x
  end.

Ltac keeps_auto := repeat keeps_step.

Section Keeps.

Variable Q : State -> Prop.
Hypothesis HQ : closed Q.

Lemma keeps_scanWhitespace : keeps Q scanWhitespace.
Proof. unfold scanWhitespace. keeps_auto. Qed.

Lemma keeps_scanCommentInline : keeps Q scanCommentInline.
Proof. unfold scanCommentInline. keeps_auto. Qed.

Lemma keeps_scanCommentBlock : keeps Q scanCommentBlock.
Proof. unfold scanCommentBlock. keeps_auto. Qed.

Lemma keeps_scanString : forall e, keeps Q (scanString e).
Proof. intros e. unfold scanString. keeps_auto. Qed.

Lemma keeps_scanQuotedIdentifier : forall e, keeps Q (scanQuotedIdentifier e).
Proof. intros e. unfold scanQuotedIdentifier. keeps_auto. Qed.

Lemma keeps_scanWord : keeps Q scanWord.
Proof. unfold scanWord, skipWord. keeps_auto. Qed.

Lemma keeps_scanDollarQuotedString : keeps Q scanDollarQuotedString.
Proof. unfold scanDollarQuotedString. keeps_auto. Qed.

Lemma keeps_getCustomParam : forall pt, keeps Q (getCustomParam pt).
Proof. intros pt. unfold getCustomParam. keeps_auto. Qed.

Lemma keeps_scanParameter : forall d pt, keeps Q (scanParameter d pt).
Proof.
  intros d pt. unfold scanParameter.
  keeps_auto; try apply keeps_getCustomParam; keeps_auto.
Qed.

Lemma keeps_scanAt : forall d pt ch, keeps Q (scanAt d pt ch).
Proof.
  intros d pt ch. unfold scanAt, isCommentInline, isCommentBlock, isParameter,
                    isCustomParam, isDollarQuotedString, derefParamTypes,
                    scanIndividualCharacter, skipChar.
  keeps_auto;
    first [ apply keeps_scanWhitespace | apply keeps_scanCommentInline
          | apply keeps_scanCommentBlock | apply keeps_scanString
          | apply keeps_scanParameter | apply keeps_scanDollarQuotedString
          | apply keeps_scanQuotedIdentifier | apply keeps_scanWord | idtac ].
Qed.

End Keeps.


(** ** Termination of the scanners *)

Lemma slice_safe : forall A (xs : list A) lo hi, slice xs lo hi <> OutOfFuel.
Proof. intros A xs lo hi. unfold slice. destruct (_ && _); discriminate. Qed.

Lemma index_safe : forall xs i, index xs i <> OutOfFuel.
Proof. intros xs i. unfold index. destruct (_ && _); discriminate. Qed.

Lemma total_ret : forall A (a : A), total (ret a).
Proof. intros A a st. discriminate. Qed.

Lemma total_get : total get.
Proof. intros st. discriminate. Qed.

Lemma total_lift : forall A (r : result A), r <> OutOfFuel -> total (lift r).
Proof. intros A r Hr st. unfold lift. destruct r; try discriminate. contradiction. Qed.

Lemma total_bind :
  forall A B (m : M A) (k : A -> M B),
    total m -> (forall a, total (k a)) -> total (bind m k).
Proof.
  intros A B m k Hm Hk st. unfold bind.
  destruct (m st) as [[a st1]| |] eqn:E; try discriminate.
  - apply Hk.
  - exfalso. eapply Hm. exact E.
Qed.

Lemma total_read : forall skip, total (read skip).
Proof.
  intros skip st. unfold read. destruct (_ >=? _); [discriminate|].
  destruct (index _ _) eqn:E; try discriminate. exfalso. eapply index_safe. exact E.
Qed.

Lemma total_unread : total unread.
Proof. intros st. unfold unread. destruct (_ <=? _); discriminate. Qed.

Lemma total_peek : total peek.
Proof.
  intros st. unfold peek. destruct (_ >=? _); [discriminate|].
  destruct (index _ _) eqn:E; try discriminate. exfalso. eapply index_safe. exact E.
Qed.

Lemma total_peekBack : total peekBack.
Proof.
  intros st. unfold peekBack. destruct (_ =? _); [discriminate|].
  destruct (index _ _) eqn:E; try discriminate. exfalso. eapply index_safe. exact E.
Qed.

Lemma total_tokenText : total tokenText.
Proof.
  intros st. unfold tokenText.
  destruct (slice _ _ _) eqn:E; try discriminate. exfalso. eapply slice_safe. exact E.
Qed.

Lemma total_remainingInput : total remainingInput.
Proof.
  intros st. unfold remainingInput.
  destruct (slice _ _ _) eqn:E; try discriminate. exfalso. eapply slice_safe. exact E.
Qed.

Lemma total_tokenOf : forall ty value, total (tokenOf ty value).
Proof.
  intros ty value. unfold tokenOf. apply total_bind; [apply total_get|].
  intros st. apply total_ret.
Qed.

Lemma total_times : forall (body : M unit) n, total body -> total (times n body).
Proof.
  intros body n Hb. induction n as [|n IH]; simpl.
  - apply total_ret.
  - apply total_bind; [exact Hb | intros _; exact IH].
Qed.

(** A loop body that continues only after the cursor has moved on. *)
Definition advances {X A : Type} (body : X -> M (X + A)) : Prop :=
  forall x st x' st',
    body x st = Ok (inl x', st') -> (remaining st' < remaining st)%nat.

Lemma total_iterate :
  forall X A (body : X -> M (X + A)),
    (forall x, total (body x)) -> advances body ->
    forall fuel x st, (remaining st < fuel)%nat -> iterate fuel body x st <> OutOfFuel.
Proof.
  intros X A body Ht Ha. induction fuel as [|n IH]; intros x st Hf; [lia|].
  simpl. destruct (body x st) as [[[x'|r] st1]| |] eqn:E; try discriminate.
  - apply IH. apply Ha in E. lia.
  - exfalso. eapply Ht. exact E.
Qed.

Lemma total_loop :
  forall X A (body : X -> M (X + A)) x,
    (forall x, total (body x)) -> advances body -> total (loop body x).
Proof.
  intros X A body x Ht Ha st. unfold loop. apply total_iterate; auto.
Qed.

Lemma read0_spec :
  forall st ch st',
    read 0 st = Ok (ch, st') ->
    (st' = st /\ ch = eof /\ llen (stInput st) - 1 <= stPosition st)
    \/ (stPosition st < llen (stInput st) - 1
        /\ st' = set_Position st (stPosition st + 1)).
Proof.
  intros st ch st' H. unfold read in H.
  destruct (stPosition st + 0 >=? llen (stInput st) - 1) eqn:E.
  - inversion H; subst. left. repeat split; try reflexivity. lia.
  - right. destruct (index _ _); cbn [rbind] in H; try discriminate.
    inversion H; subst. split; [lia | f_equal; lia].
Qed.

Lemma remaining_advance :
  forall st,
    stPosition st < llen (stInput st) - 1 ->
    (remaining (set_Position st (stPosition st + 1)) < remaining st)%nat.
Proof. intros st H. unfold remaining. cbn [stInput stPosition set_Position]. lia. Qed.

Lemma remaining_read0 :
  forall st ch st', read 0 st = Ok (ch, st') -> (remaining st' <= remaining st)%nat.
Proof.
  intros st ch st' H. apply read0_spec in H. destruct H as [[-> _] | [Hlt ->]].
  - lia.
  - apply Nat.lt_le_incl, remaining_advance. exact Hlt.
Qed.

Lemma peek_spec :
  forall st p st',
    peek st = Ok (p, st') ->
    st' = st /\ (p = eof \/ stPosition st < llen (stInput st) - 1).
Proof.
  intros st p st' H. unfold peek in H.
  destruct (stPosition st >=? llen (stInput st) - 1) eqn:E.
  - inversion H. split; [reflexivity | left; reflexivity].
  - destruct (index _ _); cbn [rbind] in H; try discriminate.
    inversion H; subst. split; [reflexivity | right; lia].
Qed.

(** The bodies that read one character and continue unless the character
    tells them to stop; they always stop at the end of the input. *)
Lemma advances_read :
  forall X A (f : X -> rune -> X + A),
    (forall x x', f x eof <> inl x') ->
    advances (fun x => ch <- read 0 ;; ret (f x ch)).
Proof.
  intros X A f Hf x st x' st' H. unfold bind, ret in H.
  destruct (read 0 st) as [[ch st1]| |] eqn:E; try discriminate.
  inversion H; subst st1. apply read0_spec in E.
  destruct E as [[-> [-> _]] | [Hlt ->]].
  - exfalso. eapply Hf. eassumption.
  - apply remaining_advance. exact Hlt.
Qed.


Lemma remaining_times_read :
  forall n st u st',
    times n (read 0 ;;; ret tt) st = Ok (u, st') -> (remaining st' <= remaining st)%nat.
Proof.
  induction n as [|n IH]; intros st u st' H; simpl in H.
  - inversion H. lia.
  - unfold bind at 1 in H.
    destruct ((read 0 ;;; ret tt) st) as [[u1 st1]| |] eqn:E; try discriminate.
    unfold bind, ret in E. destruct (read 0 st) as [[ch st2]| |] eqn:E2; try discriminate.
    inversion E; subst. apply remaining_read0 in E2. apply IH in H. lia.
Qed.

(** Decompose a goal [total m] along the structure of [m]; loops leave
    their [advances] obligation. *)
Ltac total_step :=
  lazymatch goal with
  | |- total (bind _ _) => apply total_bind; [|intros ?]
  | |- total (ret _) => apply total_ret
  | |- total get => apply total_get
  | |- total (lift (slice _ _ _)) => apply total_lift, slice_safe
  | |- total (lift (index _ _)) => apply total_lift, index_safe
  | |- total (lift (Panic _)) => apply total_lift; discriminate
  | |- total peek => apply total_peek
  | |- total peekBack => apply total_peekBack
  | |- total tokenText => apply total_tokenText
  | |- total remainingInput => apply total_remainingInput
  | |- total (tokenOf _ _) => apply total_tokenOf
  | |- total (read _) => apply total_read
  | |- total unread => apply total_unread
  | |- total (times _ _) => apply total_times
  | |- total (loop _ _) => apply total_loop; [intros ?|]
  | |- total (if ?c then _ else _) => destruct c
  | |- total (match ?x with _ => _ end) => destruct x
  end.

Ltac total_auto := repeat total_step.

(** Run one monadic step of a hypothesis [H : m st = Ok _]. *)
Ltac run_bind H :=
  unfold bind at 1 in H;
  lazymatch type of H with
  | match ?m ?st with _ => _ end = _ =>
    let E := fresh "E" in
    destruct (m st) as [[? ?]| |] eqn:E; [|discriminate H|discriminate H]
  end.

Lemma advances_whitespace :
  advances (fun _ : unit =>
              ch <- read 0 ;; ret (if negb (isWhitespace ch) then inr ch else inl tt)).
Proof.
  apply (advances_read (fun (_ : unit) ch => if negb (isWhitespace ch) then inr ch else inl tt)).
  intros x x'. cbn. discriminate.
Qed.

Lemma advances_commentInline :
  advances (fun _ : unit =>
              nextChar <- read 0 ;;
              ret (if (nextChar =? 10) || (nextChar =? eof) then inr tt else inl tt)).
Proof.
  apply (advances_read (fun (_ : unit) nextChar =>
                          if (nextChar =? 10) || (nextChar =? eof) then inr tt else inl tt)).
  intros x x'. cbn. discriminate.
Qed.

Lemma advances_untilEof :
  advances (fun _ : unit =>
              ch <- read 0 ;; ret (if negb (ch =? eof) then inl tt else inr tt)).
Proof.
  apply (advances_read (fun (_ : unit) ch => if negb (ch =? eof) then inl tt else inr tt)).
  intros x x'. cbn. discriminate.
Qed.

Lemma advances_commentBlock :
  advances (fun prevChar : rune =>
              nextChar <- read 0 ;;
              ret (if (negb (prevChar =? eof) && negb (nextChar =? eof)
                         && String.eqb (string_of_runes [prevChar; nextChar]) "*/")
                      || (nextChar =? eof)
                   then inr tt else inl nextChar)).
Proof.
  apply (advances_read (fun (prevChar : rune) nextChar =>
                          if (negb (prevChar =? eof) && negb (nextChar =? eof)
                                && String.eqb (string_of_runes [prevChar; nextChar]) "*/")
                             || (nextChar =? eof)
                          then inr tt else inl nextChar)).
  intros x x'. rewrite Z.eqb_refl, orb_true_r. discriminate.
Qed.

Lemma advances_quotedIdentifier :
  forall endToken,
    advances (fun _ : unit =>
                nextChar <- read 0 ;;
                ret (if (nextChar =? endToken) || (nextChar =? eof)
                     then inr nextChar else inl tt)).
Proof.
  intros endToken.
  apply (advances_read (fun (_ : unit) nextChar =>
                          if (nextChar =? endToken) || (nextChar =? eof)
                          then inr nextChar else inl tt)).
  intros x x'. rewrite Z.eqb_refl, orb_true_r. discriminate.
Qed.

Lemma advances_word :
  advances (fun _ : unit =>
              nextChar <- read 0 ;;
              ret (if negb (isLetter nextChar) then inr nextChar else inl tt)).
Proof.
  apply (advances_read (fun (_ : unit) nextChar =>
                          if negb (isLetter nextChar) then inr nextChar else inl tt)).
  intros x x'. cbn. discriminate.
Qed.

Lemma advances_string :
  forall endToken,
    advances (fun _ : unit =>
                nextChar <- read 0 ;;
                if nextChar =? endToken then
                  p <- peek ;;
                  if p =? endToken then
                    read 0 ;;;
                    ret (if nextChar =? eof then inr nextChar else inl tt)
                  else ret (inr nextChar)
                else ret (if nextChar =? eof then inr nextChar else inl tt)).
Proof.
  intros endToken x st x' st' H.
  run_bind H. apply read0_spec in E.
  destruct (r =? eof) eqn:Eeof.
  - (* the loop breaks at the end of the input *)
    exfalso. destruct (r =? endToken).
    + run_bind H. destruct (r0 =? endToken).
      * run_bind H. inversion H.
      * inversion H.
    + inversion H.
  - assert (Hr : r <> eof) by (apply Z.eqb_neq; exact Eeof).
    destruct E as [[_ [-> _]] | [Hlt ->]]; [contradiction|].
    pose proof (remaining_advance st Hlt) as Hadv.
    destruct (r =? endToken).
    + run_bind H. apply peek_spec in E. destruct E as [-> _].
      destruct (r0 =? endToken).
      * run_bind H. apply remaining_read0 in E. inversion H; subst. lia.
      * inversion H.
    + inversion H; subst. exact Hadv.
Qed.

Lemma advances_named :
  advances (fun _ : unit =>
              p <- peek ;;
              if isAlphaNumeric p then read 0 ;;; ret (inl tt) else ret (inr tt)).
Proof.
  intros x st x' st' H.
  run_bind H. apply peek_spec in E. destruct E as [-> Hp].
  destruct (isAlphaNumeric r) eqn:Ea; [|inversion H].
  destruct Hp as [-> | Hlt]; [discriminate Ea|].
  run_bind H. apply read0_spec in E. destruct E as [[_ [_ Hge]] | [_ ->]]; [lia|].
  inversion H; subst. apply remaining_advance. exact Hlt.
Qed.


Lemma advances_quoted :
  forall endQuote,
    advances (fun _ : unit =>
                p <- peek ;;
                if (isAlphaNumeric p || (p =? 32)) && negb (p =? endQuote)
                then read 0 ;;; ret (inl tt) else ret (inr tt)).
Proof.
  intros endQuote x st x' st' H.
  run_bind H. apply peek_spec in E. destruct E as [-> Hp].
  destruct ((isAlphaNumeric r || (r =? 32)) && negb (r =? endQuote)) eqn:Ea;
    [|inversion H].
  destruct Hp as [-> | Hlt]; [discriminate Ea|].
  run_bind H. apply read0_spec in E. destruct E as [[_ [_ Hge]] | [_ ->]]; [lia|].
  inversion H; subst. apply remaining_advance. exact Hlt.
Qed.

Lemma total_untilEof :
  total (loop (fun _ : unit =>
                 ch <- read 0 ;; ret (if negb (ch =? eof) then inl tt else inr tt)) tt).
Proof. total_auto. apply advances_untilEof. Qed.

Lemma advances_dollarQuoted :
  forall (label : string) (labelRunes : list rune),
    advances (fun _ : unit =>
            st <- get ;;
            if stPosition st + 1 + llen labelRunes >? llen (stInput st) then
              loop (fun _ : unit =>
                      ch <- read 0 ;;
                      ret (if negb (ch =? eof) then inl tt else inr tt)) tt ;;;
              ret (inr tt)
            else
              peekedSlice <- lift (slice (stInput st) (stPosition st + 1)
                                         (stPosition st + 1 + llen labelRunes)) ;;
              if String.eqb (string_of_runes peekedSlice) label then
                times (Z.to_nat (llen labelRunes)) (read 0 ;;; ret tt) ;;;
                ret (inr tt)
              else
                ch <- read 0 ;;
                ret (if ch =? eof then inr tt else inl tt)).
Proof.
  intros label labelRunes x st x' st' H.
  run_bind H. inversion E; subst; clear E.
  destruct (_ >? _).
  - run_bind H. inversion H.
  - run_bind H. apply pure_lift in E. subst.
    destruct (String.eqb _ _).
    + run_bind H. inversion H.
    + run_bind H. apply read0_spec in E.
      destruct (r =? eof) eqn:Er; [inversion H|].
      destruct E as [[_ [-> _]] | [Hlt ->]]; [discriminate Er|].
      inversion H; subst. apply remaining_advance. exact Hlt.
Qed.

Lemma getCustomParam_loop_safe :
  forall text patterns, getCustomParam_loop text patterns <> OutOfFuel.
Proof.
  intros text. induction patterns as [|r rest IH]; simpl; [discriminate|].
  unfold MustCompile. destruct (reCompiles _); cbn [rbind]; [|discriminate].
  destruct (negb _); [discriminate | exact IH].
Qed.

Lemma isCustomParam_loop_safe :
  forall text patterns, isCustomParam_loop text patterns <> OutOfFuel.
Proof.
  intros text. induction patterns as [|r rest IH]; simpl; [discriminate|].
  unfold MustCompile. destruct (reCompiles _); cbn [rbind]; [|discriminate].
  destruct (reFind _ _); [discriminate | exact IH].
Qed.

Lemma total_scanWhitespace : total scanWhitespace.
Proof. unfold scanWhitespace. total_auto. apply advances_whitespace. Qed.

Lemma total_scanCommentInline : total scanCommentInline.
Proof. unfold scanCommentInline. total_auto. apply advances_commentInline. Qed.

Lemma total_scanCommentBlock : total scanCommentBlock.
Proof. unfold scanCommentBlock. total_auto. apply advances_commentBlock. Qed.

Lemma total_scanString : forall e, total (scanString e).
Proof. intros e. unfold scanString. total_auto. apply advances_string. Qed.

Lemma total_scanQuotedIdentifier : forall e, total (scanQuotedIdentifier e).
Proof. intros e. unfold scanQuotedIdentifier. total_auto. apply advances_quotedIdentifier. Qed.

Lemma total_scanWord : total scanWord.
Proof. unfold scanWord, skipWord. total_auto; apply advances_word. Qed.

Lemma total_scanDollarQuotedString : total scanDollarQuotedString.
Proof.
  unfold scanDollarQuotedString. total_auto;
    first [apply advances_untilEof | apply advances_dollarQuoted].
Qed.

Lemma total_getCustomParam : forall pt, total (getCustomParam pt).
Proof.
  intros pt. unfold getCustomParam. total_auto.
  apply total_lift, getCustomParam_loop_safe.
Qed.

Lemma total_scanParameter : forall d pt, total (scanParameter d pt).
Proof.
  intros d pt. unfold scanParameter.
  total_auto;
    first [apply advances_named | apply advances_quoted | apply total_getCustomParam].
Qed.

Lemma total_scanAt : forall d pt ch, total (scanAt d pt ch).
Proof.
  intros d pt ch. unfold scanAt, isCommentInline, isCommentBlock, isParameter,
                    isCustomParam, isDollarQuotedString, derefParamTypes,
                    scanIndividualCharacter, skipChar.
  total_auto;
    first [ apply total_scanWhitespace | apply total_scanCommentInline
          | apply total_scanCommentBlock | apply total_scanString
          | apply total_scanParameter | apply total_scanDollarQuotedString
          | apply total_scanQuotedIdentifier | apply total_scanWord
          | apply total_lift, isCustomParam_loop_safe ].
Qed.

(** [ScanToken] returns (or panics) on every cursor, dialect and parameter
    configuration. *)
Lemma total_ScanToken : forall d pt, total (ScanToken d pt).
Proof.
  intros d pt. unfold ScanToken. apply total_bind; [apply total_read|].
  intros ch. apply total_scanAt.
Qed.


(** ** What a scan leaves fixed, and where it leaves the cursor *)

(** The input and the bounds of the cursor are never written. *)
Definition sameInput (st0 st : State) : Prop :=
  stInput st = stInput st0 /\ stStart st = stStart st0 /\ stEnd st = stEnd st0.

Lemma closed_sameInput : forall st0, closed (sameInput st0).
Proof.
  intros st0. split.
  - intros st skip ch st' _ [HI [HS HE]] H. unfold read in H.
    destruct (_ >=? _); [inversion H; subst; repeat split; assumption|].
    destruct (index _ _); cbn [rbind] in H; try discriminate.
    inversion H; subst. repeat split; assumption.
  - intros st st' [HI [HS HE]] H. unfold unread in H.
    destruct (_ <=? _); inversion H; subst; repeat split; assumption.
Qed.

(** The cursor is on a character of the token being scanned. *)
Definition onToken (st : State) : Prop :=
  stStart st <= stPosition st <= llen (stInput st) - 1.

Lemma closed_onToken : closed onToken.
Proof.
  split.
  - intros st skip ch st' Hs [Hlo Hhi] H. unfold read in H.
    destruct (stPosition st + skip >=? llen (stInput st) - 1) eqn:E;
      [inversion H; subst; split; assumption|].
    destruct (index _ _); cbn [rbind] in H; try discriminate.
    inversion H; subst. unfold onToken. cbn [stStart stPosition stInput set_Position]. lia.
  - intros st st' [Hlo Hhi] H. unfold unread in H.
    destruct (stPosition st <=? stStart st) eqn:E; inversion H; subst.
    + split; assumption.
    + unfold onToken. cbn [stStart stPosition stInput set_Position]. lia.
Qed.

(** Postconditions on the result and the final cursor. *)
Definition ensures {A : Type} (m : M A) (P : A -> State -> Prop) : Prop :=
  forall st a st', m st = Ok (a, st') -> P a st'.

Lemma ensures_bind :
  forall A B (m : M A) (k : A -> M B) P,
    (forall a, ensures (k a) P) -> ensures (bind m k) P.
Proof.
  intros A B m k P Hk st b st' H. unfold bind in H.
  destruct (m st) as [[a st1]| |]; try discriminate. eapply Hk. exact H.
Qed.

Lemma ensures_tokenOf :
  forall ty value (P : Token -> State -> Prop),
    (forall st, P (mkToken ty value (stStart st) (stStart st + len value - 1)) st) ->
    ensures (tokenOf ty value) P.
Proof. intros ty value P HP st tok st' H. inversion H; subst. apply HP. Qed.

Lemma ensures_skipChar :
  forall (P : Token -> State -> Prop),
    (forall value st, P (mkToken TokenUnknown value (stStart st) (stStart st)) st) ->
    ensures skipChar P.
Proof.
  intros P HP st tok st' H. unfold skipChar in H.
  run_bind H. apply pure_tokenText in E. subst. inversion H; subst. apply HP.
Qed.

Ltac ensures_step :=
  lazymatch goal with
  | |- ensures (bind _ _) _ => apply ensures_bind; intros ?
  | |- ensures (tokenOf _ _) _ => apply ensures_tokenOf; intros ?
  | |- ensures skipChar _ => apply ensures_skipChar; intros ? ?
  | |- ensures (skipWord _) _ => unfold skipWord
  | |- ensures (lift (Panic _)) _ => intros ? ? ? ?; discriminate
  | |- ensures (if ?c then _ else _) _ => destruct c eqn:?
  | |- ensures (match ?x with _ => _ end) _ => destruct x eqn:?
  end.

(** A token carries the start of its cursor, and its kind tells which
    scanner made it. *)
Definition made (kinds : list TokenType) (tok : Token) (st : State) : Prop :=
  tokStart tok = stStart st /\ In (tokType tok) kinds.

Lemma made_scanWhitespace : ensures scanWhitespace (made [TokenWhitespace]).
Proof. unfold scanWhitespace. repeat ensures_step. split; [reflexivity | left; reflexivity]. Qed.

Lemma made_scanCommentInline : ensures scanCommentInline (made [TokenCommentInline]).
Proof. unfold scanCommentInline. repeat ensures_step. split; [reflexivity | left; reflexivity]. Qed.

Lemma made_scanCommentBlock : ensures scanCommentBlock (made [TokenCommentBlock]).
Proof. unfold scanCommentBlock. repeat ensures_step. split; [reflexivity | left; reflexivity]. Qed.

Lemma made_scanString : forall e, ensures (scanString e) (made [TokenString]).
Proof. intros e. unfold scanString. repeat ensures_step. split; [reflexivity | left; reflexivity]. Qed.

Lemma made_scanDollarQuotedString : ensures scanDollarQuotedString (made [TokenString]).
Proof.
  unfold scanDollarQuotedString. repeat ensures_step.
  split; [reflexivity | left; reflexivity].
Qed.

Lemma made_scanQuotedIdentifier :
  forall e, ensures (scanQuotedIdentifier e) (made [TokenKeyword]).
Proof.
  intros e. unfold scanQuotedIdentifier. repeat ensures_step.
  split; [reflexivity | left; reflexivity].
Qed.

Lemma made_scanWord : ensures scanWord (made [TokenUnknown; TokenKeyword]).
Proof.
  unfold scanWord. repeat ensures_step;
    (split; [reflexivity | cbn; tauto]).
Qed.

Lemma made_scanParameter :
  forall d pt, ensures (scanParameter d pt) (made [TokenUnknown; TokenParameter]).
Proof.
  intros d pt. unfold scanParameter.
  do 8 (apply ensures_bind; intros ?).
  repeat ensures_step; (split; [reflexivity | cbn; tauto]).
Qed.

Lemma made_weaken :
  forall kinds kinds' (m : M Token),
    incl kinds kinds' -> ensures m (made kinds) -> ensures m (made kinds').
Proof.
  intros kinds kinds' m Hi Hm st tok st' H. apply Hm in H. destruct H as [Hs Hk].
  split; [exact Hs | apply Hi; exact Hk].
Qed.

Lemma made_individual :
  ensures (individual <- scanIndividualCharacter ;;
           match individual with
           | Some tok => ret tok
           | None => skipChar
           end)
          (made [TokenSemicolon; TokenUnknown]).
Proof.
  intros st tok st' H. run_bind H. destruct o as [t|].
  - inversion H; subst; clear H. unfold scanIndividualCharacter in E.
    run_bind E. apply pure_tokenText in E0. subst.
    unfold resolveIndividualTokenType in E. destruct (String.eqb s ";"); [|discriminate].
    run_bind E. inversion E; subst; clear E.
    unfold tokenOf in E0. run_bind E0. inversion E; subst; clear E.
    inversion E0; subst. split; [reflexivity | left; reflexivity].
  - revert H. apply ensures_skipChar. intros value st2.
    split; [reflexivity | right; left; reflexivity].
Qed.

(** Only a whitespace character starts a whitespace token. *)
Lemma made_scanAt :
  forall d pt ch,
    ensures (scanAt d pt ch)
            (fun tok st => tokStart tok = stStart st
                           /\ (tokType tok = TokenWhitespace -> isWhitespace ch = true)).
Proof.
  intros d pt ch.
  assert (Hw : forall kinds (m : M Token),
             ~ In TokenWhitespace kinds -> ensures m (made kinds) ->
             ensures m (fun tok st => tokStart tok = stStart st
                                      /\ (tokType tok = TokenWhitespace -> isWhitespace ch = true))).
  { intros kinds m Hn Hm st tok st' H. apply Hm in H. destruct H as [Hs Hk].
    split; [exact Hs|]. intros Ht. rewrite Ht in Hk. contradiction. }
  unfold scanAt. destruct (isWhitespace ch) eqn:Ews.
  - intros st tok st' H. apply made_scanWhitespace in H. destruct H as [Hs _].
    split; [exact Hs | reflexivity].
  - repeat lazymatch goal with
           | |- ensures (bind scanIndividualCharacter _) _ => fail
           | _ => ensures_step
           end;
      (eapply Hw; [|first [ apply made_scanCommentInline | apply made_scanCommentBlock
                          | apply made_scanString | apply made_scanParameter
                          | apply made_scanDollarQuotedString
                          | apply made_scanQuotedIdentifier | apply made_scanWord
                          | apply made_individual ]];
       cbn; intuition discriminate).
Qed.


(** ** ScanToken from the cursor the parser hands it *)

Lemma read0_from_initState :
  forall prev ch st1,
    read 0 (initState [] (Some prev)) = Ok (ch, st1) ->
    sameInput (initState [] (Some prev)) st1
    /\ ((ch = eof /\ stPosition st1 = stPosition prev
         /\ llen (stInput prev) - 1 <= stPosition prev)
        \/ (stPosition prev < llen (stInput prev) - 1
            /\ stPosition st1 = stPosition prev + 1 /\ onToken st1)).
Proof.
  intros prev ch st1 H. apply read0_spec in H. cbn [initState stPosition stInput] in H.
  destruct H as [[-> [-> Hge]] | [Hlt ->]].
  - split; [repeat split|]. left. repeat split; assumption.
  - split; [repeat split|]. right.
    unfold onToken. cbn [initState stPosition stInput stStart set_Position]. lia.
Qed.

(** The token [ScanToken] returns for the cursor after [prev]: the input and
    the bounds are untouched, the token starts right after [prev], the
    cursor has not moved back, it has moved on to a character of the input
    when one was left, and a whitespace token has always consumed one. *)
Lemma ScanToken_spec :
  forall d pt prev tok st',
    ScanToken d pt (initState [] (Some prev)) = Ok (tok, st') ->
    stInput st' = stInput prev
    /\ tokStart tok = stPosition prev + 1
    /\ stPosition prev <= stPosition st'
    /\ (stPosition prev < llen (stInput prev) - 1 ->
        stPosition prev < stPosition st' <= llen (stInput prev) - 1)
    /\ (tokType tok = TokenWhitespace ->
        stPosition prev < stPosition st' <= llen (stInput prev) - 1).
Proof.
  intros d pt prev tok st' H. unfold ScanToken in H. run_bind H.
  apply read0_from_initState in E. destruct E as [Hsame Hpos].
  pose proof (keeps_scanAt (closed_sameInput (initState [] (Some prev))) d pt r _ Hsame H)
    as [HI [HS HE]].
  pose proof (made_scanAt d pt r _ H) as [Hstart Hws].
  cbn [initState stInput stStart stEnd] in HI, HS, HE.
  split; [exact HI|]. split; [rewrite Hstart, HS; reflexivity|].
  destruct Hpos as [[Heof [Hp Hge]] | [Hlt [Hp Hon]]].
  - (* the input was exhausted: nothing moves *)
    assert (Hst : stPosition st' = stPosition prev).
    { pose proof (keeps_scanAt
                    (Q := fun st => stInput st = stInput prev
                                    /\ stPosition st = stPosition prev
                                    /\ stStart st = stPosition prev + 1)) as Hk.
      assert (Hc : closed (fun st => stInput st = stInput prev
                                     /\ stPosition st = stPosition prev
                                     /\ stStart st = stPosition prev + 1)).
      { split.
        - intros st skip ch st2 Hs [HI2 [HP2 HS2]] Hr. unfold read in Hr.
          destruct (stPosition st + skip >=? llen (stInput st) - 1) eqn:Eg.
          + inversion Hr; subst. repeat split; assumption.
          + destruct (index _ _); cbn [rbind] in Hr; try discriminate.
            inversion Hr; subst. cbn [stInput stPosition stStart set_Position].
            rewrite HI2, HP2 in Eg. repeat split; try assumption. lia.
        - intros st st2 [HI2 [HP2 HS2]] Hu. unfold unread in Hu.
          destruct (stPosition st <=? stStart st) eqn:El.
          + inversion Hu; subst. repeat split; assumption.
          + lia. }
      destruct Hsame as [HI1 [HS1 _]]. cbn [initState stInput stStart] in HI1, HS1.
      destruct (Hk Hc d pt r s tok st') as [_ [Hfin _]]; auto. }
    split; [lia|]. split; [lia|].
    intros Ht. apply Hws in Ht. subst r. discriminate Ht.
  - pose proof (keeps_scanAt closed_onToken d pt r _ Hon H) as [Hlo Hhi].
    rewrite HS in Hlo. rewrite HI in Hhi.
    split; [lia|]. split; intros _; lia.
Qed.

(** ** Termination of the parser *)

Lemma nextNonWhitespaceToken_loop_safe :
  forall d pt fuel state,
    (remaining state < fuel)%nat ->
    nextNonWhitespaceToken_loop d pt fuel state <> OutOfFuel.
Proof.
  intros d pt. induction fuel as [|n IH]; intros state Hf; [lia|].
  cbn [nextNonWhitespaceToken_loop].
  destruct (ScanToken d pt (initState [] (Some state))) as [[tok st']| |] eqn:E.
  - destruct (TokenType_eqb (tokType tok) TokenWhitespace) eqn:Ew; cbn [negb];
      [|discriminate].
    apply IH. apply ScanToken_spec in E. destruct E as [HI [_ [_ [_ Hws]]]].
    assert (Ht : tokType tok = TokenWhitespace).
    { destruct (tokType tok); try discriminate Ew. reflexivity. }
    apply Hws in Ht. unfold remaining in *. rewrite HI. lia.
  - discriminate.
  - exfalso. eapply total_ScanToken. exact E.
Qed.

Lemma nextNonWhitespaceToken_safe :
  forall d pt state, nextNonWhitespaceToken d pt state <> OutOfFuel.
Proof.
  intros d pt state. unfold nextNonWhitespaceToken.
  apply nextNonWhitespaceToken_loop_safe. lia.
Qed.

Lemma AddToken_safe : forall p token nextToken, AddToken p token nextToken <> OutOfFuel.
Proof.
  intros p token nextToken. unfold AddToken.
  destruct (sEndStatement (statement p)); [discriminate|].
  destruct (_ && _); [discriminate|].
  destruct (_ && _); [discriminate|].
  destruct (TokenType_eqb _ _); [discriminate|].
  destruct (openBlock p token nextToken); [discriminate|].
  destruct (_ && _); [discriminate|].
  destruct (skipModifiers _ _); [discriminate|].
  unfold runStep, currentStepOf, stepAt.
  repeat match goal with
         | |- context [if ?c then _ else _] => destruct c; cbn [rbind]
         | |- context [match nth_error ?l ?n with _ => _ end] =>
           destruct (nth_error l n); cbn [rbind]
         | |- context [match missingPredecessor ?a ?b ?c with _ => _ end] =>
           destruct (missingPredecessor a b c)
         end; discriminate.
Qed.

Lemma createStatementParserByToken_safe :
  forall token nextToken options,
    createStatementParserByToken token nextToken options <> OutOfFuel.
Proof.
  intros token nextToken options. unfold createStatementParserByToken.
  destruct (if TokenType_eqb _ _ then _ else _); [discriminate|].
  destruct (negb _); discriminate.
Qed.

Lemma rbind_safe :
  forall A B (r : result A) (k : A -> result B),
    r <> OutOfFuel -> (forall a, k a <> OutOfFuel) -> rbind r k <> OutOfFuel.
Proof.
  intros A B r k Hr Hk. destruct r; cbn [rbind]; [apply Hk | discriminate | contradiction].
Qed.

Lemma dispatch_safe :
  forall isStrict d tables pt ls token nextToken tokenState,
    dispatch isStrict d tables pt ls token nextToken tokenState <> OutOfFuel.
Proof.
  intros isStrict d tables pt ls token nextToken tokenState. unfold dispatch.
  destruct (statementParser ls) as [p|].
  - unfold insideStatement. apply rbind_safe; [apply AddToken_safe|].
    intros q. destruct (sEndStatement _); discriminate.
  - unfold outsideStatement. apply rbind_safe.
    + repeat match goal with
             | |- (if ?c then _ else _) <> _ => destruct c
             end; try discriminate.
      apply rbind_safe; [apply createStatementParserByToken_safe|].
      intros q. destruct (isCte (cte ls)); discriminate.
    + intros ls'. discriminate.
Qed.

Lemma parseIteration_safe :
  forall isStrict d tables pt ls, parseIteration isStrict d tables pt ls <> OutOfFuel.
Proof.
  intros isStrict d tables pt ls. unfold parseIteration.
  apply rbind_safe; [apply total_ScanToken|].
  intros [token tokenState]. apply rbind_safe; [apply nextNonWhitespaceToken_safe|].
  intros nextToken. apply dispatch_safe.
Qed.


(** Where an iteration leaves the cursor: past the token, or in place when
    it has just created the statement parser. *)
Lemma dispatch_cursor :
  forall isStrict d tables pt ls token nextToken tokenState ls',
    dispatch isStrict d tables pt ls token nextToken tokenState = Ok ls' ->
    prevState ls' = tokenState
    \/ (prevState ls' = prevState ls /\ statementParser ls = None
        /\ exists p, statementParser ls' = Some p).
Proof.
  intros isStrict d tables pt ls token nextToken tokenState ls' H. unfold dispatch in H.
  destruct (statementParser ls) as [p|] eqn:Ep.
  - left. unfold insideStatement in H.
    destruct (AddToken p token nextToken); cbn [rbind] in H; try discriminate.
    destruct (sEndStatement _); inversion H; reflexivity.
  - unfold outsideStatement in H.
    match type of H with rbind ?r _ = _ => destruct r as [ls1| |] eqn:E1 end;
      cbn [rbind] in H; try discriminate.
    assert (Hls' : prevState ls' = prevState ls1 /\ statementParser ls' = statementParser ls1).
    { inversion H. unfold rememberParameter.
      destruct (isCte (cte ls1) && TokenType_eqb (tokType token) TokenParameter);
        split; reflexivity. }
    destruct Hls' as [Hp' Hs']. rewrite Hp', Hs'. clear H Hp' Hs'.
    repeat (head_step E1; try (inversion E1; subst; left; reflexivity)).
    destruct (createStatementParserByToken _ _ _) as [q| |]; cbn [rbind] in E1;
      try discriminate.
    destruct (isCte (cte ls)); inversion E1; subst; right; cbn;
      (split; [reflexivity | split; [reflexivity | eexists; reflexivity]]).
Qed.

(** The measure of the main loop of [Parse]. *)
Definition loopMeasure (ls : loopState) : nat :=
  2 * remaining (prevState ls)
  + match statementParser ls with None => 1 | Some _ => 0 end.

Lemma parseIteration_decreases :
  forall isStrict d tables pt ls ls',
    stPosition (prevState ls) < llen (stInput (prevState ls)) - 1 ->
    parseIteration isStrict d tables pt ls = Ok ls' ->
    stInput (prevState ls') = stInput (prevState ls)
    /\ (loopMeasure ls' < loopMeasure ls)%nat.
Proof.
  intros isStrict d tables pt ls ls' Hlt H. unfold parseIteration in H.
  destruct (ScanToken d pt (initState [] (Some (prevState ls)))) as [[token tokenState]| |]
    eqn:ES; cbn [rbind] in H; try discriminate.
  destruct (nextNonWhitespaceToken d pt tokenState) as [nextToken| |];
    cbn [rbind] in H; try discriminate.
  apply ScanToken_spec in ES. destruct ES as [HI [_ [_ [Hadv _]]]].
  specialize (Hadv Hlt).
  apply dispatch_cursor in H. unfold loopMeasure.
  destruct H as [-> | [-> [-> [p ->]]]].
  - split; [exact HI|]. unfold remaining. rewrite HI.
    destruct (statementParser ls'), (statementParser ls); lia.
  - split; [reflexivity | lia].
Qed.

Lemma Parse_loop_safe :
  forall isStrict d tables pt fuel ls,
    (loopMeasure ls < fuel)%nat ->
    Parse_loop isStrict d tables pt fuel (llen (stInput (prevState ls)) - 1) ls
    <> OutOfFuel.
Proof.
  intros isStrict d tables pt. induction fuel as [|n IH]; intros ls Hf; [lia|].
  cbn [Parse_loop].
  destruct (stPosition (prevState ls) <? llen (stInput (prevState ls)) - 1) eqn:Elt;
    [|discriminate].
  apply Z.ltb_lt in Elt.
  destruct (parseIteration isStrict d tables pt ls) as [ls'| |] eqn:E; cbn [rbind].
  - apply parseIteration_decreases in E; [|exact Elt]. destruct E as [HI Hm].
    rewrite <- HI. apply IH. lia.
  - discriminate.
  - exfalso. eapply parseIteration_safe. exact E.
Qed.

(** [Parse] returns or panics on every input. *)
Lemma Parse_safe :
  forall isStrict d tables pt input, Parse isStrict d tables pt input <> OutOfFuel.
Proof.
  intros isStrict d tables pt input. unfold Parse. apply rbind_safe; [|discriminate].
  set (ls0 := mkLoop _ _ _ _).
  change (stEnd (initState (runes_of_string input) None))
    with (llen (stInput (prevState ls0)) - 1).
  apply Parse_loop_safe. unfold loopMeasure, remaining, ls0.
  cbn [prevState statementParser initState stInput stPosition]. unfold llen. lia.
Qed.

Lemma identifyResults_safe :
  forall query sortParams body, identifyResults query sortParams body <> OutOfFuel.
Proof.
  intros query sortParams. induction body as [|c body IH]; cbn [identifyResults];
    [discriminate|].
  apply rbind_safe.
  - unfold substr. apply rbind_safe; [apply slice_safe | discriminate].
  - intros text. apply rbind_safe; [exact IH | discriminate].
Qed.

Lemma identifyBody_safe :
  forall query options, identifyBody query options <> OutOfFuel.
Proof.
  intros query options. unfold identifyBody.
  destruct (negb _); [discriminate|].
  apply rbind_safe; [apply Parse_safe|]. intros pr.
  apply rbind_safe; [apply identifyResults_safe | discriminate].
Qed.

(** What [Identify] returns has exactly one of its two components set. *)
Definition wellFormedReturn (r : returned) : Prop :=
  (exists results, r = (Some results, None)) \/ (exists msg, r = (None, Some msg)).

Lemma identifyBody_wellFormed :
  forall query options r, identifyBody query options = Ok r -> wellFormedReturn r.
Proof.
  intros query options r H. unfold identifyBody in H.
  destruct (negb _).
  - inversion H. right. eexists. reflexivity.
  - destruct (Parse _ _ _ _ _); cbn [rbind] in H; try discriminate.
    destruct (identifyResults _ _ _); cbn [rbind] in H; try discriminate.
    inversion H. left. eexists. reflexivity.
Qed.

(** C9: [Identify] returns on every query and every options value -- it
    neither panics nor runs forever -- and what it returns is either a
    result list without an error or an error without a result list; a panic
    of its body, whatever raised it, comes back as that error with a nil
    result list. *)
Theorem C9_identify_recovers_every_panic :
  forall (query : string) (options : IdentifyOptions),
    (exists r : returned, Identify query options = Ok r /\ wellFormedReturn r)
    /\ (forall msg : string,
           identifyBody query options = Panic msg ->
           Identify query options = Ok (None, Some msg)).
Proof.
  intros query options. split.
  - unfold Identify. destruct (identifyBody query options) as [r|msg|] eqn:E.
    + exists r. split; [reflexivity|]. eapply identifyBody_wellFormed. exact E.
    + exists (None, Some msg). split; [reflexivity|]. right. eexists. reflexivity.
    + exfalso. eapply identifyBody_safe. exact E.
  - intros msg H. unfold Identify. rewrite H. reflexivity.
Qed.


(** ** Colons next to colons *)

(** The character of the input at an offset. *)
Definition charAt (input : list rune) (i : Z) : option rune :=
  if (0 <=? i) && (i <? llen input) then nth_error input (Z.to_nat i) else None.

(** Offset [i] holds a colon, and so does the offset before it or the
    offset after it. *)
Definition colonOfCast (input : list rune) (i : Z) : Prop :=
  charAt input i = Some 58
  /\ (charAt input (i - 1) = Some 58 \/ charAt input (i + 1) = Some 58).

Lemma charAt_index :
  forall input i ch, charAt input i = Some ch -> index input i = Ok ch.
Proof.
  intros input i ch H. unfold charAt in H. unfold index.
  destruct ((0 <=? i) && (i <? llen input)); [|discriminate].
  f_equal. apply nth_error_nth. exact H.
Qed.

Lemma charAt_range :
  forall input i ch, charAt input i = Some ch -> 0 <= i < llen input.
Proof.
  intros input i ch H. unfold charAt in H.
  destruct ((0 <=? i) && (i <? llen input)) eqn:E; [|discriminate]. lia.
Qed.

Lemma charAt_None :
  forall input i, charAt input i = None -> i < 0 \/ llen input <= i.
Proof.
  intros input i H. unfold charAt in H.
  destruct ((0 <=? i) && (i <? llen input)) eqn:E; [|lia].
  apply nth_error_None in H. unfold llen in *. lia.
Qed.

Lemma skipn_nth_error :
  forall A (l : list A) n x,
    nth_error l n = Some x -> skipn n l = x :: skipn (S n) l.
Proof.
  intros A. induction l as [|y l IH]; intros [|n] x H; simpl in *; try discriminate.
  - inversion H. reflexivity.
  - apply IH. exact H.
Qed.

Lemma slice_one :
  forall input i ch, charAt input i = Some ch -> slice input i (i + 1) = Ok [ch].
Proof.
  intros input i ch H. pose proof (charAt_range _ _ H) as Hr.
  unfold charAt in H. unfold slice.
  replace ((0 <=? i) && (i <=? i + 1) && (i + 1 <=? llen input)) with true by lia.
  replace ((0 <=? i) && (i <? llen input)) with true in H by lia.
  rewrite (skipn_nth_error _ _ H). replace (Z.to_nat (i + 1 - i)) with 1%nat by lia.
  reflexivity.
Qed.

Lemma slice_from :
  forall input i ch,
    charAt input i = Some ch ->
    exists rest, slice input i (llen input) = Ok (ch :: rest).
Proof.
  intros input i ch H. pose proof (charAt_range _ _ H) as Hr.
  unfold charAt in H. unfold slice.
  replace ((0 <=? i) && (i <=? llen input) && (llen input <=? llen input)) with true by lia.
  replace ((0 <=? i) && (i <? llen input)) with true in H by lia.
  rewrite (skipn_nth_error _ _ H).
  destruct (Z.to_nat (llen input - i)) eqn:En; [lia|].
  eexists. reflexivity.
Qed.

(** A text that begins with a colon opens no dollar-quoted string. *)
Lemma dollarQuoteOpener_colon :
  forall rest, dollarQuoteOpener (string_of_runes (58 :: rest)) = None.
Proof. intros rest. reflexivity. Qed.

Section ColonScan.

Variable d : Dialect.
Variable pt : option ParamTypes.
Variable prev : State.

Let i : Z := stPosition prev + 1.
Let st0 : State := initState [] (Some prev).
Let st1 : State := set_Position st0 i.

Hypothesis Hcolon : colonOfCast (stInput prev) i.

Lemma colon_read : read 0 st0 = Ok (58, st1).
Proof.
  destruct Hcolon as [Hc _]. pose proof (charAt_range _ _ Hc) as Hr.
  unfold read, st0, st1, i in *. cbn [initState stPosition stInput set_Position].
  replace (stPosition prev + 0 >=? llen (stInput prev) - 1) with false by lia.
  replace (stPosition prev + 1 + 0) with (stPosition prev + 1) by lia.
  rewrite (charAt_index _ _ Hc). reflexivity.
Qed.

Lemma colon_isParameter : isParameter 58 pt st1 = Ok (false, st1).
Proof.
  destruct Hcolon as [Hc Hadj]. pose proof (charAt_range _ _ Hc) as Hr.
  unfold isParameter. change (58 =? eof) with false. cbv iota. unfold bind.
  assert (Hpeek : exists n, peek st1 = Ok (n, st1)
                            /\ (charAt (stInput prev) (i + 1) = Some 58 -> n = 58)).
  { unfold peek, st1, st0. cbn [initState stPosition stInput set_Position].
    destruct (i >=? llen (stInput prev) - 1) eqn:E.
    - exists eof. split; [reflexivity|]. intros H. apply charAt_range in H. lia.
    - destruct (charAt (stInput prev) (i + 1)) as [n|] eqn:En.
      + exists n. rewrite (charAt_index _ _ En). split; [reflexivity|]. congruence.
      + apply charAt_None in En. lia. }
  assert (Hback : exists b, peekBack st1 = Ok (b, st1)
                            /\ (charAt (stInput prev) (i - 1) = Some 58 -> b = 58)).
  { unfold peekBack, st1, st0. cbn [initState stPosition stInput set_Position].
    destruct (i =? 0) eqn:E.
    - exists eof. split; [reflexivity|]. intros H. apply charAt_range in H. lia.
    - destruct (charAt (stInput prev) (i - 1)) as [b|] eqn:Eb.
      + exists b. rewrite (charAt_index _ _ Eb). split; [reflexivity|]. congruence.
      + apply charAt_None in Eb. lia. }
  destruct Hpeek as [n [-> Hn]]. destruct Hback as [b [-> Hb]].
  assert (Hguard : (58 =? 58) && ((b =? 58) || (n =? 58)) = true).
  { destruct Hadj as [H | H]; [rewrite (Hb H) | rewrite (Hn H)];
      rewrite ?orb_true_r; reflexivity. }
  rewrite Hguard. reflexivity.
Qed.

Lemma colon_isDollarQuotedString : isDollarQuotedString st1 = Ok (false, st1).
Proof.
  destruct Hcolon as [Hc _]. destruct (slice_from _ _ Hc) as [rest Hs].
  unfold isDollarQuotedString, bind, remainingInput, st1, st0.
  cbn [initState stPosition stInput stStart set_Position]. fold i.
  rewrite Hs. cbn [rbind]. rewrite dollarQuoteOpener_colon. reflexivity.
Qed.

Lemma colon_tokenText : tokenText st1 = Ok (":", st1).
Proof.
  destruct Hcolon as [Hc _].
  unfold tokenText, st1, st0. cbn [initState stPosition stInput stStart set_Position].
  fold i. rewrite (slice_one _ _ Hc). reflexivity.
Qed.

(** The token scanned at a colon that has a colon beside it: one
    character, of kind unknown, whatever the dialect and the parameter
    configuration. *)
Lemma ScanToken_colonOfCast :
  ScanToken d pt st0 = Ok (mkToken TokenUnknown ":" i i, st1).
Proof.
  assert (Hs : (if isString 58 d then endTokens 58 else None) = None).
  { destruct (isString 58 d); reflexivity. }
  assert (Hq : (if isQuotedIdentifier 58 d then endTokens 58 else None) = None).
  { destruct (isQuotedIdentifier 58 d); reflexivity. }
  unfold ScanToken, bind at 1. rewrite colon_read.
  unfold scanAt, isCommentInline, isCommentBlock.
  change (isWhitespace 58) with false. change (negb (58 =? 45)) with true.
  change (negb (58 =? 47)) with true. change (isLetter 58) with false.
  cbv iota. rewrite Hs, Hq.
  unfold bind at 1. unfold ret at 1. cbv beta iota.
  unfold bind at 1. unfold ret at 1. cbv beta iota.
  unfold bind at 1. rewrite colon_isParameter. cbv beta iota.
  unfold bind at 1. rewrite colon_isDollarQuotedString. cbv beta iota.
  unfold scanIndividualCharacter, skipChar, bind, get, ret.
  rewrite colon_tokenText. cbv beta iota.
  change (resolveIndividualTokenType ":") with (@None TokenType). cbv beta iota.
  rewrite colon_tokenText. reflexivity.
Qed.

End ColonScan.


(** ** Where parameters come from *)

Lemma captureParameters_parameters :
  forall p token,
    sParameters (statement (captureParameters p token)) = sParameters (statement p)
    \/ (tokType token = TokenParameter
        /\ sParameters (statement (captureParameters p token))
           = sParameters (statement p) ++ [tokValue token]).
Proof.
  intros p token. unfold captureParameters.
  destruct (tokType token) eqn:Et; cbn [TokenType_eqb]; try (left; reflexivity).
  destruct (_ || _); [right; split; reflexivity | left; reflexivity].
Qed.

(** [AddToken] adds at most the text of the token it is fed, and only when
    that token is a parameter. *)
Lemma AddToken_parameters :
  forall p token nextToken p',
    quietSteps (steps p) ->
    AddToken p token nextToken = Ok p' ->
    sParameters (statement p') = sParameters (statement p)
    \/ (tokType token = TokenParameter
        /\ sParameters (statement p') = sParameters (statement p) ++ [tokValue token]).
Proof.
  intros p token nextToken p' Hq H. unfold AddToken in H.
  destruct (sEndStatement (statement p)); [discriminate|].
  destruct (TokenType_eqb (tokType token) TokenSemicolon && _).
  { inversion H; subst. left. reflexivity. }
  destruct ((openBlocks p >? 0) && String.eqb (ToUpper (tokValue token)) "END").
  { inversion H; subst. rewrite setPrevToken_statement.
    match goal with |- context [if ?c then _ else _] => destruct c end; left; reflexivity. }
  destruct (TokenType_eqb (tokType token) TokenWhitespace).
  { inversion H; subst. rewrite setPrevToken_statement. left. reflexivity. }
  destruct (openBlock_statement p token nextToken) as [Hob Hobs].
  destruct (openBlock p token nextToken) as [q|q]; cbn [carried] in Hob, Hobs.
  { inversion H; subst. rewrite Hob. left. reflexivity. }
  destruct (captureTables_frame q token nextToken) as [_ [Ht1 Ht2]].
  destruct (captureParameters_frame (captureTables q token nextToken) token) as [_ [Hp2 _]].
  pose proof (captureParameters_parameters (captureTables q token nextToken) token) as Hcap.
  set (q2 := captureParameters (captureTables q token nextToken) token) in *.
  rewrite Ht1, Hob in Hcap.
  assert (Hs2 : steps q2 = steps p) by congruence.
  destruct (match sType (statement q2) with Some _ => true | None => false end
            && (sStart (statement q2) >=? 0)).
  { inversion H; subst. rewrite setPrevToken_statement. exact Hcap. }
  destruct (skipModifiers_frame q2 token) as [_ [Hm1 Hm2]].
  destruct (skipModifiers q2 token) as [q3|q3]; cbn [carried] in Hm1, Hm2.
  { inversion H; subst. rewrite Hm1. exact Hcap. }
  apply runStep_frame in H; [|rewrite Hm2, Hs2; exact Hq].
  destruct H as [_ [H2 _]]. rewrite H2, Hm1. exact Hcap.
Qed.

(** The texts of the parameter tokens of a token stream. *)
Definition parameterTexts (tokens : list Token) : list string :=
  map tokValue (filter (fun t => TokenType_eqb (tokType t) TokenParameter) tokens).

Lemma parameterTexts_app :
  forall ts token,
    parameterTexts (ts ++ [token])
    = parameterTexts ts
      ++ (if TokenType_eqb (tokType token) TokenParameter then [tokValue token] else []).
Proof.
  intros ts token. unfold parameterTexts. rewrite filter_app, map_app. cbn [filter].
  destruct (TokenType_eqb (tokType token) TokenParameter); reflexivity.
Qed.

Lemma incl_parameterTexts_app :
  forall xs ts token, incl xs (parameterTexts ts) -> incl xs (parameterTexts (ts ++ [token])).
Proof.
  intros xs ts token H. rewrite parameterTexts_app. apply incl_appl. exact H.
Qed.

Lemma incl_parameterTexts_snoc :
  forall xs ts token,
    incl xs (parameterTexts ts) -> tokType token = TokenParameter ->
    incl (xs ++ [tokValue token]) (parameterTexts (ts ++ [token])).
Proof.
  intros xs ts token H Ht. rewrite parameterTexts_app, Ht. cbn [TokenType_eqb].
  apply incl_app_app; [exact H | apply incl_refl].
Qed.

(** The invariant of the main loop of [Parse] behind the parameter lists:
    every parameter held anywhere is the text of a parameter token of the
    stream so far. *)
Record parametersFromTokens (ls : loopState) : Prop := mkParametersFromTokens {
  pft_body :
    Forall (fun c => incl (cParameters c) (parameterTexts (Tokens (topLevelResult ls))))
           (Body (topLevelResult ls));
  pft_cte : incl (params (cte ls)) (parameterTexts (Tokens (topLevelResult ls)));
  pft_parser :
    forall p, statementParser ls = Some p ->
              quietSteps (steps p)
              /\ incl (sParameters (statement p))
                      (parameterTexts (Tokens (topLevelResult ls)))
}.

Lemma Forall_incl_parameterTexts_app :
  forall body ts token,
    Forall (fun c : ConcreteStatement => incl (cParameters c) (parameterTexts ts)) body ->
    Forall (fun c : ConcreteStatement => incl (cParameters c) (parameterTexts (ts ++ [token])))
           body.
Proof.
  intros body ts token H. eapply Forall_impl; [|exact H].
  intros c Hc. apply incl_parameterTexts_app. exact Hc.
Qed.

Lemma insideStatement_parametersFromTokens :
  forall ls p token nextToken tokenState ls',
    parametersFromTokens ls ->
    statementParser ls = Some p ->
    insideStatement ls p token nextToken tokenState = Ok ls' ->
    parametersFromTokens ls'.
Proof.
  intros ls p token nextToken tokenState ls' [Hb Hc Hp] Hsp H.
  destruct (Hp p Hsp) as [Hq Hincl].
  unfold insideStatement in H.
  destruct (AddToken p token nextToken) as [p'| |] eqn:EA; cbn [rbind] in H;
    try discriminate.
  pose proof (AddToken_endMarker _ _ _ Hq EA) as [_ [Hsteps _]].
  assert (Hp' : incl (sParameters (statement p'))
                     (parameterTexts (Tokens (topLevelResult ls) ++ [token]))).
  { destruct (AddToken_parameters _ _ _ Hq EA) as [-> | [Ht ->]].
    - apply incl_parameterTexts_app. exact Hincl.
    - apply incl_parameterTexts_snoc; assumption. }
  unfold GetStatement in H.
  destruct (sEndStatement (statement p')); inversion H; subst ls'; clear H;
    constructor; cbn.
  - apply Forall_app. split; [apply Forall_incl_parameterTexts_app; exact Hb|].
    constructor; [exact Hp' | constructor].
  - apply incl_parameterTexts_app. exact Hc.
  - intros q Hq'. discriminate.
  - apply Forall_incl_parameterTexts_app. exact Hb.
  - apply incl_parameterTexts_app. exact Hc.
  - intros q Hq'. inversion Hq'; subst q. split; [rewrite Hsteps; exact Hq | exact Hp'].
Qed.


Lemma consume_parametersFromTokens :
  forall ls c token tokenState,
    parametersFromTokens ls ->
    statementParser ls = None ->
    params c = params (cte ls) ->
    parametersFromTokens (consume ls c token tokenState).
Proof.
  intros ls c token tokenState [Hb Hc Hp] Hnone Hparams. constructor; cbn.
  - apply Forall_incl_parameterTexts_app. exact Hb.
  - rewrite Hparams. apply incl_parameterTexts_app. exact Hc.
  - intros p Hsome. rewrite Hnone in Hsome. discriminate.
Qed.

Lemma rememberParameter_consumed :
  forall ls c token tokenState,
    parametersFromTokens ls ->
    statementParser ls = None ->
    params c = params (cte ls) ->
    parametersFromTokens (rememberParameter token (consume ls c token tokenState)).
Proof.
  intros ls c token tokenState Hinv Hnone Hparams.
  pose proof (consume_parametersFromTokens c token tokenState Hinv Hnone Hparams) as Hc.
  unfold rememberParameter.
  destruct (isCte (cte (consume ls c token tokenState))
            && TokenType_eqb (tokType token) TokenParameter) eqn:E; [|exact Hc].
  apply andb_true_iff in E. destruct E as [_ Et].
  assert (Ht : tokType token = TokenParameter).
  { destruct (tokType token); try discriminate Et. reflexivity. }
  destruct Hinv as [Hb Hcte Hp]. constructor; cbn.
  - apply Forall_incl_parameterTexts_app. exact Hb.
  - rewrite Hparams. apply incl_parameterTexts_snoc; assumption.
  - intros p Hsome. rewrite Hnone in Hsome. discriminate.
Qed.

Lemma outsideStatement_parametersFromTokens :
  forall isStrict d tables pt ls token nextToken tokenState ls',
    parametersFromTokens ls ->
    statementParser ls = None ->
    outsideStatement isStrict d tables pt ls token nextToken tokenState = Ok ls' ->
    parametersFromTokens ls'.
Proof.
  intros isStrict d tables pt ls token nextToken tokenState ls' Hinv Hnone H.
  unfold outsideStatement in H.
  match type of H with rbind ?r _ = _ => destruct r as [ls1| |] eqn:E1 end;
    cbn [rbind] in H; try discriminate.
  inversion H; subst ls'; clear H.
  repeat (head_step E1;
          try (inversion E1; subst ls1;
               apply rememberParameter_consumed;
               [ assumption | assumption
               | repeat match goal with
                        | |- context [if ?c then _ else _] => destruct c
                        end; reflexivity ])).
  - (* the premature end of a CTE: an UNKNOWN statement without parameters *)
    inversion E1; subst ls1; clear E1.
    pose proof (rememberParameter_consumed
                  (mkCte false false false 0 (cteCursor (cte ls)) (params (cte ls)))
                  token tokenState Hinv Hnone eq_refl) as Hr.
    unfold rememberParameter in *. cbn in *.
    destruct Hr as [Hb Hc Hp]. constructor; cbn.
    + apply Forall_app. split; [exact Hb|]. constructor; [|constructor].
      cbn. intros x Hx. contradiction.
    + exact Hc.
    + exact Hp.
  - (* a statement parser is created; the token stays where it is *)
    destruct (createStatementParserByToken token nextToken _) as [p| |] eqn:Ec;
      cbn [rbind] in E1; try discriminate.
    apply createStatementParserByToken_quiet in Ec. destruct Ec as [Hq [_ Hnil]].
    destruct Hinv as [Hb Hc Hp].
    destruct (isCte (cte ls)) eqn:Ecte; inversion E1; subst ls1; clear E1;
      unfold rememberParameter; cbn [cte isCte andb]; try rewrite Ecte; cbn [andb];
      constructor; cbn; try assumption.
    + intros x Hx. contradiction.
    + intros q Hq'. inversion Hq'; subst q. cbn. split; [exact Hq|].
      unfold GetStatement. rewrite Hnil. cbn. exact Hc.
    + intros q Hq'. inversion Hq'; subst q. split; [exact Hq|].
      rewrite Hnil. intros x Hx. contradiction.
Qed.


(** ** Invariants of the main loop of Parse *)

Lemma Parse_loop_invariant :
  forall (Inv : loopState -> Prop) isStrict d tables pt,
    (forall ls ls', Inv ls -> parseIteration isStrict d tables pt ls = Ok ls' -> Inv ls') ->
    forall fuel topLevelEnd ls ls',
      Inv ls -> Parse_loop isStrict d tables pt fuel topLevelEnd ls = Ok ls' -> Inv ls'.
Proof.
  intros Inv isStrict d tables pt Hstep.
  induction fuel as [|n IH]; intros topLevelEnd ls ls' HI H; cbn [Parse_loop] in H;
    [discriminate|].
  destruct (stPosition (prevState ls) <? topLevelEnd).
  - destruct (parseIteration isStrict d tables pt ls) as [ls1| |] eqn:E; cbn [rbind] in H;
      try discriminate.
    eapply IH; [|exact H]. eapply Hstep; eassumption.
  - inversion H; subst. exact HI.
Qed.

(** What an iteration does to the token stream: it appends the token when
    it moves the cursor, and leaves the result alone otherwise. *)
Lemma dispatch_tokens :
  forall isStrict d tables pt ls token nextToken tokenState ls',
    dispatch isStrict d tables pt ls token nextToken tokenState = Ok ls' ->
    (prevState ls' = tokenState
     /\ Tokens (topLevelResult ls') = Tokens (topLevelResult ls) ++ [token])
    \/ (prevState ls' = prevState ls /\ topLevelResult ls' = topLevelResult ls).
Proof.
  intros isStrict d tables pt ls token nextToken tokenState ls' H. unfold dispatch in H.
  destruct (statementParser ls) as [p|] eqn:Ep.
  - left. unfold insideStatement in H.
    destruct (AddToken p token nextToken); cbn [rbind] in H; try discriminate.
    destruct (sEndStatement _); inversion H; split; reflexivity.
  - unfold outsideStatement in H.
    match type of H with rbind ?r _ = _ => destruct r as [ls1| |] eqn:E1 end;
      cbn [rbind] in H; try discriminate.
    assert (Hls' : prevState ls' = prevState ls1
                   /\ topLevelResult ls' = topLevelResult ls1).
    { inversion H. unfold rememberParameter.
      destruct (isCte (cte ls1) && TokenType_eqb (tokType token) TokenParameter);
        split; reflexivity. }
    destruct Hls' as [Hp' Hr']. rewrite Hp', Hr'. clear H Hp' Hr'.
    repeat (head_step E1; try (inversion E1; subst; left; split; reflexivity)).
    destruct (createStatementParserByToken _ _ _) as [q| |]; cbn [rbind] in E1;
      try discriminate.
    destruct (isCte (cte ls)); inversion E1; subst; right; split; reflexivity.
Qed.

(** A token of the stream that starts at a colon with a colon beside it is
    the one-character unknown token. *)
Definition castColonsUnknown (input : list rune) (tokens : list Token) : Prop :=
  Forall (fun tok => colonOfCast input (tokStart tok) ->
                     tokType tok = TokenUnknown /\ tokValue tok = ":")
         tokens.

Lemma parseIteration_castColons :
  forall isStrict d tables pt input ls ls',
    stInput (prevState ls) = input
    /\ castColonsUnknown input (Tokens (topLevelResult ls)) ->
    parseIteration isStrict d tables pt ls = Ok ls' ->
    stInput (prevState ls') = input
    /\ castColonsUnknown input (Tokens (topLevelResult ls')).
Proof.
  intros isStrict d tables pt input ls ls' [HI HT] H. unfold parseIteration in H.
  destruct (ScanToken d pt (initState [] (Some (prevState ls)))) as [[token tokenState]| |]
    eqn:ES; cbn [rbind] in H; try discriminate.
  destruct (nextNonWhitespaceToken d pt tokenState) as [nextToken| |];
    cbn [rbind] in H; try discriminate.
  apply dispatch_tokens in H.
  pose proof (ScanToken_spec _ _ _ ES) as [HI' [Hstart _]].
  destruct H as [[-> ->] | [-> ->]]; [|split; assumption].
  split; [congruence|].
  unfold castColonsUnknown. apply Forall_app. split; [exact HT|].
  constructor; [|constructor].
  intros Hc. rewrite Hstart, <- HI in Hc.
  rewrite (ScanToken_colonOfCast d pt (prevState ls) Hc) in ES.
  inversion ES; subst. split; reflexivity.
Qed.

Lemma parseIteration_parametersFromTokens :
  forall isStrict d tables pt ls ls',
    parametersFromTokens ls ->
    parseIteration isStrict d tables pt ls = Ok ls' ->
    parametersFromTokens ls'.
Proof.
  intros isStrict d tables pt ls ls' Hinv H. unfold parseIteration in H.
  destruct (ScanToken d pt (initState [] (Some (prevState ls)))) as [[token tokenState]| |];
    cbn [rbind] in H; try discriminate.
  destruct (nextNonWhitespaceToken d pt tokenState) as [nextToken| |];
    cbn [rbind] in H; try discriminate.
  unfold dispatch in H. destruct (statementParser ls) as [p|] eqn:Ep.
  - eapply insideStatement_parametersFromTokens; eassumption.
  - eapply outsideStatement_parametersFromTokens; eassumption.
Qed.

Lemma finish_parameters :
  forall ls c,
    parametersFromTokens ls ->
    In c (Body (finish ls)) ->
    incl (cParameters c) (parameterTexts (Tokens (finish ls))).
Proof.
  intros ls c [Hb Hc Hp] Hin. unfold finish in *.
  rewrite Forall_forall in Hb.
  destruct (statementParser ls) as [p|] eqn:Ep; [|apply Hb; exact Hin].
  destruct (sEndStatement (GetStatement p)); [apply Hb; exact Hin|].
  cbn in *. apply in_app_or in Hin. destruct Hin as [Hin | [<- | []]].
  - apply Hb. exact Hin.
  - cbn. destruct (Hp p eq_refl) as [_ Hincl]. exact Hincl.
Qed.

Lemma finish_tokens : forall ls, Tokens (finish ls) = Tokens (topLevelResult ls).
Proof.
  intros ls. unfold finish. destruct (statementParser ls) as [p|]; [|reflexivity].
  destruct (sEndStatement (GetStatement p)); reflexivity.
Qed.



(** ** Coverage and ordering of the spans *)

(** The spans of the tokens follow one another from [from] and stop right
    before [n]. *)
Fixpoint consecutiveFrom (from : Z) (tokens : list Token) (n : Z) : Prop :=
  match tokens with
  | [] => from = n
  | t :: rest =>
    tokStart t = from /\ tokStart t <= tokEnd t /\ consecutiveFrom (tokEnd t + 1) rest n
  end.

(** The token spans partition the offsets [0, n). *)
Definition tokensPartition (n : Z) (tokens : list Token) : Prop :=
  consecutiveFrom 0 tokens n.

(** The statement spans are strictly increasing by start and do not
    overlap. *)
Definition spansIncrease (body : list ConcreteStatement) : Prop :=
  forall (i j : nat) (a b : ConcreteStatement),
    nth_error body i = Some a -> nth_error body j = Some b -> (i < j)%nat ->
    cStart a < cStart b /\ cEnd a < cStart b.

(** ** Token spans on inputs within ASCII *)

(** On an input whose characters are all ASCII the byte length of a token's
    text is its length in characters, and the spans of the tokens do
    partition the input. *)

Lemma length_string_of_list_ascii :
  forall l, String.length (string_of_list_ascii l) = List.length l.
Proof. induction l as [|c l IH]; cbn; [reflexivity | rewrite IH; reflexivity]. Qed.

Lemma len_string_of_runes_ascii :
  forall rs, Forall (fun r => 0 <= r <= 127) rs -> len (string_of_runes rs) = llen rs.
Proof.
  intros rs H. unfold len, llen, string_of_runes, string_of_bytes.
  rewrite length_string_of_list_ascii, length_map. f_equal.
  induction H as [|r rs Hr _ IH]; [reflexivity|].
  cbn [flat_map]. rewrite length_app, IH. unfold encodeRune.
  replace ((0 <=? r) && (r <=? 127)) with true by (symmetry; apply andb_true_iff; lia).
  reflexivity.
Qed.

Lemma slice_ascii :
  forall (rs : list rune) lo hi sub,
    Forall (fun r => 0 <= r <= 127) rs -> slice rs lo hi = Ok sub ->
    Forall (fun r => 0 <= r <= 127) sub /\ llen sub = hi - lo.
Proof.
  intros rs lo hi sub Ha H. unfold slice in H.
  destruct ((0 <=? lo) && (lo <=? hi) && (hi <=? llen rs)) eqn:E; [|discriminate].
  inversion H; subst sub; clear H.
  apply andb_true_iff in E. destruct E as [E E3]. apply andb_true_iff in E.
  destruct E as [E1 E2]. unfold llen in *.
  split.
  - rewrite <- (firstn_skipn (Z.to_nat lo) rs) in Ha. apply Forall_app in Ha.
    destruct Ha as [_ Ha].
    rewrite <- (firstn_skipn (Z.to_nat (hi - lo)) (skipn (Z.to_nat lo) rs)) in Ha.
    apply Forall_app in Ha. tauto.
  - rewrite length_firstn, length_skipn. lia.
Qed.

Section AsciiSpans.

Variable input : list rune.
Hypothesis Hascii : Forall (fun r => 0 <= r <= 127) input.

(** The cursor is on a character of the token being scanned, in [input]. *)
Definition scanning (st : State) : Prop :=
  stInput st = input /\ 0 <= stStart st <= stPosition st
  /\ stPosition st <= llen input - 1.

(** The cursor is still on the first character of the token. *)
Definition atStart (st : State) : Prop :=
  scanning st /\ stPosition st = stStart st.

Lemma closed_scanning : closed scanning.
Proof.
  split.
  - intros st skip ch st' Hs [HI [Hlo Hhi]] H. unfold read in H.
    destruct (stPosition st + skip >=? llen (stInput st) - 1) eqn:E.
    + inversion H. subst st'. repeat split; first [assumption | lia].
    + destruct (index _ _); cbn [rbind] in H; try discriminate.
      inversion H. unfold scanning.
      cbn [stStart stPosition stInput set_Position]. rewrite HI in E.
      split; [exact HI | lia].
  - intros st st' [HI [Hlo Hhi]] H. unfold unread in H.
    destruct (stPosition st <=? stStart st) eqn:E; inversion H.
    + subst st'. repeat split; first [assumption | lia].
    + unfold scanning. cbn [stStart stPosition stInput set_Position].
      split; [exact HI | lia].
Qed.

(** [value] is as long as the stretch from the start of the token to the
    cursor. *)
Definition spansToCursor (value : string) (st : State) : Prop :=
  len value = stPosition st + 1 - stStart st.

Lemma tokenText_spansToCursor :
  forall st value st',
    scanning st -> tokenText st = Ok (value, st') -> st' = st /\ spansToCursor value st.
Proof.
  intros st value st' [HI _] H. unfold tokenText in H.
  destruct (slice _ _ _) as [rs| |] eqn:E; cbn [rbind] in H; try discriminate.
  inversion H; subst value st'; clear H. split; [reflexivity|].
  apply slice_ascii in E; [|rewrite HI; exact Hascii]. destruct E as [Ha Hl].
  unfold spansToCursor. rewrite len_string_of_runes_ascii by exact Ha. exact Hl.
Qed.

(** [m] leaves the cursor on the last character of the token it returns. *)
Definition endsAtCursor (m : M Token) : Prop :=
  forall st tok st',
    scanning st -> m st = Ok (tok, st') -> scanning st' /\ tokEnd tok = stPosition st'.

(** The same for the rest of a scanner that has taken the text. *)
Definition endsWith (value : string) (m : M Token) : Prop :=
  forall st tok st',
    scanning st -> spansToCursor value st -> m st = Ok (tok, st') ->
    scanning st' /\ tokEnd tok = stPosition st'.

Lemma endsAtCursor_bind :
  forall A (m : M A) (k : A -> M Token),
    keeps scanning m -> (forall a, endsAtCursor (k a)) -> endsAtCursor (bind m k).
Proof.
  intros A m k Hm Hk st tok st' Hs H. unfold bind in H.
  destruct (m st) as [[a st1]| |] eqn:E; try discriminate.
  eapply Hk; [|exact H]. eapply Hm; eassumption.
Qed.

Lemma endsAtCursor_text :
  forall k : string -> M Token,
    (forall value, endsWith value (k value)) -> endsAtCursor (bind tokenText k).
Proof.
  intros k Hk st tok st' Hs H. unfold bind in H.
  destruct (tokenText st) as [[value st1]| |] eqn:E; try discriminate.
  apply tokenText_spansToCursor in E; [|exact Hs]. destruct E as [-> Hv].
  eapply Hk; eassumption.
Qed.

Lemma endsWith_tokenOf : forall ty value, endsWith value (tokenOf ty value).
Proof.
  intros ty value st tok st' Hs Hv H. inversion H; subst tok st'; clear H.
  split; [exact Hs|]. cbn [tokEnd]. unfold spansToCursor in Hv. lia.
Qed.

Ltac ends_step :=
  lazymatch goal with
  | |- endsAtCursor (bind tokenText _) => apply endsAtCursor_text; intros ?
  | |- endsAtCursor (bind _ _) =>
    apply endsAtCursor_bind;
    [pose proof closed_scanning; keeps_auto;
     try apply keeps_getCustomParam; keeps_auto | intros ?]
  | |- endsWith _ (tokenOf _ _) => apply endsWith_tokenOf
  | |- endsWith _ (skipWord _) => unfold skipWord
  | |- endsWith _ (if ?c then _ else _) => destruct c
  | |- endsAtCursor (match ?x with _ => _ end) => destruct x
  | |- endsAtCursor (lift (Panic _)) => intros ? ? ? ? ?; discriminate
  end.

Lemma ends_scanWhitespace : endsAtCursor scanWhitespace.
Proof. unfold scanWhitespace. repeat ends_step. Qed.

Lemma ends_scanCommentInline : endsAtCursor scanCommentInline.
Proof. unfold scanCommentInline. repeat ends_step. Qed.

Lemma ends_scanCommentBlock : endsAtCursor scanCommentBlock.
Proof. unfold scanCommentBlock. repeat ends_step. Qed.

Lemma ends_scanString : forall e, endsAtCursor (scanString e).
Proof. intros e. unfold scanString. repeat ends_step. Qed.

Lemma ends_scanQuotedIdentifier : forall e, endsAtCursor (scanQuotedIdentifier e).
Proof. intros e. unfold scanQuotedIdentifier. repeat ends_step. Qed.

Lemma ends_scanWord : endsAtCursor scanWord.
Proof. unfold scanWord. repeat ends_step. Qed.

Lemma ends_scanDollarQuotedString : endsAtCursor scanDollarQuotedString.
Proof. unfold scanDollarQuotedString. repeat ends_step. Qed.

Lemma ends_scanParameter : forall d pt, endsAtCursor (scanParameter d pt).
Proof. intros d pt. unfold scanParameter. repeat ends_step. Qed.


(** The two look-ahead tests put the cursor back when they fail. *)
Ltac look_ahead Hs H :=
  match type of H with
  | (if ?c then _ else _) _ = _ => destruct c
  end;
  [inversion H; subst; split; [exact (proj1 Hs) | intros _; exact Hs]|];
  run_bind H;
  match goal with
  | E : read 0 ?st = Ok (?r, ?s) |- _ =>
    unfold read in E;
    destruct (stPosition st + 0 >=? llen (stInput st) - 1) eqn:Eg;
    [inversion E; subst r s; clear E; cbn in H; unfold bind, unread, ret in H;
     destruct (stPosition st <=? stStart st) eqn:El;
     [inversion H; subst; split; [exact (proj1 Hs) | intros _; exact Hs]
     |exfalso; unfold atStart in *; lia]
    |destruct (index _ _) as [c0| |]; cbn [rbind] in E; try discriminate;
     inversion E; subst r s; clear E]
  end.

Lemma isCommentInline_atStart :
  forall ch st b st',
    atStart st -> isCommentInline ch st = Ok (b, st') ->
    scanning st' /\ (b = false -> atStart st').
Proof.
  intros ch st b st' Hs H. unfold isCommentInline in H. look_ahead Hs H.
  destruct Hs as [[HI [Hlo Hhi]] Hp]. rewrite HI in Eg.
  destruct (c0 =? 45); cbn [negb] in H; unfold bind, unread, ret in H;
    cbn [stPosition stStart set_Position] in H.
  - inversion H; subst b st'. split; [|discriminate].
    unfold scanning. cbn [stStart stPosition stInput set_Position].
    split; [exact HI | lia].
  - destruct (stPosition st + 1 + 0 <=? stStart st) eqn:El; [lia|].
    inversion H; subst b st'.
    assert (Hsc : scanning (set_Position (set_Position st (stPosition st + 1 + 0))
                                         (stPosition st + 1 + 0 - 1))).
    { unfold scanning. cbn [stStart stPosition stInput set_Position].
      split; [exact HI | lia]. }
    split; [exact Hsc|]. intros _. split; [exact Hsc|].
    cbn [stStart stPosition stInput set_Position]. lia.
Qed.

Lemma isCommentBlock_atStart :
  forall ch st b st',
    atStart st -> isCommentBlock ch st = Ok (b, st') ->
    scanning st' /\ (b = false -> atStart st').
Proof.
  intros ch st b st' Hs H. unfold isCommentBlock in H. look_ahead Hs H.
  destruct Hs as [[HI [Hlo Hhi]] Hp]. rewrite HI in Eg.
  destruct (c0 =? 42); cbn [negb] in H; unfold bind, unread, ret in H;
    cbn [stPosition stStart set_Position] in H.
  - inversion H; subst b st'. split; [|discriminate].
    unfold scanning. cbn [stStart stPosition stInput set_Position].
    split; [exact HI | lia].
  - destruct (stPosition st + 1 + 0 <=? stStart st) eqn:El; [lia|].
    inversion H; subst b st'.
    assert (Hsc : scanning (set_Position (set_Position st (stPosition st + 1 + 0))
                                         (stPosition st + 1 + 0 - 1))).
    { unfold scanning. cbn [stStart stPosition stInput set_Position].
      split; [exact HI | lia]. }
    split; [exact Hsc|]. intros _. split; [exact Hsc|].
    cbn [stStart stPosition stInput set_Position]. lia.
Qed.

Lemma pure_isParameter : forall ch pt, pure (isParameter ch pt).
Proof.
  intros ch pt. unfold isParameter, isCustomParam.
  destruct (ch =? eof); [apply pure_ret|].
  apply pure_bind; [apply pure_peek | intros nextChar].
  apply pure_bind; [apply pure_peekBack | intros prevChar].
  repeat match goal with
         | |- pure (if ?c then _ else _) => destruct c
         | |- pure (match ?x with _ => _ end) => destruct x
         | |- pure (ret _) => apply pure_ret
         | |- pure (lift _) => apply pure_lift
         | |- pure (bind _ _) => apply pure_bind; [|intros ?]
         | |- pure remainingInput => apply pure_remainingInput
         end.
Qed.

(** The token made of one character ends where it starts. *)
Lemma scanIndividualCharacter_atStart :
  forall st o st',
    scanning st -> scanIndividualCharacter st = Ok (o, st') ->
    st' = st /\ forall tok, o = Some tok -> tokEnd tok = stPosition st.
Proof.
  intros st o st' Hs H. unfold scanIndividualCharacter, bind in H.
  destruct (tokenText st) as [[value st1]| |] eqn:E; try discriminate.
  apply (tokenText_spansToCursor Hs) in E. destruct E as [-> Hv].
  destruct (resolveIndividualTokenType value) as [ty|].
  - destruct (tokenOf ty value st) as [[t st2]| |] eqn:E; try discriminate.
    apply (endsWith_tokenOf Hs Hv) in E as He.
    apply pure_tokenOf in E. subst st2.
    inversion H; subst o st'. split; [reflexivity|].
    intros tok Ht. inversion Ht; subst tok. apply He.
  - inversion H; subst o st'. split; [reflexivity | discriminate].
Qed.

(** The token made of one character ends where it starts. *)
Lemma individual_atStart :
  forall st tok st',
    atStart st ->
    (individual <- scanIndividualCharacter ;;
     match individual with
     | Some tok => ret tok
     | None => skipChar
     end) st = Ok (tok, st') ->
    scanning st' /\ tokEnd tok = stPosition st'.
Proof.
  intros st tok st' [Hs Hp] H. unfold bind at 1 in H.
  destruct (scanIndividualCharacter st) as [[o st1]| |] eqn:E; try discriminate.
  apply (scanIndividualCharacter_atStart Hs) in E. destruct E as [-> Ho].
  destruct o as [t|].
  - inversion H; subst t st'. split; [exact Hs | apply Ho; reflexivity].
  - unfold skipChar, bind in H.
    destruct (tokenText st) as [[value st1]| |] eqn:E; try discriminate.
    apply pure_tokenText in E. subst st1.
    inversion H; subst tok st'. split; [exact Hs|]. cbn [tokEnd]. lia.
Qed.

Lemma scanAt_endsAtCursor :
  forall d pt ch st tok st',
    atStart st -> scanAt d pt ch st = Ok (tok, st') ->
    scanning st' /\ tokEnd tok = stPosition st'.
Proof.
  intros d pt ch st tok st' Hs H. unfold scanAt in H.
  destruct (isWhitespace ch); [exact (ends_scanWhitespace (proj1 Hs) H)|].
  run_bind H. eapply isCommentInline_atStart in E; [|exact Hs]. destruct E as [Hsc Hat].
  destruct b; [exact (ends_scanCommentInline Hsc H)|]. specialize (Hat eq_refl).
  clear Hs Hsc. run_bind H. eapply isCommentBlock_atStart in E; [|exact Hat].
  destruct E as [Hsc Hat'].
  destruct b; [exact (ends_scanCommentBlock Hsc H)|]. specialize (Hat' eq_refl).
  clear Hat Hsc.
  destruct (if isString ch d then endTokens ch else None) as [e|];
    [exact (ends_scanString e (proj1 Hat') H)|].
  run_bind H. apply pure_isParameter in E. subst s1.
  destruct b.
  - run_bind H. unfold derefParamTypes in E. destruct pt as [pt|]; [|discriminate].
    inversion E; subst p s1. exact (ends_scanParameter d pt (proj1 Hat') H).
  - run_bind H. unfold isDollarQuotedString in E. run_bind E.
    apply pure_remainingInput in E0. subst s3. inversion E; subst b s1; clear E.
    destruct (dollarQuoteOpener s2);
      [exact (ends_scanDollarQuotedString (proj1 Hat') H)|].
    destruct (if isQuotedIdentifier ch d then endTokens ch else None) as [e|];
      [exact (ends_scanQuotedIdentifier e (proj1 Hat') H)|].
    destruct (isLetter ch); [exact (ends_scanWord (proj1 Hat') H)|].
    exact (individual_atStart Hat' H).
Qed.

(** [ScanToken], called where characters are left: the token ends at the
    cursor. *)
Lemma ScanToken_end :
  forall d pt prev tok st',
    stInput prev = input -> -1 <= stPosition prev < llen input - 1 ->
    ScanToken d pt (initState [] (Some prev)) = Ok (tok, st') ->
    tokEnd tok = stPosition st'.
Proof.
  intros d pt prev tok st' HI Hp H. unfold ScanToken in H. run_bind H.
  apply read0_from_initState in E. destruct E as [[HI1 [HS1 _]] Hpos].
  cbn [initState stInput stStart] in HI1, HS1.
  destruct Hpos as [[_ [_ Hge]] | [_ [Hp1 [Hlo Hhi]]]]; [rewrite HI in Hge; lia|].
  assert (Hat : atStart s).
  { split; [|lia]. unfold scanning. rewrite HI1, HI in *. split; [reflexivity | lia]. }
  eapply scanAt_endsAtCursor in H; [apply H | exact Hat].
Qed.

End AsciiSpans.

(** *** The token stream of Parse on such an input *)

Lemma consecutiveFrom_snoc :
  forall tokens from t,
    consecutiveFrom from tokens (tokStart t) -> tokStart t <= tokEnd t ->
    consecutiveFrom from (tokens ++ [t]) (tokEnd t + 1).
Proof.
  induction tokens as [|a tokens IH]; intros from t H Hle; cbn in *.
  - repeat split; [symmetry; exact H | exact Hle].
  - destruct H as [Ha [Hle' H]]. repeat split; try assumption. apply IH; assumption.
Qed.

(** The tokens collected so far cover the input up to the cursor. *)
Definition tokensCoverPrefix (input : list rune) (ls : loopState) : Prop :=
  stInput (prevState ls) = input
  /\ -1 <= stPosition (prevState ls) <= llen input - 1
  /\ consecutiveFrom 0 (Tokens (topLevelResult ls)) (stPosition (prevState ls) + 1).

Lemma parseIteration_tokensCoverPrefix :
  forall isStrict d tables pt input ls ls',
    Forall (fun r => 0 <= r <= 127) input ->
    tokensCoverPrefix input ls ->
    stPosition (prevState ls) < llen input - 1 ->
    parseIteration isStrict d tables pt ls = Ok ls' ->
    tokensCoverPrefix input ls'.
Proof.
  intros isStrict d tables pt input ls ls' Ha [HI [Hp Hc]] Hlt H.
  unfold parseIteration in H.
  destruct (ScanToken d pt (initState [] (Some (prevState ls)))) as [[token tokenState]| |]
    eqn:ES; cbn [rbind] in H; try discriminate.
  destruct (nextNonWhitespaceToken d pt tokenState) as [nextToken| |];
    cbn [rbind] in H; try discriminate.
  pose proof (ScanToken_end Ha d pt (prevState ls) HI (conj (proj1 Hp) Hlt) ES) as Hend.
  apply ScanToken_spec in ES. destruct ES as [HI' [Hstart [_ [Hadv _]]]].
  rewrite HI in Hadv, HI'. specialize (Hadv Hlt).
  apply dispatch_tokens in H. unfold tokensCoverPrefix.
  destruct H as [[-> ->] | [-> ->]].
  - split; [exact HI'|]. split; [lia|]. rewrite <- Hend.
    apply consecutiveFrom_snoc; [rewrite Hstart; exact Hc | lia].
  - split; [exact HI|]. split; [exact Hp | exact Hc].
Qed.

Lemma Parse_loop_tokensCoverPrefix :
  forall isStrict d tables pt input,
    Forall (fun r => 0 <= r <= 127) input ->
    forall fuel ls ls',
      tokensCoverPrefix input ls ->
      Parse_loop isStrict d tables pt fuel (llen input - 1) ls = Ok ls' ->
      tokensCoverPrefix input ls' /\ llen input - 1 <= stPosition (prevState ls').
Proof.
  intros isStrict d tables pt input Ha.
  induction fuel as [|n IH]; intros ls ls' Hinv H; cbn [Parse_loop] in H;
    [discriminate|].
  destruct (stPosition (prevState ls) <? llen input - 1) eqn:Elt.
  - destruct (parseIteration isStrict d tables pt ls) as [ls1| |] eqn:E; cbn [rbind] in H;
      try discriminate.
    apply (IH ls1 ls'); [|exact H].
    eapply parseIteration_tokensCoverPrefix; try eassumption. lia.
  - inversion H; subst ls'. split; [exact Hinv | lia].
Qed.

(** A Go string that holds ASCII characters only. *)
Definition isASCII (s : string) : Prop :=
  Forall (fun b => b <= 127) (bytes_of_string s).

Lemma decodeRunes_ascii :
  forall bs, Forall (fun b => b <= 127) bs -> decodeRunes bs = bs.
Proof.
  intros bs H. induction H as [|b bs Hb _ IH]; [reflexivity|].
  cbn [decodeRunes]. replace (b <? 128) with true by (symmetry; apply Z.ltb_lt; lia).
  rewrite IH. reflexivity.
Qed.

Lemma runes_of_ascii_string :
  forall s,
    isASCII s ->
    Forall (fun r => 0 <= r <= 127) (runes_of_string s)
    /\ llen (runes_of_string s) = len s.
Proof.
  intros s H. unfold runes_of_string. rewrite (decodeRunes_ascii H). split.
  - unfold isASCII, bytes_of_string in *. rewrite Forall_map in *.
    eapply Forall_impl; [|exact H]. intros a Ha. cbv beta in *.
    unfold byte_of_ascii in *. lia.
  - unfold llen, len, bytes_of_string. rewrite length_map. f_equal.
    induction s as [|c s IH]; cbn; [reflexivity | f_equal; apply IH].
    unfold isASCII, bytes_of_string in H. cbn in H. inversion H; assumption.
Qed.

(** X1: on an input of ASCII characters the spans of the tokens that
    [Parse] returns are consecutive from offset 0 and partition the offsets
    of the input, whatever the mode, the dialect and the parameter
    configuration. *)
Theorem X1_tokens_partition_ascii_input :
  forall isStrict d tables pt (query : string) pr,
    isASCII query ->
    Parse isStrict d tables pt query = Ok pr ->
    tokensPartition (len query) (Tokens pr).
Proof.
  intros isStrict d tables pt query pr Hq H.
  destruct (runes_of_ascii_string Hq) as [Ha Hl]. unfold Parse in H.
  match type of H with rbind (Parse_loop _ _ _ _ ?f ?e ?l) _ = _ =>
    destruct (Parse_loop isStrict d tables pt f e l) as [ls| |] eqn:EL
  end; cbn [rbind] in H; try discriminate.
  inversion H; subst pr; clear H. rewrite finish_tokens.
  cbn [initState stEnd] in EL.
  eapply Parse_loop_tokensCoverPrefix in EL; [|exact Ha|].
  - destruct EL as [[_ [Hp Hc]] Hge]. unfold tokensPartition. rewrite <- Hl.
    unfold rune, llen in *.
    replace (Z.of_nat (@List.length Z (runes_of_string query)))
      with (stPosition (prevState ls) + 1) by lia.
    exact Hc.
  - unfold tokensCoverPrefix. cbn. split; [reflexivity|]. split; [|reflexivity].
    unfold llen. lia.
Qed.

(** ** The start of a statement *)

(** The effect of a step never moves a start that has been set. *)
Definition steadySteps (l : list Step) : Prop :=
  Forall (fun s => forall token st,
              0 <= sStart st -> sStart (Add s token st) = sStart st) l.

Lemma captureTables_start :
  forall p token nextToken,
    sStart (statement (captureTables p token nextToken)) = sStart (statement p).
Proof.
  intros p token nextToken. unfold captureTables.
  repeat match goal with
         | |- context [if ?c then _ else _] => destruct c
         end; reflexivity.
Qed.

Lemma captureParameters_start :
  forall p token,
    sStart (statement (captureParameters p token)) = sStart (statement p).
Proof.
  intros p token. unfold captureParameters.
  repeat match goal with
         | |- context [if ?c then _ else _] => destruct c
         end; reflexivity.
Qed.

Lemma skipModifiers_start :
  forall p token,
    sStart (statement (carried (skipModifiers p token))) = sStart (statement p).
Proof.
  intros p token.
  remember (skipModifiers p token) as f eqn:H. symmetry in H.
  unfold skipModifiers in H.
  repeat (head_step H; try (subst f; simpl; rewrite ?setPrevToken_statement;
                             reflexivity)).
Qed.

Lemma applyStep_start :
  forall p s token,
    steadySteps (steps p) -> In s (steps p) -> 0 <= sStart (statement p) ->
    sStart (statement (applyStep p s token)) = sStart (statement p).
Proof.
  intros p s token Hq Hin H0. unfold steadySteps in Hq. rewrite Forall_forall in Hq.
  pose proof (Hq s Hin token (statement p) H0) as He.
  unfold applyStep. rewrite setPrevToken_statement.
  destruct (PostCanGoToNext s token); cbn; exact He.
Qed.

Lemma runStep_start :
  forall p token p',
    steadySteps (steps p) -> 0 <= sStart (statement p) ->
    runStep p token = Ok p' ->
    sStart (statement p') = sStart (statement p).
Proof.
  intros p token p' Hq H0 H. unfold runStep in H.
  destruct (currentStepOf p token) as [[q s]| |] eqn:E; cbn [rbind] in H; try discriminate.
  apply currentStepOf_frame in E. destruct E as [Hin [Hst Hsteps]].
  destruct (missingPredecessor q s token); [discriminate|].
  destruct (negb (isValidToken s token) && IsStrict (options q)); [discriminate|].
  inversion H; subst p'; clear H.
  rewrite applyStep_start; rewrite ?Hsteps, ?Hst; auto.
Qed.

(** Once the start of the statement is set, [AddToken] leaves it alone. *)
Lemma AddToken_start :
  forall p token nextToken p',
    steadySteps (steps p) -> 0 <= sStart (statement p) ->
    AddToken p token nextToken = Ok p' ->
    sStart (statement p') = sStart (statement p).
Proof.
  intros p token nextToken p' Hq H0 H. unfold AddToken in H.
  destruct (sEndStatement (statement p)); [discriminate|].
  match type of H with (if ?c then _ else _) = _ => destruct c end;
    [inversion H; reflexivity|].
  match type of H with (if ?c then _ else _) = _ => destruct c end.
  { inversion H; subst. rewrite setPrevToken_statement.
    match goal with |- context [if ?c then _ else _] => destruct c end; reflexivity. }
  destruct (TokenType_eqb (tokType token) TokenWhitespace).
  { inversion H; subst. rewrite setPrevToken_statement. reflexivity. }
  destruct (openBlock_statement p token nextToken) as [Hob Hobs].
  destruct (openBlock p token nextToken) as [q|q]; simpl in Hob, Hobs.
  { inversion H; subst. rewrite Hob. reflexivity. }
  pose proof (captureTables_start q token nextToken) as Ht.
  pose proof (captureParameters_start (captureTables q token nextToken) token) as Hp.
  destruct (captureTables_frame q token nextToken) as [_ [_ Ht2]].
  destruct (captureParameters_frame (captureTables q token nextToken) token) as [_ [Hp2 _]].
  set (q2 := captureParameters (captureTables q token nextToken) token) in *.
  assert (Hs2 : sStart (statement q2) = sStart (statement p)) by congruence.
  assert (Hst2 : steps q2 = steps p) by congruence.
  match type of H with (if ?c then _ else _) = _ => destruct c end.
  { inversion H; subst. rewrite setPrevToken_statement. exact Hs2. }
  pose proof (skipModifiers_start q2 token) as Hm.
  destruct (skipModifiers_frame q2 token) as [_ [_ Hm2]].
  destruct (skipModifiers q2 token) as [q3|q3]; simpl in Hm, Hm2.
  { inversion H; subst. congruence. }
  apply runStep_start in H; [congruence | rewrite Hm2, Hst2; exact Hq | lia].
Qed.

(** *** The first token of a statement *)

(** The words that [AddToken] passes over before the statement's object. *)
Definition isModifierWord (u : string) : bool :=
  contains_string
    ["UNIQUE"; "FULLTEXT"; "SPATIAL"; "CLUSTERED"; "NONCLUSTERED"; "MATERIALIZED";
     "OR"; "TEMP"; "TEMPORARY"; "VIRTUAL"; "DEFINER"; "ALGORITHM"; "SQL"] u.

Lemma skipModifiers_plain :
  forall p token,
    isModifierWord (ToUpper (tokValue token)) = false ->
    match prevNonWhitespaceToken p with
    | Some t => String.eqb (ToUpper (tokValue t)) "OR"
    | None => false
    end = false ->
    sDefiner (statement p) = None ->
    sAlgorithm (statement p) = None ->
    sSQLSecurity (statement p) = None ->
    skipModifiers p token = Continue p.
Proof.
  intros p token Hw Hor Hd Ha Hs. unfold skipModifiers.
  unfold isModifierWord, contains_string in Hw. cbn [existsb] in Hw.
  repeat (apply orb_false_elim in Hw; destruct Hw as [? Hw]).
  repeat match goal with
         | E : String.eqb (ToUpper (tokValue token)) _ = false |- _ => rewrite E; clear E
         end.
  rewrite Hor, Hd, Ha, Hs.
  cbn [orb andb]. rewrite ?andb_false_r, ?orb_false_r. cbn [orb andb].
  rewrite ?andb_false_r, ?orb_false_r. reflexivity.
Qed.

(** A parser that has not been fed a token. *)
Record freshParser (p : stateMachineParser) : Prop := mkFresh {
  fresh_start : sStart (statement p) = -1;
  fresh_end : sEndStatement (statement p) = None;
  fresh_definer : sDefiner (statement p) = None;
  fresh_algorithm : sAlgorithm (statement p) = None;
  fresh_security : sSQLSecurity (statement p) = None;
  fresh_openBlocks : openBlocks p = 0;
  fresh_opener : lastBlockOpener p = None;
  fresh_anon : anonBlockStarted p = false;
  fresh_type : sType (statement p) = None \/ sType (statement p) = Some StatementAnonBlock;
  fresh_prev : prevToken p = None;
  fresh_prevNonWhitespace : prevNonWhitespaceToken p = None;
  fresh_index : currentStepIndex p = 0;
  fresh_step :
    exists step0 rest,
      steps p = step0 :: rest
      /\ (forall token, PreCanGoToNext step0 token = false)
      /\ match Validation step0 with Some v => RequireBefore v = [] | None => True end
      /\ (forall token st, sStart st < 0 -> sStart (Add step0 token st) = tokStart token)
}.

(** A keyword that opens a block does not end the dispatch of the first
    token. *)
Lemma openBlock_fresh :
  forall p token nextToken,
    freshParser p ->
    exists q,
      openBlock p token nextToken = Continue q
      /\ statement q = statement p /\ steps q = steps p
      /\ currentStepIndex q = currentStepIndex p /\ options q = options p
      /\ (prevNonWhitespaceToken q = None \/ prevNonWhitespaceToken q = Some token).
Proof.
  intros p token nextToken F. unfold openBlock.
  assert (Hk : forall q' : stateMachineParser,
             statement q' = statement p -> steps q' = steps p ->
             currentStepIndex q' = currentStepIndex p -> options q' = options p ->
             (prevNonWhitespaceToken q' = None \/ prevNonWhitespaceToken q' = Some token) ->
             exists q,
               Continue q' = Continue q
               /\ statement q = statement p /\ steps q = steps p
               /\ currentStepIndex q = currentStepIndex p /\ options q = options p
               /\ (prevNonWhitespaceToken q = None \/ prevNonWhitespaceToken q = Some token)).
  { intros q' H1 H2 H3 H4 H5. exists q'. repeat split; assumption. }
  pose proof (fresh_prevNonWhitespace F) as Hpn.
  destruct (TokenType_eqb (tokType token) TokenKeyword) eqn:Ek;
    [|apply Hk; auto].
  match goal with |- context [if ?c then _ else _] => destruct c end;
    [|apply Hk; auto].
  match goal with |- context [if ?c then _ else _] => destruct c end;
    [|apply Hk; auto].
  rewrite (fresh_opener F). rewrite andb_false_r. cbn [andb].
  assert (Hnw : negb (TokenType_eqb (tokType token) TokenWhitespace) = true).
  { destruct (tokType token); try discriminate Ek. reflexivity. }
  assert (Hset : forall r : stateMachineParser,
             prevNonWhitespaceToken (setPrevToken r token) = Some token).
  { intros r. unfold setPrevToken. rewrite Hnw. reflexivity. }
  unfold typeIs. rewrite !setPrevToken_statement. cbn [statement set_lastBlockOpener
    set_openBlocks anonBlockStarted].
  assert (Han : anonBlockStarted
                  (setPrevToken
                     (set_lastBlockOpener (set_openBlocks p (openBlocks p + 1)) (Some token))
                     token) = false).
  { unfold setPrevToken. rewrite Hnw. cbn. apply (fresh_anon F). }
  rewrite Han. cbn [negb].
  destruct (fresh_type F) as [Ht | Ht]; rewrite Ht.
  - apply Hk; rewrite ?setPrevToken_statement, ?setPrevToken_steps, ?setPrevToken_options;
      try reflexivity.
    + unfold setPrevToken. rewrite Hnw. reflexivity.
    + right. apply Hset.
  - cbn [String.eqb andb]. replace (String.eqb StatementAnonBlock StatementAnonBlock)
      with true by reflexivity. cbn [andb].
    apply Hk; cbn; rewrite ?setPrevToken_statement, ?setPrevToken_steps,
                     ?setPrevToken_options; try reflexivity.
    + unfold setPrevToken. rewrite Hnw. reflexivity.
    + right. apply Hset.
Qed.

Lemma captureTables_fields :
  forall p token nextToken,
    let q := captureTables p token nextToken in
    steps q = steps p /\ options q = options p /\ currentStepIndex q = currentStepIndex p
    /\ prevToken q = prevToken p /\ prevNonWhitespaceToken q = prevNonWhitespaceToken p
    /\ sStart (statement q) = sStart (statement p)
    /\ sType (statement q) = sType (statement p)
    /\ sDefiner (statement q) = sDefiner (statement p)
    /\ sAlgorithm (statement q) = sAlgorithm (statement p)
    /\ sSQLSecurity (statement q) = sSQLSecurity (statement p).
Proof.
  intros p token nextToken. unfold captureTables.
  repeat match goal with
         | |- context [if ?c then _ else _] => destruct c
         end; cbn; repeat split; reflexivity.
Qed.

Lemma captureParameters_fields :
  forall p token,
    let q := captureParameters p token in
    steps q = steps p /\ options q = options p /\ currentStepIndex q = currentStepIndex p
    /\ prevToken q = prevToken p /\ prevNonWhitespaceToken q = prevNonWhitespaceToken p
    /\ sStart (statement q) = sStart (statement p)
    /\ sType (statement q) = sType (statement p)
    /\ sDefiner (statement q) = sDefiner (statement p)
    /\ sAlgorithm (statement q) = sAlgorithm (statement p)
    /\ sSQLSecurity (statement q) = sSQLSecurity (statement p).
Proof.
  intros p token. unfold captureParameters.
  repeat match goal with
         | |- context [if ?c then _ else _] => destruct c
         end; cbn; repeat split; reflexivity.
Qed.

(** The first token of a statement, when it is a keyword that is no
    modifier, goes through the first step and gives the statement its
    start. *)
Lemma AddToken_first :
  forall p token nextToken p',
    freshParser p ->
    tokType token = TokenKeyword ->
    isModifierWord (ToUpper (tokValue token)) = false ->
    AddToken p token nextToken = Ok p' ->
    sStart (statement p') = tokStart token.
Proof.
  intros p token nextToken p' F Hk Hw H. unfold AddToken in H.
  rewrite (fresh_end F), Hk, (fresh_openBlocks F) in H. cbn [TokenType_eqb andb] in H.
  change (0 >? 0) with false in H. cbn [andb] in H.
  destruct (openBlock_fresh token nextToken F) as [q [Eo [Hst [Hsteps [Hidx [Hopt Hpn]]]]]].
  rewrite Eo in H.
  destruct (captureTables_fields q token nextToken)
    as [T1 [T2 [T3 [T4 [T5 [T6 [T7 [T8 [T9 T10]]]]]]]]].
  destruct (captureParameters_fields (captureTables q token nextToken) token)
    as [P1 [P2 [P3 [P4 [P5 [P6 [P7 [P8 [P9 P10]]]]]]]]].
  set (q2 := captureParameters (captureTables q token nextToken) token) in *.
  assert (Hs2 : sStart (statement q2) = -1).
  { rewrite P6, T6, Hst. apply (fresh_start F). }
  rewrite Hs2 in H. change (-1 >=? 0) with false in H. rewrite andb_false_r in H.
  assert (Hor : String.eqb (ToUpper (tokValue token)) "OR" = false).
  { unfold isModifierWord, contains_string in Hw. cbn [existsb] in Hw.
    repeat (apply orb_false_elim in Hw; destruct Hw as [? Hw]). assumption. }
  rewrite skipModifiers_plain in H; try assumption.
  - unfold runStep, currentStepOf, stepAt in H.
    destruct (fresh_step F) as [step0 [rest [Est [Hpre [Hreq Hadd]]]]].
    rewrite P3, T3, Hidx, (fresh_index F), P1, T1, Hsteps, Est in H.
    assert (Hc : (0 <=? 0) && (0 <? llen (step0 :: rest)) = true).
    { unfold llen. cbn [List.length]. apply andb_true_iff.
      split; [reflexivity | apply Z.ltb_lt; lia]. }
    rewrite Hc in H. cbn [rbind nth_error Z.to_nat] in H. rewrite Hpre in H.
    cbn [rbind] in H.
    assert (Hmp : missingPredecessor q2 step0 token = None).
    { unfold missingPredecessor. destruct (prevToken q2); [|reflexivity].
      destruct (Validation step0) as [v|]; [|reflexivity].
      rewrite Hreq. cbn. rewrite ?andb_false_r. reflexivity. }
    rewrite Hmp in H.
    destruct (negb (isValidToken step0 token) && IsStrict (options q2)); [discriminate|].
    inversion H; subst p'; clear H.
    unfold applyStep. rewrite setPrevToken_statement.
    destruct (PostCanGoToNext step0 token); cbn; apply Hadd; lia.
  - rewrite P5, T5. destruct Hpn as [-> | ->]; [reflexivity | exact Hor].
  - rewrite P8, T8, Hst. apply (fresh_definer F).
  - rewrite P9, T9, Hst. apply (fresh_algorithm F).
  - rewrite P10, T10, Hst. apply (fresh_security F).
Qed.

Lemma setStartIfUnset_start :
  forall token st, sStart st < 0 -> sStart (setStartIfUnset token st) = tokStart token.
Proof.
  intros token st H. unfold setStartIfUnset.
  destruct (sStart st <? 0) eqn:E; [reflexivity | lia].
Qed.

Lemma setStartIfUnset_steady :
  forall token st, 0 <= sStart st -> sStart (setStartIfUnset token st) = sStart st.
Proof.
  intros token st H. unfold setStartIfUnset.
  destruct (sStart st <? 0) eqn:E; [lia | reflexivity].
Qed.

Lemma TokenType_eqb_eq : forall a b, TokenType_eqb a b = true -> a = b.
Proof. intros a b H. destruct a, b; try discriminate H; reflexivity. Qed.

Ltac unfold_parsers :=
  cbn [steps statement createSelectStatementParser createCreateStatementParser
         createShowStatementParser createDropStatementParser
         createAlterStatementParser createInsertStatementParser
         createUpdateStatementParser createDeleteStatementParser
         createTruncateStatementParser createBlockStatementParser
         createUnknownStatementParser stateMachineStatementParser].

Ltac steady_steps :=
  unfold steadySteps; unfold_parsers;
  repeat (apply Forall_cons;
          [intros tk st Hst; cbn [Add singleStep verbStep objectStep];
           rewrite ?setStartIfUnset_steady by (cbn; exact Hst); reflexivity|]);
  apply Forall_nil.

Ltac fresh_parser :=
  constructor; try reflexivity; try (left; reflexivity); try (right; reflexivity);
  unfold_parsers;
  eexists; eexists; split; [reflexivity|];
  split; [intros; reflexivity|];
  split; [cbn; auto|];
  cbn [Add singleStep verbStep objectStep]; intros tk st Hst;
  rewrite setStartIfUnset_start by (cbn; exact Hst); reflexivity.

Ltac strict_verb token :=
  intros Hstrict;
  first [ congruence
        | match goal with
          | E : negb (IsStrict _) = true |- _ => rewrite Hstrict in E; discriminate E
          end
        | split;
          [apply TokenType_eqb_eq; assumption
          |match goal with
           | E : String.eqb (ToUpper (tokValue token)) ?w = true |- _ =>
             apply String.eqb_eq in E; rewrite E; reflexivity
           end] ].

(** What [createStatementParserByToken] returns is a parser that has not
    been fed, with steps that keep a start once it is set; in strict mode
    the token is one of the verbs, which are no modifiers. *)
Lemma createStatementParserByToken_fresh :
  forall token nextToken options p,
    createStatementParserByToken token nextToken options = Ok p ->
    freshParser p
    /\ steadySteps (steps p)
    /\ (IsStrict options = true ->
        tokType token = TokenKeyword
        /\ isModifierWord (ToUpper (tokValue token)) = false).
Proof.
  intros token nextToken options p H.
  unfold createStatementParserByToken in H.
  repeat (head_step H; try discriminate);
    inversion H; subst p; clear H;
    (split; [fresh_parser | split; [steady_steps | strict_verb token]]).
Qed.

(** *** The span of a semicolon token *)

Lemma semicolon_individual :
  ensures (individual <- scanIndividualCharacter ;;
           match individual with
           | Some tok => ret tok
           | None => skipChar
           end)
          (fun tok _ => tokType tok = TokenSemicolon -> tokEnd tok = tokStart tok).
Proof.
  intros st tok st' H. unfold bind at 1 in H.
  destruct (scanIndividualCharacter st) as [[o s]| |] eqn:E; try discriminate.
  destruct o as [t|].
  - inversion H; subst t s; clear H. unfold scanIndividualCharacter, bind in E.
    destruct (tokenText st) as [[value s1]| |]; try discriminate.
    unfold resolveIndividualTokenType in E.
    destruct (String.eqb value ";") eqn:Ev; [|discriminate].
    apply String.eqb_eq in Ev. subst value.
    unfold tokenOf, bind, get, ret in E. inversion E; subst tok. intros _.
    cbn [tokEnd tokStart]. change (len ";") with 1. lia.
  - apply (@ensures_skipChar (fun tok _ => tokType tok = TokenSemicolon ->
                                            tokEnd tok = tokStart tok)) in H;
      [exact H | intros value st2 Ht; discriminate Ht].
Qed.

Lemma semicolon_scanAt :
  forall d pt ch,
    ensures (scanAt d pt ch)
            (fun tok _ => tokType tok = TokenSemicolon -> tokEnd tok = tokStart tok).
Proof.
  intros d pt ch.
  assert (Hw : forall kinds (m : M Token),
             ~ In TokenSemicolon kinds -> ensures m (made kinds) ->
             ensures m (fun tok _ => tokType tok = TokenSemicolon ->
                                     tokEnd tok = tokStart tok)).
  { intros kinds m Hn Hm st tok st' H. apply Hm in H. destruct H as [_ Hk].
    intros Ht. rewrite Ht in Hk. contradiction. }
  unfold scanAt.
  repeat lazymatch goal with
         | |- ensures (bind scanIndividualCharacter _) _ => fail
         | _ => ensures_step
         end;
    first [ apply semicolon_individual
          | eapply Hw; [|first [ apply made_scanWhitespace | apply made_scanCommentInline
                               | apply made_scanCommentBlock
                               | apply made_scanString | apply made_scanParameter
                               | apply made_scanDollarQuotedString
                               | apply made_scanQuotedIdentifier | apply made_scanWord ]];
            cbn; intuition discriminate ].
Qed.

Lemma ScanToken_semicolon :
  forall d pt st tok st',
    ScanToken d pt st = Ok (tok, st') ->
    tokType tok = TokenSemicolon -> tokEnd tok = tokStart tok.
Proof.
  intros d pt st tok st' H. unfold ScanToken in H. run_bind H.
  eapply semicolon_scanAt. exact H.
Qed.

(** *** The statements of Parse in strict mode *)

(** Every statement of the body lies before the offset [n]. *)
Definition liesBefore (body : list ConcreteStatement) (n : Z) : Prop :=
  Forall (fun c => cStart c < n /\ cEnd c < n) body.

Lemma liesBefore_le :
  forall body n m, liesBefore body n -> n <= m -> liesBefore body m.
Proof.
  intros body n m H Hle. unfold liesBefore in *.
  eapply Forall_impl; [|exact H]. cbv beta. intros c [H1 H2]. lia.
Qed.

Lemma spansIncrease_snoc :
  forall body c,
    spansIncrease body -> liesBefore body (cStart c) -> spansIncrease (body ++ [c]).
Proof.
  intros body c Hs Hb i j a b Ha Hb' Hij.
  assert (Hj : (j < List.length (body ++ [c]))%nat)
    by (apply nth_error_Some; congruence).
  rewrite length_app in Hj. cbn [List.length] in Hj.
  rewrite nth_error_app1 in Ha by lia.
  destruct (Nat.eq_dec j (List.length body)) as [-> | Hne].
  - rewrite nth_error_app2 in Hb' by lia. rewrite Nat.sub_diag in Hb'.
    inversion Hb'; subst b. unfold liesBefore in Hb. rewrite Forall_forall in Hb.
    apply Hb. eapply nth_error_In. exact Ha.
  - rewrite nth_error_app1 in Hb' by lia. eapply Hs; eassumption.
Qed.

Lemma ScanToken_cursorStart :
  forall d pt prev tok st',
    ScanToken d pt (initState [] (Some prev)) = Ok (tok, st') ->
    stStart st' = stPosition prev + 1.
Proof.
  intros d pt prev tok st' H. unfold ScanToken in H. run_bind H.
  apply read0_from_initState in E. destruct E as [Hsame _].
  pose proof (keeps_scanAt (closed_sameInput (initState [] (Some prev))) d pt r _ Hsame H)
    as [_ [HS _]].
  exact HS.
Qed.

Section StrictSpans.

Variable d : Dialect.
Variable tables : bool.
Variable pt : option ParamTypes.

(** The parser has just been created for the token at the cursor, which is
    one of the verbs. *)
Definition awaitsVerb (prev : State) (p : stateMachineParser) : Prop :=
  freshParser p
  /\ stPosition prev < llen (stInput prev) - 1
  /\ forall token tokenState,
      ScanToken d pt (initState [] (Some prev)) = Ok (token, tokenState) ->
      tokType token = TokenKeyword
      /\ isModifierWord (ToUpper (tokValue token)) = false.

(** The invariant of the loop of [Parse]: the body is in order, and it lies
    before the statement that is open, before the common table expression
    that is being read, or before the next token. *)
Definition inOrder (ls : loopState) : Prop :=
  let body := Body (topLevelResult ls) in
  let pos := stPosition (prevState ls) in
  spansIncrease body /\ -1 <= pos
  /\ match statementParser ls with
     | Some p =>
       isCte (cte ls) = false
       /\ quietSteps (steps p) /\ steadySteps (steps p)
       /\ sEndStatement (statement p) = None
       /\ ((0 <= sStart (statement p) <= pos /\ liesBefore body (sStart (statement p)))
           \/ (liesBefore body (pos + 1) /\ awaitsVerb (prevState ls) p))
     | None =>
       if isCte (cte ls)
       then 0 <= stStart (cteCursor (cte ls)) <= pos
            /\ liesBefore body (stStart (cteCursor (cte ls)))
       else liesBefore body (pos + 1)
     end.

Lemma insideStatement_inOrder :
  forall ls p token nextToken tokenState ls',
    inOrder ls -> statementParser ls = Some p ->
    stPosition (prevState ls) < llen (stInput (prevState ls)) - 1 ->
    ScanToken d pt (initState [] (Some (prevState ls))) = Ok (token, tokenState) ->
    insideStatement ls p token nextToken tokenState = Ok ls' ->
    inOrder ls'.
Proof.
  intros ls p token nextToken tokenState ls' [Hs [Hpos Hph]] Ep Hlt ES H.
  rewrite Ep in Hph. destruct Hph as [Hcte [Hq [Hsteady [Hend Hph]]]].
  pose proof (@ScanToken_semicolon d pt _ _ _ ES) as Hsemi.
  pose proof (@ScanToken_spec d pt _ _ _ ES) as [_ [Hstart [_ [Hadv _]]]].
  specialize (Hadv Hlt).
  unfold insideStatement in H.
  destruct (AddToken p token nextToken) as [p'| |] eqn:EA; cbn [rbind] in H;
    try discriminate.
  pose proof (@AddToken_endMarker p token nextToken p' Hq EA) as [_ [Hsteps Hmark]].
  assert (Hstart' : 0 <= sStart (statement p') <= stPosition tokenState
                    /\ liesBefore (Body (topLevelResult ls)) (sStart (statement p'))
                    /\ (TokenType_eqb (tokType token) TokenSemicolon = true ->
                        sStart (statement p') <= stPosition (prevState ls))).
  { destruct Hph as [[Hst Hb] | [Hb [Hf [_ Hverb]]]].
    - rewrite (@AddToken_start p token nextToken p' Hsteady (proj1 Hst) EA).
      split; [lia|]. split; [exact Hb | intros _; lia].
    - destruct (Hverb token tokenState ES) as [Hk Hw].
      rewrite (@AddToken_first p token nextToken p' Hf Hk Hw EA), Hstart.
      split; [lia|]. split; [exact Hb|]. rewrite Hk. discriminate. }
  destruct Hstart' as [Hst' [Hb' Hsc]].
  unfold GetStatement in H.
  destruct (sEndStatement (statement p')) as [marker|] eqn:Eend'.
  - (* the statement ends on this token, a semicolon *)
    destruct Hmark as [[Ht _] | [_ Hn]]; [|congruence].
    apply andb_true_iff in Ht. destruct Ht as [Ht _].
    specialize (Hsc Ht). apply TokenType_eqb_eq in Ht. specialize (Hsemi Ht).
    inversion H; subst ls'; clear H. unfold inOrder.
    cbn [topLevelResult prevState statementParser cte Body appendBody appendToken].
    rewrite Hcte.
    split; [apply spansIncrease_snoc; [exact Hs | exact Hb']|].
    split; [lia|].
    unfold liesBefore. apply Forall_app. split.
    + apply (liesBefore_le Hb'). lia.
    + constructor; [|constructor]. cbn [ToConcrete cStart cEnd set_sEnd sStart sEnd]. lia.
  - inversion H; subst ls'; clear H. unfold inOrder.
    cbn [topLevelResult prevState statementParser cte Body appendBody appendToken].
    split; [exact Hs|]. split; [lia|].
    split; [exact Hcte|]. rewrite Hsteps.
    split; [exact Hq|]. split; [exact Hsteady|]. split; [exact Eend'|].
    left. split; [exact Hst' | exact Hb'].
Qed.


Lemma rememberParameter_inOrder :
  forall token ls, inOrder ls -> inOrder (rememberParameter token ls).
Proof.
  intros token ls H. unfold rememberParameter.
  destruct (isCte (cte ls) && TokenType_eqb (tokType token) TokenParameter) eqn:E;
    [|exact H].
  apply andb_true_iff in E. destruct E as [Ec _].
  unfold inOrder in *. cbn [topLevelResult prevState statementParser cte isCte cteCursor].
  rewrite Ec in *. exact H.
Qed.

Lemma outsideStatement_inOrder :
  forall ls token nextToken tokenState ls',
    inOrder ls -> statementParser ls = None ->
    stPosition (prevState ls) < llen (stInput (prevState ls)) - 1 ->
    ScanToken d pt (initState [] (Some (prevState ls))) = Ok (token, tokenState) ->
    outsideStatement true d tables pt ls token nextToken tokenState = Ok ls' ->
    inOrder ls'.
Proof.
  intros ls token nextToken tokenState ls' [Hs [Hpos Hph]] Ep Hlt ES H.
  rewrite Ep in Hph.
  pose proof (@ScanToken_semicolon d pt _ _ _ ES) as Hsemi.
  pose proof (@ScanToken_cursorStart d pt _ _ _ ES) as Hcur.
  pose proof (@ScanToken_spec d pt _ _ _ ES) as [_ [Hstart [_ [Hadv _]]]].
  specialize (Hadv Hlt).
  unfold outsideStatement in H.
  match type of H with rbind ?r _ = _ => destruct r as [ls1| |] eqn:E1 end;
    cbn [rbind] in H; try discriminate.
  inversion H; subst ls'; clear H. apply rememberParameter_inOrder.
  destruct (isCte (cte ls)) eqn:Ec; cbn [negb andb] in E1.
  - (* a common table expression is being read *)
    destruct Hph as [Hc Hb].
    destruct (TokenType_eqb (tokType token) TokenSemicolon) eqn:Et.
    { apply TokenType_eqb_eq in Et. specialize (Hsemi Et).
      inversion E1; subst ls1; clear E1. unfold inOrder.
      cbn [topLevelResult prevState statementParser cte isCte cteCursor Body
             appendBody appendToken consume].
      rewrite Ep.
      split; [apply spansIncrease_snoc; [exact Hs | exact Hb]|].
      split; [lia|].
      unfold liesBefore. apply Forall_app. split.
      - apply (liesBefore_le Hb). lia.
      - constructor; [|constructor]. cbn [cStart cEnd]. lia. }
    assert (Hkeep : forall c' : cteState,
               isCte c' = true -> cteCursor c' = cteCursor (cte ls) ->
               inOrder (consume ls c' token tokenState)).
    { intros c' H1 H2. unfold inOrder.
      cbn [topLevelResult prevState statementParser cte Body appendToken consume].
      rewrite Ep, H1, H2.
      split; [exact Hs|]. split; [lia|]. split; [lia | exact Hb]. }
    destruct (negb (statementEnd (cte ls))) eqn:Ese.
    { inversion E1; subst ls1; clear E1.
      apply Hkeep;
        repeat match goal with
               | |- context [if ?c then _ else _] => destruct c
               end; first [reflexivity | exact Ec]. }
    destruct (statementEnd (cte ls) && String.eqb (tokValue token) ",").
    { inversion E1; subst ls1; clear E1. apply Hkeep; reflexivity. }
    destruct (statementEnd (cte ls) && isBlank (tokType token)).
    { inversion E1; subst ls1; clear E1. apply Hkeep; [exact Ec | reflexivity]. }
    destruct (createStatementParserByToken token nextToken
                (mkParseOptions true d tables pt)) as [p| |] eqn:EC;
      cbn [rbind] in E1; try discriminate.
    inversion E1; subst ls1; clear E1.
    destruct (createStatementParserByToken_quiet _ _ _ EC) as [Hq [Hend _]].
    destruct (createStatementParserByToken_fresh _ _ _ EC) as [_ [Hsteady _]].
    unfold inOrder, GetStatement.
    cbn [topLevelResult prevState statementParser cte isCte statement steps
           set_statement set_sStart set_sIsCte set_sParameters sStart sEndStatement].
    split; [exact Hs|]. split; [exact Hpos|]. split; [reflexivity|].
    split; [exact Hq|]. split; [exact Hsteady|]. split; [exact Hend|].
    left. split; [exact Hc | exact Hb].
  - (* between statements *)
    destruct (isBlank (tokType token)).
    { inversion E1; subst ls1; clear E1. unfold inOrder.
      cbn [topLevelResult prevState statementParser cte Body appendToken consume].
      rewrite Ep, Ec.
      split; [exact Hs|]. split; [lia|]. apply (liesBefore_le Hph). lia. }
    destruct (TokenType_eqb (tokType token) TokenKeyword
              && String.eqb (ToUpper (tokValue token)) "WITH").
    { inversion E1; subst ls1; clear E1. unfold inOrder.
      cbn [topLevelResult prevState statementParser cte isCte cteCursor Body
             appendToken consume].
      rewrite Ep, Hcur.
      split; [exact Hs|]. split; [lia|]. split; [lia | exact Hph]. }
    destruct (createStatementParserByToken token nextToken
                (mkParseOptions true d tables pt)) as [p| |] eqn:EC;
      cbn [rbind] in E1; try discriminate.
    inversion E1; subst ls1; clear E1.
    destruct (createStatementParserByToken_quiet _ _ _ EC) as [Hq [Hend _]].
    destruct (createStatementParserByToken_fresh _ _ _ EC) as [Hf [Hsteady Hverb]].
    specialize (Hverb eq_refl).
    unfold inOrder.
    cbn [topLevelResult prevState statementParser cte].
    split; [exact Hs|]. split; [exact Hpos|]. split; [exact Ec|].
    split; [exact Hq|]. split; [exact Hsteady|]. split; [exact Hend|].
    right. split; [exact Hph|]. split; [exact Hf|]. split; [exact Hlt|].
    intros token' tokenState' ES'. rewrite ES in ES'. inversion ES'; subst token'.
    exact Hverb.
Qed.

Lemma parseIteration_inOrder :
  forall ls ls',
    inOrder ls ->
    stPosition (prevState ls) < llen (stInput (prevState ls)) - 1 ->
    parseIteration true d tables pt ls = Ok ls' ->
    inOrder ls'.
Proof.
  intros ls ls' Hin Hlt H. unfold parseIteration in H.
  destruct (ScanToken d pt (initState [] (Some (prevState ls)))) as [[token tokenState]| |]
    eqn:ES; cbn [rbind] in H; try discriminate.
  destruct (nextNonWhitespaceToken d pt tokenState) as [nextToken| |];
    cbn [rbind] in H; try discriminate.
  unfold dispatch in H. destruct (statementParser ls) as [p|] eqn:Ep.
  - eapply insideStatement_inOrder; eassumption.
  - eapply outsideStatement_inOrder; eassumption.
Qed.

Lemma Parse_loop_inOrder :
  forall input fuel ls ls',
    stInput (prevState ls) = input -> inOrder ls ->
    Parse_loop true d tables pt fuel (llen input - 1) ls = Ok ls' ->
    inOrder ls' /\ llen (stInput (prevState ls')) - 1 <= stPosition (prevState ls').
Proof.
  intros input. induction fuel as [|n IH]; intros ls ls' HI Hin H; cbn [Parse_loop] in H;
    [discriminate|].
  destruct (stPosition (prevState ls) <? llen input - 1) eqn:Elt.
  - destruct (parseIteration true d tables pt ls) as [ls1| |] eqn:E; cbn [rbind] in H;
      try discriminate.
    apply Z.ltb_lt in Elt. rewrite <- HI in Elt.
    apply (IH ls1 ls'); [| |exact H].
    + apply parseIteration_decreases in E; [|exact Elt]. destruct E as [HI' _].
      congruence.
    + eapply parseIteration_inOrder; eassumption.
  - inversion H; subst ls'. split; [exact Hin | rewrite HI; lia].
Qed.

End StrictSpans.

(** X2: in strict mode the statement spans that [Parse] returns are
    strictly increasing by start and do not overlap, on every input, for
    every dialect and parameter configuration. *)
Theorem X2_statement_spans_increase_in_strict_mode :
  forall d tables pt (query : string) pr,
    Parse true d tables pt query = Ok pr -> spansIncrease (Body pr).
Proof.
  intros d tables pt query pr H. unfold Parse in H.
  match type of H with rbind (Parse_loop _ _ _ _ ?f ?e ?l) _ = _ =>
    destruct (Parse_loop true d tables pt f e l) as [ls| |] eqn:EL
  end; cbn [rbind] in H; try discriminate.
  inversion H; subst pr; clear H. cbn [initState stEnd] in EL.
  eapply Parse_loop_inOrder in EL; [|reflexivity|].
  - destruct EL as [[Hs [Hpos Hph]] Hge]. unfold finish.
    destruct (statementParser ls) as [p|]; [|exact Hs].
    destruct Hph as [_ [_ [_ [Hend Hph]]]]. unfold GetStatement. rewrite Hend.
    cbn [Body appendBody]. apply spansIncrease_snoc; [exact Hs|].
    cbn [ToConcrete cStart set_sEnd sStart].
    destruct Hph as [[_ Hb] | [_ [_ [Hlt _]]]]; [exact Hb | lia].
  - unfold inOrder. cbn. split.
    + intros i j a b Ha. destruct i; discriminate Ha.
    + split; [lia | constructor].
Qed.

(** The two bytes of U+00E9. *)
Definition e_acute : string := String "195"%char (String "169"%char EmptyString).

(** C2, at an input with a character outside ASCII: the string token
    ['e-acute'] covers the three characters at offsets 7 to 9, but its end
    is computed from the length of its text in bytes and comes out as 10,
    the offset of the semicolon token that follows. The token spans are not
    consecutive, for the length of the input in characters (19) as for its
    length in bytes (20). *)
Theorem C2_token_end_counts_bytes :
  let query := "SELECT '" +s+ e_acute +s+ "';SELECT 1" in
  exists pr : ParseResult,
    Parse true DialectGeneric false (Some (DefaultParamTypesFor DialectGeneric)) query
    = Ok pr
    /\ llen (runes_of_string query) = 19 /\ len query = 20
    /\ nth_error (Tokens pr) 2
       = Some (mkToken TokenString ("'" +s+ e_acute +s+ "'") 7 10)
    /\ nth_error (Tokens pr) 3 = Some (mkToken TokenSemicolon ";" 10 10)
    /\ ~ tokensPartition 19 (Tokens pr)
    /\ ~ tokensPartition 20 (Tokens pr).
Proof.
  cbv zeta. eexists. split; [vm_compute; reflexivity|].
  split; [reflexivity|]. split; [reflexivity|].
  split; [reflexivity|]. split; [reflexivity|].
  split; unfold tokensPartition; cbn; intros H; decompose [and] H; lia.
Qed.

(** Without strict mode a statement that begins with a modifier word never
    gets a start: "UNIQUE;UNIQUE;" is two statements that both start at -1. *)
Lemma modifier_only_statements_start_at_minus_one :
  exists pr : ParseResult,
    Parse false DialectGeneric false (Some (DefaultParamTypesFor DialectGeneric))
          "UNIQUE;UNIQUE;" = Ok pr
    /\ map (fun c => (cStart c, cEnd c)) (Body pr) = [(-1, 6); (-1, 13)]
    /\ ~ spansIncrease (Body pr).
Proof.
  eexists. split; [vm_compute; reflexivity|]. split; [reflexivity|].
  intros H. specialize (H 0%nat 1%nat _ _ eq_refl eq_refl). cbn in H. lia.
Qed.

(** Panics that [Identify] turns into errors: a missing whitespace before
    the object of CREATE, and a statement without a start whose text cannot
    be sliced. *)
Example identify_recovers_step_panic :
  identifyBody "CREATE(" (mkIdentifyOptions (Some false) None None None)
  = Panic ("Expected any of these tokens whitespace before " +s+ dquote +s+ "("
           +s+ dquote +s+ " (currentStep=1).")
  /\ Identify "CREATE(" (mkIdentifyOptions (Some false) None None None)
     = Ok (None,
           Some ("Expected any of these tokens whitespace before " +s+ dquote +s+ "("
                 +s+ dquote +s+ " (currentStep=1).")).
Proof. split; vm_compute; reflexivity. Qed.

Example identify_recovers_slice_panic :
  identifyBody "UNIQUE;" (mkIdentifyOptions (Some false) None None None)
  = Panic "runtime error: slice bounds out of range"
  /\ Identify "UNIQUE;" (mkIdentifyOptions (Some false) None None None)
     = Ok (None, Some "runtime error: slice bounds out of range").
Proof. split; vm_compute; reflexivity. Qed.

(** A semicolon inside an open block does not end an anonymous block. *)
Example semicolon_inside_block :
  exists pr : ParseResult,
    Parse true DialectOracle false (Some (DefaultParamTypesFor DialectOracle))
          "BEGIN x; y; END; SELECT 1" = Ok pr
    /\ map (fun c => (cStart c, cEnd c, cType c)) (Body pr)
       = [(0, 15, StatementAnonBlock); (17, 24, StatementSelect)].
Proof. eexists. split; [vm_compute; reflexivity | reflexivity]. Qed.


(** * Further properties of the code *)

(** ** The text of the tokens *)

Lemma string_of_list_ascii_app :
  forall a b,
    string_of_list_ascii (a ++ b) = string_of_list_ascii a +s+ string_of_list_ascii b.
Proof.
  induction a as [|c a IH]; intros b; cbn; [reflexivity|].
  unfold sappend in *. rewrite IH. reflexivity.
Qed.

Lemma string_of_runes_app :
  forall a b, string_of_runes (a ++ b) = string_of_runes a +s+ string_of_runes b.
Proof.
  intros a b. unfold string_of_runes, string_of_bytes.
  rewrite flat_map_app, map_app. apply string_of_list_ascii_app.
Qed.

Lemma sappend_empty_r : forall s, s +s+ "" = s.
Proof.
  unfold sappend. induction s as [|c s IH]; cbn; [reflexivity | rewrite IH; reflexivity].
Qed.

Lemma sappend_assoc : forall a b c, (a +s+ b) +s+ c = a +s+ (b +s+ c).
Proof.
  unfold sappend. induction a as [|x a IH]; intros b c; cbn;
    [reflexivity | rewrite IH; reflexivity].
Qed.

(** The values of the tokens, one after the other. *)
Definition textOfTokens (tokens : list Token) : string :=
  fold_right (fun tok rest => tokValue tok +s+ rest) "" tokens.

Lemma textOfTokens_snoc :
  forall tokens tok, textOfTokens (tokens ++ [tok]) = textOfTokens tokens +s+ tokValue tok.
Proof.
  induction tokens as [|t tokens IH]; intros tok; cbn.
  - unfold sappend. cbn. apply sappend_empty_r.
  - rewrite IH. symmetry. apply sappend_assoc.
Qed.

(** The characters of [input] from offset [lo] up to, not including, [hi]. *)
Definition stretch (input : list rune) (lo hi : Z) : list rune :=
  firstn (Z.to_nat (hi - lo)) (skipn (Z.to_nat lo) input).

Lemma slice_stretch :
  forall (input : list rune) lo hi rs, slice input lo hi = Ok rs -> rs = stretch input lo hi.
Proof.
  intros input lo hi rs H. unfold slice in H.
  destruct (_ && _); inversion H. reflexivity.
Qed.

Lemma firstn_plus :
  forall A (l : list A) n m, firstn (n + m) l = firstn n l ++ firstn m (skipn n l).
Proof.
  intros A l n. revert l. induction n as [|n IH]; intros l m; [reflexivity|].
  destruct l as [|x l]; cbn; [destruct m; reflexivity|]. rewrite IH. reflexivity.
Qed.

Lemma stretch_append :
  forall input mid hi,
    0 <= mid <= hi ->
    firstn (Z.to_nat hi) input = firstn (Z.to_nat mid) input ++ stretch input mid hi.
Proof.
  intros input mid hi H. unfold stretch.
  replace (Z.to_nat hi) with (Z.to_nat mid + Z.to_nat (hi - mid))%nat by lia.
  apply firstn_plus.
Qed.

(** The value of the token is the text of the input from the start of the
    token to the cursor. *)
Definition spelled (tok : Token) (st : State) : Prop :=
  tokStart tok = stStart st
  /\ tokValue tok
     = string_of_runes (stretch (stInput st) (stStart st) (stPosition st + 1)).

(** The rest of a scanner that has taken the text [value]: it leaves the
    cursor alone and returns a token of that value. *)
Definition wraps (value : string) (m : M Token) : Prop :=
  forall st tok st',
    m st = Ok (tok, st') -> st' = st /\ tokValue tok = value /\ tokStart tok = stStart st.

Lemma wraps_tokenOf : forall ty value, wraps value (tokenOf ty value).
Proof.
  intros ty value st tok st' H. inversion H; subst. repeat split; reflexivity.
Qed.

Lemma spelled_text :
  forall k : string -> M Token,
    (forall value, wraps value (k value)) -> ensures (bind tokenText k) spelled.
Proof.
  intros k Hk st tok st' H. unfold bind in H.
  destruct (tokenText st) as [[value st1]| |] eqn:E; try discriminate.
  unfold tokenText in E.
  destruct (slice (stInput st) (stStart st) (stPosition st + 1)) as [rs| |] eqn:Es;
    cbn [rbind] in E; try discriminate.
  inversion E; subst value st1; clear E.
  apply Hk in H. destruct H as [-> [Hv Hs]].
  split; [exact Hs|]. rewrite Hv. f_equal. apply slice_stretch. exact Es.
Qed.

Ltac spelled_step :=
  lazymatch goal with
  | |- ensures (bind tokenText _) spelled => apply spelled_text; intros ?
  | |- ensures (bind _ _) spelled => apply ensures_bind; intros ?
  | |- ensures (lift (Panic _)) _ => intros ? ? ? ?; discriminate
  | |- ensures (match ?x with _ => _ end) _ => destruct x
  | |- wraps _ (tokenOf _ _) => apply wraps_tokenOf
  | |- wraps _ (skipWord _) => unfold skipWord
  | |- wraps _ (if ?c then _ else _) => destruct c
  end.

Lemma spelled_scanWhitespace : ensures scanWhitespace spelled.
Proof. unfold scanWhitespace. repeat spelled_step. Qed.

Lemma spelled_scanCommentInline : ensures scanCommentInline spelled.
Proof. unfold scanCommentInline. repeat spelled_step. Qed.

Lemma spelled_scanCommentBlock : ensures scanCommentBlock spelled.
Proof. unfold scanCommentBlock. repeat spelled_step. Qed.

Lemma spelled_scanString : forall e, ensures (scanString e) spelled.
Proof. intros e. unfold scanString. repeat spelled_step. Qed.

Lemma spelled_scanQuotedIdentifier : forall e, ensures (scanQuotedIdentifier e) spelled.
Proof. intros e. unfold scanQuotedIdentifier. repeat spelled_step. Qed.

Lemma spelled_scanWord : ensures scanWord spelled.
Proof. unfold scanWord. repeat spelled_step. Qed.

Lemma spelled_scanDollarQuotedString : ensures scanDollarQuotedString spelled.
Proof. unfold scanDollarQuotedString. repeat spelled_step. Qed.

Lemma spelled_scanParameter : forall d pt, ensures (scanParameter d pt) spelled.
Proof. intros d pt. unfold scanParameter. repeat spelled_step. Qed.

Lemma spelled_skipChar : ensures skipChar spelled.
Proof.
  unfold skipChar. apply spelled_text. intros value st tok st' H.
  inversion H; subst. repeat split; reflexivity.
Qed.

Lemma spelled_individual :
  ensures (individual <- scanIndividualCharacter ;;
           match individual with
           | Some tok => ret tok
           | None => skipChar
           end)
          spelled.
Proof.
  intros st tok st' H. unfold bind at 1 in H.
  destruct (scanIndividualCharacter st) as [[o s]| |] eqn:E; try discriminate.
  destruct o as [t|].
  - inversion H; subst t s; clear H.
    assert (Hs : ensures (value <- tokenText ;;
                          match resolveIndividualTokenType value with
                          | None => lift (Panic "")
                          | Some tokenType => tokenOf tokenType value
                          end) spelled).
    { apply spelled_text. intros value.
      destruct (resolveIndividualTokenType value);
        [apply wraps_tokenOf | intros ? ? ? Hp; discriminate Hp]. }
    apply (Hs st). unfold scanIndividualCharacter, bind in *.
    destruct (tokenText st) as [[value s1]| |]; try discriminate.
    destruct (resolveIndividualTokenType value); [|discriminate].
    destruct (tokenOf t value s1) as [[t' s2]| |]; try discriminate.
    inversion E; subst. reflexivity.
  - assert (s = st).
    { unfold scanIndividualCharacter, bind in E.
      destruct (tokenText st) as [[value s1]| |] eqn:Et; try discriminate.
      apply pure_tokenText in Et. subst s1.
      destruct (resolveIndividualTokenType value).
      - destruct (tokenOf t value st) as [[t' s2]| |]; discriminate.
      - inversion E. reflexivity. }
    subst s. eapply spelled_skipChar. exact H.
Qed.

Lemma spelled_scanAt : forall d pt ch, ensures (scanAt d pt ch) spelled.
Proof.
  intros d pt ch. unfold scanAt.
  repeat lazymatch goal with
         | |- ensures (bind scanIndividualCharacter _) _ => fail
         | |- ensures (if ?c then _ else _) _ => destruct c
         | |- ensures (bind _ _) _ => apply ensures_bind; intros ?
         | |- ensures (match ?x with _ => _ end) _ => destruct x
         end;
    first [ apply spelled_scanWhitespace | apply spelled_scanCommentInline
          | apply spelled_scanCommentBlock | apply spelled_scanString
          | apply spelled_scanParameter | apply spelled_scanDollarQuotedString
          | apply spelled_scanQuotedIdentifier | apply spelled_scanWord
          | apply spelled_individual ].
Qed.

(** The loop of [Parse] with its test: an invariant that the iterations
    keep while characters are left holds when the loop is left, and the
    cursor is then at the end of the input. *)
Lemma Parse_loop_guarded :
  forall (Inv : loopState -> Prop) isStrict d tables pt input,
    (forall ls ls',
        Inv ls -> stInput (prevState ls) = input ->
        stPosition (prevState ls) < llen input - 1 ->
        parseIteration isStrict d tables pt ls = Ok ls' -> Inv ls') ->
    forall fuel ls ls',
      stInput (prevState ls) = input -> Inv ls ->
      Parse_loop isStrict d tables pt fuel (llen input - 1) ls = Ok ls' ->
      Inv ls' /\ stInput (prevState ls') = input
      /\ llen input - 1 <= stPosition (prevState ls').
Proof.
  intros Inv isStrict d tables pt input Hstep.
  induction fuel as [|n IH]; intros ls ls' HI Hinv H; cbn [Parse_loop] in H;
    [discriminate|].
  destruct (stPosition (prevState ls) <? llen input - 1) eqn:Elt.
  - destruct (parseIteration isStrict d tables pt ls) as [ls1| |] eqn:E; cbn [rbind] in H;
      try discriminate.
    apply Z.ltb_lt in Elt.
    apply (IH ls1 ls'); [| |exact H].
    + apply parseIteration_decreases in E; [|rewrite HI; exact Elt].
      destruct E as [HI' _]. congruence.
    + eapply Hstep; eassumption.
  - inversion H; subst ls'. repeat split; [exact Hinv | exact HI | lia].
Qed.

(** The tokens collected so far spell the input up to the cursor. *)
Definition spellsPrefix (input : list rune) (ls : loopState) : Prop :=
  -1 <= stPosition (prevState ls) <= llen input - 1
  /\ textOfTokens (Tokens (topLevelResult ls))
     = string_of_runes (firstn (Z.to_nat (stPosition (prevState ls) + 1)) input).

Lemma parseIteration_spellsPrefix :
  forall isStrict d tables pt input ls ls',
    spellsPrefix input ls -> stInput (prevState ls) = input ->
    stPosition (prevState ls) < llen input - 1 ->
    parseIteration isStrict d tables pt ls = Ok ls' ->
    spellsPrefix input ls'.
Proof.
  intros isStrict d tables pt input ls ls' [Hp Ht] HI Hlt H.
  unfold parseIteration in H.
  destruct (ScanToken d pt (initState [] (Some (prevState ls)))) as [[token tokenState]| |]
    eqn:ES; cbn [rbind] in H; try discriminate.
  destruct (nextNonWhitespaceToken d pt tokenState) as [nextToken| |];
    cbn [rbind] in H; try discriminate.
  pose proof (@ScanToken_cursorStart d pt _ _ _ ES) as Hcur.
  pose proof (@ScanToken_spec d pt _ _ _ ES) as [HI' [_ [_ [Hadv _]]]].
  rewrite HI in Hadv, HI'. specialize (Hadv Hlt).
  assert (Hsp : spelled token tokenState).
  { unfold ScanToken in ES. run_bind ES. eapply spelled_scanAt. exact ES. }
  destruct Hsp as [_ Hv]. rewrite HI', Hcur in Hv.
  apply dispatch_tokens in H. unfold spellsPrefix.
  destruct H as [[-> ->] | [-> ->]].
  - split; [lia|]. rewrite textOfTokens_snoc, Ht, Hv, <- string_of_runes_app.
    f_equal. symmetry. apply stretch_append. lia.
  - split; [exact Hp | exact Ht].
Qed.

Lemma string_of_ascii_runes :
  forall s, isASCII s -> string_of_runes (runes_of_string s) = s.
Proof.
  intros s H. unfold runes_of_string. rewrite (decodeRunes_ascii H).
  unfold string_of_runes, string_of_bytes, isASCII, bytes_of_string in *.
  induction s as [|c s IH]; [reflexivity|].
  cbn [list_ascii_of_string map flat_map] in *. inversion H as [|b bs Hb Hrest]; subst.
  unfold encodeRune at 1.
  replace ((0 <=? byte_of_ascii c) && (byte_of_ascii c <=? 127)) with true
    by (symmetry; apply andb_true_iff; unfold byte_of_ascii in *; split;
        [apply Z.leb_le; lia | apply Z.leb_le; exact Hb]).
  cbn [app map string_of_list_ascii]. rewrite (IH Hrest). f_equal.
  unfold ascii_of_byte, byte_of_ascii. rewrite N2Z.id. apply ascii_N_embedding.
Qed.

(** X3: the values of the tokens that [Parse] returns, one after the other,
    are the input as Go re-encodes its characters; on an input of ASCII
    characters they are the input itself. The tokenizer loses no character
    and invents none. *)
Theorem X3_token_values_spell_the_input :
  forall isStrict d tables pt (query : string) pr,
    Parse isStrict d tables pt query = Ok pr ->
    textOfTokens (Tokens pr) = string_of_runes (runes_of_string query)
    /\ (isASCII query -> textOfTokens (Tokens pr) = query).
Proof.
  intros isStrict d tables pt query pr H.
  assert (Ht : textOfTokens (Tokens pr) = string_of_runes (runes_of_string query)).
  { unfold Parse in H.
    match type of H with rbind (Parse_loop _ _ _ _ ?f ?e ?l) _ = _ =>
      destruct (Parse_loop isStrict d tables pt f e l) as [ls| |] eqn:EL
    end; cbn [rbind] in H; try discriminate.
    inversion H; subst pr; clear H. rewrite finish_tokens.
    cbn [initState stEnd] in EL.
    eapply (@Parse_loop_guarded (spellsPrefix (runes_of_string query))) in EL.
    - destruct EL as [[Hp Ht] [_ Hge]]. rewrite Ht. f_equal.
      unfold llen in *. rewrite firstn_all2; [reflexivity | lia].
    - intros ls0 ls1. apply parseIteration_spellsPrefix.
    - reflexivity.
    - unfold spellsPrefix. cbn. split; [unfold llen; lia | reflexivity]. }
  split; [exact Ht|]. intros Ha. rewrite Ht. apply string_of_ascii_runes. exact Ha.
Qed.

(** ** ScanToken: progress, and the end of the input *)

Lemma slice_empty :
  forall (input : list rune) n,
    0 <= n <= llen input -> slice input n n = Ok [].
Proof.
  intros input n H. unfold slice.
  replace ((0 <=? n) && (n <=? n) && (n <=? llen input)) with true
    by (symmetry; rewrite !andb_true_iff, !Z.leb_le; lia).
  rewrite Z.sub_diag. reflexivity.
Qed.

Lemma slice_to_end_empty :
  forall (input : list rune), slice input (llen input) (llen input) = Ok [].
Proof. intros input. apply slice_empty. unfold llen. lia. Qed.

(** At the end of the input [ScanToken] returns the empty unknown token and
    leaves the cursor where it is. *)
Lemma ScanToken_at_end :
  forall d pt prev,
    stPosition prev = llen (stInput prev) - 1 ->
    ScanToken d pt (initState [] (Some prev))
    = Ok (mkToken TokenUnknown "" (stPosition prev + 1) (stPosition prev + 1),
          initState [] (Some prev)).
Proof.
  intros d pt [s e p input] Hp. cbn [stPosition stInput] in Hp.
  assert (Hs : p + 1 = llen input) by lia.
  unfold ScanToken, initState. cbn [stPosition stInput].
  unfold bind at 1. unfold read. cbn [stPosition stInput].
  replace (p + 0 >=? llen input - 1) with true by (symmetry; apply Z.geb_le; lia).
  unfold scanAt. change (isWhitespace eof) with false. cbv iota.
  unfold bind at 1. unfold isCommentInline. change (negb (eof =? 45)) with true.
  cbv iota. unfold ret at 1. cbv beta iota.
  unfold bind at 1. unfold isCommentBlock. change (negb (eof =? 47)) with true.
  cbv iota. unfold ret at 1. cbv beta iota.
  assert (Hstr : (if isString eof d then endTokens eof else None) = None).
  { unfold isString. destruct (String.eqb d DialectMySQL); reflexivity. }
  rewrite Hstr.
  unfold bind at 1. unfold isParameter. change (eof =? eof) with true. cbv iota.
  unfold ret at 1. cbv beta iota.
  unfold bind at 1. unfold isDollarQuotedString, bind, remainingInput, tokenText.
  cbn [stStart stPosition stInput]. rewrite Hs, slice_to_end_empty. cbn [rbind].
  change (string_of_runes []) with "". change (dollarQuoteOpener "") with (@None string).
  unfold ret at 1. cbv beta iota.
  assert (Hq : (if isQuotedIdentifier eof d then endTokens eof else None) = None).
  { unfold isQuotedIdentifier. destruct (String.eqb d DialectMSSQL); reflexivity. }
  rewrite Hq. change (isLetter eof) with false. cbv iota.
  unfold scanIndividualCharacter, skipChar, bind, tokenText.
  cbn [stStart stPosition stInput]. rewrite Hs, slice_to_end_empty. cbn [rbind].
  change (string_of_runes []) with "".
  change (resolveIndividualTokenType "") with (@None TokenType).
  unfold ret, get. cbn [stStart stPosition stInput]. rewrite Hs, slice_to_end_empty.
  reflexivity.
Qed.

(** X4: [ScanToken], called on the cursor the parser builds after [prev],
    always comes back (with a token or a panic); the input and the start of
    the cursor are left as they were and the token starts right after
    [prev]; when a character is left it consumes at least one and stays
    within the input; at the end of the input it returns the empty unknown
    token without moving. *)
Theorem X4_ScanToken_makes_progress :
  forall d pt prev,
    ScanToken d pt (initState [] (Some prev)) <> OutOfFuel
    /\ (forall tok st',
           ScanToken d pt (initState [] (Some prev)) = Ok (tok, st') ->
           stInput st' = stInput prev
           /\ stStart st' = stPosition prev + 1
           /\ tokStart tok = stPosition prev + 1
           /\ (stPosition prev < llen (stInput prev) - 1 ->
               stPosition prev < stPosition st' <= llen (stInput prev) - 1))
    /\ (stPosition prev = llen (stInput prev) - 1 ->
        ScanToken d pt (initState [] (Some prev))
        = Ok (mkToken TokenUnknown "" (stPosition prev + 1) (stPosition prev + 1),
              initState [] (Some prev))).
Proof.
  intros d pt prev. split; [apply total_ScanToken|]. split.
  - intros tok st' H.
    pose proof (@ScanToken_cursorStart d pt _ _ _ H) as Hcur.
    apply ScanToken_spec in H. destruct H as [HI [Hs [_ [Hadv _]]]].
    repeat split; try assumption; apply Hadv; assumption.
  - apply ScanToken_at_end.
Qed.

(** ** Invariants of the statement that is being built *)

(** The execution type [AddToken] records after the effect of a step. *)
Definition stepResult (s : Statement) : Statement :=
  set_sExecutionType s (Some (executionTypeOf s)).

(** The three shapes of the effect of a step in the statement parsers. *)
Definition plainStep (step : Step) : Prop :=
  (exists ty, Add step = fun token s => setStartIfUnset token (set_sType s (Some ty)))
  \/ Add step = setStartIfUnset
  \/ (exists f : Token -> StatementType,
         Add step = fun token s => set_sType s (Some (f token))).

Ltac plain_steps :=
  unfold_parsers;
  repeat (apply Forall_cons;
          [unfold plainStep; cbn [Add singleStep verbStep objectStep];
           first [ left; eexists; reflexivity
                 | right; left; reflexivity
                 | right; right; eexists; reflexivity ]|]);
  apply Forall_nil.

(** The parsers that [createStatementParserByToken] builds: their steps,
    their options and the statement they start from. *)
Lemma createStatementParserByToken_plain :
  forall token nextToken opts p,
    createStatementParserByToken token nextToken opts = Ok p ->
    Forall plainStep (steps p)
    /\ options p = opts
    /\ (statement p = createInitialStatement
        \/ statement p = set_sType createInitialStatement (Some StatementAnonBlock)).
Proof.
  intros token nextToken opts p H.
  unfold createStatementParserByToken in H.
  repeat (head_step H; try discriminate);
    inversion H; subst p; clear H;
    (split; [plain_steps | split; [reflexivity|]]);
    first [left; reflexivity | right; reflexivity].
Qed.

Lemma openBlock_options :
  forall p token nextToken,
    options (carried (openBlock p token nextToken)) = options p.
Proof.
  intros p token nextToken. unfold openBlock.
  repeat match goal with
         | |- context [if ?c then _ else _] => destruct c
         | |- context [match sType ?s with _ => _ end] => destruct (sType s)
         end;
    simpl; rewrite ?setPrevToken_options; reflexivity.
Qed.

Lemma skipModifiers_options :
  forall p token, options (carried (skipModifiers p token)) = options p.
Proof.
  intros p token.
  remember (skipModifiers p token) as f eqn:H. symmetry in H.
  unfold skipModifiers in H.
  repeat (head_step H; try (subst f; simpl; rewrite ?setPrevToken_options;
                             reflexivity)).
Qed.

Lemma currentStepOf_options :
  forall p token q s, currentStepOf p token = Ok (q, s) -> options q = options p.
Proof.
  intros p token q s H. unfold currentStepOf in H.
  destruct (stepAt p (currentStepIndex p)) as [s0| |]; cbn [rbind] in H; try discriminate.
  destruct (PreCanGoToNext s0 token).
  - destruct (stepAt _ _) as [s1| |]; cbn [rbind] in H; try discriminate.
    inversion H. reflexivity.
  - inversion H. reflexivity.
Qed.

Lemma applyStep_fields :
  forall p s token,
    statement (applyStep p s token) = stepResult (Add s token (statement p))
    /\ options (applyStep p s token) = options p
    /\ steps (applyStep p s token) = steps p.
Proof.
  intros p s token. unfold applyStep.
  rewrite setPrevToken_statement, setPrevToken_options, setPrevToken_steps.
  destruct (PostCanGoToNext s token); repeat split; reflexivity.
Qed.

Section StatementInvariant.

Variable opts : ParseOptions.
Variable J : Statement -> Prop.

Hypothesis J_end : forall s, J s -> J (set_sEndStatement s (Some ";")).
Hypothesis J_canEnd : forall s, J s -> J (set_sCanEnd s (Some true)).
Hypothesis J_tables :
  forall s t,
    J s -> IdentifyTables opts = true ->
    match sIsCte s with None => true | Some b => negb b end = true ->
    typeIs s StatementSelect || typeIs s StatementInsert = true ->
    contains_string (sTables s) t = false ->
    J (set_sTables s (sTables s ++ [t])).
Hypothesis J_parameters :
  forall s v,
    J s -> String.eqb v "?" || negb (contains_string (sParameters s) v) = true ->
    J (set_sParameters s (sParameters s ++ [v])).
Hypothesis J_definer : forall s v, J s -> J (set_sDefiner s v).
Hypothesis J_algorithm : forall s v, J s -> J (set_sAlgorithm s v).
Hypothesis J_security : forall s v, J s -> J (set_sSQLSecurity s v).
Hypothesis J_step : forall s, J s -> forall step token, plainStep step ->
                                      J (stepResult (Add step token s)).

Lemma captureTables_keeps :
  forall p token nextToken,
    options p = opts -> J (statement p) ->
    J (statement (captureTables p token nextToken))
    /\ options (captureTables p token nextToken) = opts
    /\ steps (captureTables p token nextToken) = steps p.
Proof.
  intros p token nextToken Ho HJ. unfold captureTables. rewrite Ho.
  destruct (IdentifyTables opts) eqn:Et; cbn [andb]; [|repeat split; assumption].
  destruct (preTableKeywords (tokValue token)); cbn [andb]; [|repeat split; assumption].
  destruct (match sIsCte (statement p) with None => true | Some b => negb b end) eqn:Ec;
    [|repeat split; assumption].
  destruct (typeIs (statement p) StatementSelect || typeIs (statement p) StatementInsert)
    eqn:Ety; [|repeat split; assumption].
  destruct (contains_string (sTables (statement p)) (tokValue nextToken)) eqn:Ein;
    cbn [negb]; [repeat split; assumption|].
  cbn [statement set_statement options steps].
  repeat split; try assumption. apply J_tables; first [assumption | reflexivity].
Qed.

Lemma captureParameters_keeps :
  forall p token,
    options p = opts -> J (statement p) ->
    J (statement (captureParameters p token))
    /\ options (captureParameters p token) = opts
    /\ steps (captureParameters p token) = steps p.
Proof.
  intros p token Ho HJ. unfold captureParameters.
  destruct (TokenType_eqb (tokType token) TokenParameter); [|repeat split; assumption].
  destruct (String.eqb (tokValue token) "?"
            || negb (contains_string (sParameters (statement p)) (tokValue token))) eqn:E;
    [|repeat split; assumption].
  cbn [statement set_statement options steps].
  repeat split; try assumption. apply J_parameters; assumption.
Qed.

Lemma skipModifiers_keeps :
  forall p token,
    J (statement p) -> J (statement (carried (skipModifiers p token))).
Proof.
  intros p token HJ.
  remember (skipModifiers p token) as f eqn:H. symmetry in H.
  unfold skipModifiers in H.
  repeat (head_step H;
          try (subst f; simpl; rewrite ?setPrevToken_statement; simpl;
               solve [repeat first [ exact HJ | apply J_definer | apply J_algorithm
                                   | apply J_security ]])).
Qed.

Lemma runStep_keeps :
  forall p token p',
    Forall plainStep (steps p) -> options p = opts -> J (statement p) ->
    runStep p token = Ok p' ->
    J (statement p') /\ options p' = opts /\ steps p' = steps p.
Proof.
  intros p token p' Hpl Ho HJ H. unfold runStep in H.
  destruct (currentStepOf p token) as [[q s]| |] eqn:E; cbn [rbind] in H; try discriminate.
  pose proof (currentStepOf_options _ _ E) as Hqo.
  apply currentStepOf_frame in E. destruct E as [Hin [Hst Hsteps]].
  destruct (missingPredecessor q s token); [discriminate|].
  destruct (negb (isValidToken s token) && IsStrict (options q)); [discriminate|].
  inversion H; subst p'; clear H.
  destruct (applyStep_fields q s token) as [H1 [H2 H3]].
  rewrite H1, H2, H3, Hst, Hqo, Hsteps.
  split; [|split; [exact Ho | reflexivity]].
  apply J_step; [exact HJ|]. rewrite Forall_forall in Hpl. apply Hpl. exact Hin.
Qed.

(** [AddToken] keeps the invariant, the options and the steps. *)
Lemma AddToken_keeps :
  forall p token nextToken p',
    Forall plainStep (steps p) -> options p = opts -> J (statement p) ->
    AddToken p token nextToken = Ok p' ->
    J (statement p') /\ options p' = opts /\ steps p' = steps p.
Proof.
  intros p token nextToken p' Hpl Ho HJ H. unfold AddToken in H.
  destruct (sEndStatement (statement p)); [discriminate|].
  match type of H with (if ?c then _ else _) = _ => destruct c end.
  { inversion H; subst p'. cbn [statement set_statement options steps].
    repeat split; try assumption. apply J_end. exact HJ. }
  match type of H with (if ?c then _ else _) = _ => destruct c end.
  { inversion H; subst p'.
    rewrite setPrevToken_statement, setPrevToken_options, setPrevToken_steps.
    match goal with |- context [if ?c then _ else _] => destruct c end;
      cbn [statement set_statement set_openBlocks options steps];
      repeat split; try assumption. apply J_canEnd. exact HJ. }
  destruct (TokenType_eqb (tokType token) TokenWhitespace).
  { inversion H; subst p'.
    rewrite setPrevToken_statement, setPrevToken_options, setPrevToken_steps.
    repeat split; assumption. }
  destruct (openBlock_statement p token nextToken) as [Hob Hobs].
  pose proof (openBlock_options p token nextToken) as Hobo.
  destruct (openBlock p token nextToken) as [q|q]; simpl in Hob, Hobs, Hobo.
  { inversion H; subst p'. rewrite Hob, Hobo, Hobs. repeat split; assumption. }
  assert (HJq : J (statement q)) by (rewrite Hob; exact HJ).
  assert (Hoq : options q = opts) by congruence.
  destruct (captureTables_keeps q token nextToken Hoq HJq) as [HJ1 [Ho1 Hs1]].
  destruct (captureParameters_keeps (captureTables q token nextToken) token Ho1 HJ1)
    as [HJ2 [Ho2 Hs2]].
  set (q2 := captureParameters (captureTables q token nextToken) token) in *.
  assert (Hst2 : steps q2 = steps p) by congruence.
  match type of H with (if ?c then _ else _) = _ => destruct c end.
  { inversion H; subst p'.
    rewrite setPrevToken_statement, setPrevToken_options, setPrevToken_steps.
    repeat split; assumption. }
  pose proof (skipModifiers_keeps q2 token HJ2) as HJm.
  pose proof (skipModifiers_options q2 token) as Hom.
  destruct (skipModifiers_frame q2 token) as [_ [_ Hsm]].
  destruct (skipModifiers q2 token) as [q3|q3]; simpl in HJm, Hom, Hsm.
  { inversion H; subst p'. repeat split; congruence. }
  apply runStep_keeps in H; [| rewrite Hsm, Hst2; exact Hpl | congruence | exact HJm].
  destruct H as [H1 [H2 H3]]. repeat split; congruence.
Qed.

End StatementInvariant.

(** *** The statements of the body *)

Section BodyInvariant.

Variable isStrict : bool.
Variable d : Dialect.
Variable tables : bool.
Variable pt : option ParamTypes.

(** [J] is kept by every change that [AddToken] and [Parse] make to the
    statement under construction; [JC] is what it gives for the statement
    handed out. *)
Variable J : Statement -> Prop.
Variable JC : ConcreteStatement -> Prop.

Hypothesis J_end : forall s, J s -> J (set_sEndStatement s (Some ";")).
Hypothesis J_canEnd : forall s, J s -> J (set_sCanEnd s (Some true)).
Hypothesis J_tables :
  forall s t,
    J s -> tables = true ->
    match sIsCte s with None => true | Some b => negb b end = true ->
    typeIs s StatementSelect || typeIs s StatementInsert = true ->
    contains_string (sTables s) t = false ->
    J (set_sTables s (sTables s ++ [t])).
Hypothesis J_parameters :
  forall s v,
    J s -> String.eqb v "?" || negb (contains_string (sParameters s) v) = true ->
    J (set_sParameters s (sParameters s ++ [v])).
Hypothesis J_definer : forall s v, J s -> J (set_sDefiner s v).
Hypothesis J_algorithm : forall s v, J s -> J (set_sAlgorithm s v).
Hypothesis J_security : forall s v, J s -> J (set_sSQLSecurity s v).
Hypothesis J_step : forall s, J s -> forall step token, plainStep step ->
                                      J (stepResult (Add step token s)).
Hypothesis J_init :
  forall s0,
    s0 = createInitialStatement
    \/ s0 = set_sType createInitialStatement (Some StatementAnonBlock) ->
    J s0.
Hypothesis J_cte :
  forall s0 start params,
    s0 = createInitialStatement
    \/ s0 = set_sType createInitialStatement (Some StatementAnonBlock) ->
    J (set_sParameters (set_sIsCte (set_sStart s0 start) (Some true))
                       (sParameters s0 ++ params)).
Hypothesis JC_handed : forall s e, J s -> JC (ToConcrete (set_sEnd s e)).
Hypothesis JC_cte :
  forall start e,
    JC (mkConcrete start e StatementUnknown ExecutionUnknown None None None None None
                   [] [] None).

Definition bodyKeeps (ls : loopState) : Prop :=
  Forall JC (Body (topLevelResult ls))
  /\ match statementParser ls with
     | Some p =>
       Forall plainStep (steps p)
       /\ options p = mkParseOptions isStrict d tables pt
       /\ J (statement p)
     | None => True
     end.

Lemma dispatch_bodyKeeps :
  forall ls token nextToken tokenState ls',
    bodyKeeps ls ->
    dispatch isStrict d tables pt ls token nextToken tokenState = Ok ls' ->
    bodyKeeps ls'.
Proof.
  intros ls token nextToken tokenState ls' [Hb Hp] H. unfold dispatch in H.
  destruct (statementParser ls) as [p|] eqn:Ep.
  - destruct Hp as [Hpl [Ho HJ]]. unfold insideStatement in H.
    destruct (AddToken p token nextToken) as [p'| |] eqn:EA; cbn [rbind] in H;
      try discriminate.
    eapply (@AddToken_keeps (mkParseOptions isStrict d tables pt) J) in EA;
      try eassumption.
    destruct EA as [HJ' [Ho' Hs']]. unfold GetStatement in H.
    destruct (sEndStatement (statement p')); inversion H; subst ls'; clear H;
      unfold bodyKeeps; cbn [topLevelResult statementParser Body appendBody appendToken].
    + split; [|exact I]. apply Forall_app. split; [exact Hb|].
      constructor; [|constructor]. apply JC_handed. exact HJ'.
    + split; [exact Hb|]. rewrite Hs'. repeat split; assumption.
  - unfold outsideStatement in H.
    match type of H with rbind ?r _ = _ => destruct r as [ls1| |] eqn:E1 end;
      cbn [rbind] in H; try discriminate.
    assert (H1 : bodyKeeps ls1 -> bodyKeeps ls').
    { inversion H. unfold rememberParameter, bodyKeeps.
      destruct (isCte (cte ls1) && TokenType_eqb (tokType token) TokenParameter);
        intros Hk; exact Hk. }
    apply H1. clear H H1.
    repeat (head_step E1;
            try (inversion E1; subst ls1; clear E1; unfold bodyKeeps;
                 cbn [topLevelResult statementParser Body appendBody appendToken consume];
                 rewrite Ep;
                 solve [ split; [exact Hb | exact I]
                       | split; [|exact I]; apply Forall_app; split; [exact Hb|];
                         constructor; [apply JC_cte | constructor] ])).
    destruct (createStatementParserByToken _ _ _) as [q| |] eqn:EC; cbn [rbind] in E1;
      try discriminate.
    apply createStatementParserByToken_plain in EC. destruct EC as [Hpl [Ho Hst]].
    destruct (isCte (cte ls)); inversion E1; subst ls1; clear E1; unfold bodyKeeps;
      cbn [topLevelResult statementParser steps options statement set_statement];
      (split; [exact Hb|]); (split; [exact Hpl|]); (split; [exact Ho|]).
    + unfold GetStatement. apply J_cte. exact Hst.
    + apply J_init. exact Hst.
Qed.

Lemma parseIteration_bodyKeeps :
  forall ls ls',
    bodyKeeps ls -> parseIteration isStrict d tables pt ls = Ok ls' -> bodyKeeps ls'.
Proof.
  intros ls ls' Hk H. unfold parseIteration in H.
  destruct (ScanToken d pt (initState [] (Some (prevState ls)))) as [[token tokenState]| |];
    cbn [rbind] in H; try discriminate.
  destruct (nextNonWhitespaceToken d pt tokenState) as [nextToken| |];
    cbn [rbind] in H; try discriminate.
  eapply dispatch_bodyKeeps; eassumption.
Qed.

(** Every statement that [Parse] hands out satisfies [JC]. *)
Lemma Parse_bodyKeeps :
  forall (query : string) pr,
    Parse isStrict d tables pt query = Ok pr -> Forall JC (Body pr).
Proof.
  intros query pr H. unfold Parse in H.
  match type of H with rbind (Parse_loop _ _ _ _ ?f ?e ?l) _ = _ =>
    destruct (Parse_loop isStrict d tables pt f e l) as [ls| |] eqn:EL
  end; cbn [rbind] in H; try discriminate.
  inversion H; subst pr; clear H.
  assert (Hk : bodyKeeps ls).
  { refine (@Parse_loop_invariant bodyKeeps isStrict d tables pt _ _ _ _ _ _ EL).
    - intros ls0 ls1. apply parseIteration_bodyKeeps.
    - split; [constructor | exact I]. }
  destruct Hk as [Hb Hp]. unfold finish.
  destruct (statementParser ls) as [p|]; [|exact Hb].
  destruct Hp as [_ [_ HJ]]. unfold GetStatement.
  destruct (sEndStatement (statement p)); [exact Hb|].
  cbn [Body appendBody]. apply Forall_app. split; [exact Hb|].
  constructor; [|constructor]. apply JC_handed. exact HJ.
Qed.

End BodyInvariant.

(** *** Tables, parameters and execution types of the statements *)

Lemma plainStep_lists :
  forall step token s,
    plainStep step ->
    sTables (stepResult (Add step token s)) = sTables s
    /\ sParameters (stepResult (Add step token s)) = sParameters s
    /\ sIsCte (stepResult (Add step token s)) = sIsCte s.
Proof.
  intros step token s [[ty ->] | [-> | [f ->]]]; unfold stepResult, setStartIfUnset;
    cbn; try destruct (_ <? 0); cbn; repeat split; reflexivity.
Qed.

(** X5: the tables of every statement that [Parse] hands out are listed
    once each; there are none when table identification is off, and none
    for a statement that follows a WITH header. *)
Theorem X5_tables_listed_once :
  forall isStrict d tables pt (query : string) pr,
    Parse isStrict d tables pt query = Ok pr ->
    forall c,
      In c (Body pr) ->
      NoDup (cTables c)
      /\ (tables = false -> cTables c = [])
      /\ (cIsCte c = Some true -> cTables c = []).
Proof.
  intros isStrict d tables pt query pr H.
  apply Forall_forall.
  refine (@Parse_bodyKeeps isStrict d tables pt
            (fun s => NoDup (sTables s)
                      /\ (tables = false -> sTables s = [])
                      /\ (sIsCte s = Some true -> sTables s = []))
            (fun c => NoDup (cTables c)
                      /\ (tables = false -> cTables c = [])
                      /\ (cIsCte c = Some true -> cTables c = []))
            _ _ _ _ _ _ _ _ _ _ _ _ query pr H);
    try (intros; cbn in *; assumption).
  - intros s t [Hn [Hoff Hcte]] Hon Hc _ Hin. cbn. split; [|split].
    + apply NoDup_app; [exact Hn | constructor; [intros [] | constructor] |].
      intros x Hx [<- | []]. apply contains_string_In in Hx. congruence.
    + intros Hf. congruence.
    + intros Hs. rewrite Hs in Hc. discriminate Hc.
  - intros s HJ step token Hp.
    destruct (plainStep_lists token s Hp) as [-> [_ ->]]. exact HJ.
  - intros s0 [-> | ->]; cbn; repeat split; first [constructor | reflexivity].
  - intros s0 start params [-> | ->]; cbn; repeat split; first [constructor | reflexivity].
  - intros start e. cbn. repeat split; first [constructor | reflexivity].
Qed.

(** The parameters of a statement apart from the positional ["?"]. *)
Definition namedParameters (parameters : list string) : list string :=
  filter (fun v => negb (String.eqb v "?")) parameters.

Lemma namedParameters_snoc :
  forall l v,
    NoDup (namedParameters l) ->
    String.eqb v "?" || negb (contains_string l v) = true ->
    NoDup (namedParameters (l ++ [v])).
Proof.
  intros l v Hn H. unfold namedParameters in *. rewrite filter_app. cbn [filter].
  destruct (String.eqb v "?") eqn:Eq; cbn [negb orb] in *.
  - rewrite app_nil_r. exact Hn.
  - apply NoDup_app; [exact Hn | constructor; [intros [] | constructor] |].
    intros x Hx [<- | []]. apply filter_In in Hx. destruct Hx as [Hx _].
    apply contains_string_In in Hx. rewrite Hx in H. discriminate H.
Qed.

(** In a statement that does not follow a WITH header no parameter other
    than the positional ["?"] is listed twice. *)
Lemma named_parameters_not_repeated :
  forall isStrict d tables pt (query : string) pr,
    Parse isStrict d tables pt query = Ok pr ->
    forall c,
      In c (Body pr) -> cIsCte c <> Some true ->
      NoDup (namedParameters (cParameters c)).
Proof.
  intros isStrict d tables pt query pr H.
  enough (HF : Forall (fun c => cIsCte c <> Some true ->
                               NoDup (namedParameters (cParameters c))) (Body pr))
    by (rewrite Forall_forall in HF; exact HF).
  refine (@Parse_bodyKeeps isStrict d tables pt
            (fun s => sIsCte s <> Some true -> NoDup (namedParameters (sParameters s)))
            (fun c => cIsCte c <> Some true -> NoDup (namedParameters (cParameters c)))
            _ _ _ _ _ _ _ _ _ _ _ _ query pr H);
    try (intros; cbn in *; auto; fail).
  - intros s v HJ Hv Hc. cbn in *. apply namedParameters_snoc; auto.
  - intros s HJ step token Hp.
    destruct (plainStep_lists token s Hp) as [_ [-> ->]]. exact HJ.
  - intros s0 [-> | ->] _; cbn; constructor.
  - intros s0 start params _ Hc. cbn in Hc. congruence.
  - intros start e _. cbn. constructor.
Qed.

Lemma executionTypeOf_GetExecutionType :
  forall s,
    executionTypeOf s
    = GetExecutionType (match sType s with Some t => t | None => StatementUnknown end).
Proof.
  intros s. unfold executionTypeOf, GetExecutionType.
  destruct (sType s); reflexivity.
Qed.

(** X7: the execution type of every statement that [Parse] hands out is
    the one [GetExecutionType] gives for its type; the one exception the
    code leaves open is an anonymous block whose execution type was never
    set, which comes out as UNKNOWN. *)
Theorem X7_execution_type_follows_the_type :
  forall isStrict d tables pt (query : string) pr,
    Parse isStrict d tables pt query = Ok pr ->
    forall c,
      In c (Body pr) ->
      cExecutionType c = GetExecutionType (cType c)
      \/ (cType c = StatementAnonBlock /\ cExecutionType c = ExecutionUnknown).
Proof.
  intros isStrict d tables pt query pr H.
  apply Forall_forall.
  refine (@Parse_bodyKeeps isStrict d tables pt
            (fun s => sExecutionType s = Some (executionTypeOf s)
                      \/ (sExecutionType s = None
                          /\ (sType s = None \/ sType s = Some StatementAnonBlock)))
            (fun c => cExecutionType c = GetExecutionType (cType c)
                      \/ (cType c = StatementAnonBlock
                          /\ cExecutionType c = ExecutionUnknown))
            _ _ _ _ _ _ _ _ _ _ _ _ query pr H);
    try (intros; cbn in *; assumption).
  - intros s HJ step token Hp. left. reflexivity.
  - intros s0 [-> | ->]; right; cbn; split; auto.
  - intros s0 start params [-> | ->]; right; cbn; split; auto.
  - intros s e [He | [He [Ht | Ht]]]; unfold ToConcrete;
      cbn [cExecutionType cType set_sEnd sExecutionType sType]; rewrite He.
    + left. apply executionTypeOf_GetExecutionType.
    + left. rewrite Ht. reflexivity.
    + right. rewrite Ht. split; reflexivity.
  - intros start e. left. reflexivity.
Qed.

(** ** Strict mode only refuses *)

(** The parser with strict mode switched off in its options. *)
Definition relax (p : stateMachineParser) : stateMachineParser :=
  mkParser (statement p) (steps p)
           (mkParseOptions false (poDialect (options p)) (IdentifyTables (options p))
                           (poParamTypes (options p)))
           (currentStepIndex p) (prevToken p) (prevNonWhitespaceToken p)
           (lastBlockOpener p) (anonBlockStarted p) (openBlocks p).

Definition relaxFlow (f : flow) : flow :=
  match f with
  | Return p => Return (relax p)
  | Continue p => Continue (relax p)
  end.

Lemma setPrevToken_relax :
  forall p token, setPrevToken (relax p) token = relax (setPrevToken p token).
Proof. intros p token. unfold setPrevToken. destruct (negb _); reflexivity. Qed.

Ltac relax_simpl :=
  unfold relax, relaxFlow, set_openBlocks, set_lastBlockOpener, set_anonBlockStarted,
         set_prevToken, set_prevNonWhitespaceToken, set_statement, set_currentStepIndex,
         set_sStart, set_sEnd, set_sType, set_sExecutionType, set_sEndStatement,
         set_sCanEnd, set_sDefiner, set_sAlgorithm, set_sSQLSecurity, set_sParameters,
         set_sTables, set_sIsCte;
  cbn [statement steps options currentStepIndex prevToken
             prevNonWhitespaceToken lastBlockOpener anonBlockStarted openBlocks
             poDialect IdentifyTables poParamTypes IsStrict
             sStart sEnd sType sExecutionType sEndStatement sCanEnd sDefiner sAlgorithm
             sSQLSecurity sParameters sTables sIsCte].

Ltac plain_condition c :=
  lazymatch c with
  | context [if _ then _ else _] => fail
  | context [match _ with Some _ => _ | None => _ end] => fail
  | _ => idtac
  end.

Ltac relax_cases :=
  unfold setPrevToken, prevIsWhitespace, typeIs;
  match goal with
  | p : stateMachineParser |- _ =>
    let s := fresh "s" in destruct p as [s ? ? ? ? ? ? ? ?]; destruct s
  end;
  cbv zeta; relax_simpl;
  repeat (match goal with
          | |- context [if ?c then _ else _] => plain_condition c; destruct c
          | |- context [match ?o with Some _ => _ | None => _ end] =>
            plain_condition o; destruct o
          end; relax_simpl);
  reflexivity.

Lemma openBlock_relax :
  forall p token nextToken,
    openBlock (relax p) token nextToken = relaxFlow (openBlock p token nextToken).
Proof. intros p token nextToken. unfold openBlock. relax_cases. Qed.

Lemma captureTables_relax :
  forall p token nextToken,
    captureTables (relax p) token nextToken = relax (captureTables p token nextToken).
Proof.
  intros p token nextToken. unfold captureTables.
  cbn [relax statement options IdentifyTables].
  repeat match goal with
         | |- context [if ?c then _ else _] => destruct c
         end; reflexivity.
Qed.

Lemma captureParameters_relax :
  forall p token, captureParameters (relax p) token = relax (captureParameters p token).
Proof.
  intros p token. unfold captureParameters. cbn [relax statement].
  repeat match goal with
         | |- context [if ?c then _ else _] => destruct c
         end; reflexivity.
Qed.

Lemma skipModifiers_relax :
  forall p token, skipModifiers (relax p) token = relaxFlow (skipModifiers p token).
Proof. intros p token. unfold skipModifiers. relax_cases. Qed.

Lemma runStep_relax :
  forall p token p',
    runStep p token = Ok p' -> runStep (relax p) token = Ok (relax p').
Proof.
  intros p token p' H. unfold runStep, currentStepOf, stepAt in *.
  destruct p as [s st o i pv pn lb ab ob].
  unfold relax, set_currentStepIndex in *.
  cbn [statement steps options currentStepIndex prevToken prevNonWhitespaceToken
                 lastBlockOpener anonBlockStarted openBlocks poDialect IdentifyTables
                 poParamTypes IsStrict] in *.
  destruct ((0 <=? i) && (i <? llen st)); [|discriminate H].
  destruct (nth_error st (Z.to_nat i)) as [step|]; [|discriminate H].
  cbn [rbind] in *.
  assert (Hrun : forall j step0,
             match missingPredecessor (mkParser s st o j pv pn lb ab ob) step0 token with
             | Some msg => Panic msg
             | None =>
               if negb (isValidToken step0 token) && IsStrict o
               then Panic (unexpectedToken (mkParser s st o j pv pn lb ab ob) step0 token)
               else Ok (applyStep (mkParser s st o j pv pn lb ab ob) step0 token)
             end = Ok p' ->
             match missingPredecessor
                     (mkParser s st
                        (mkParseOptions false (poDialect o) (IdentifyTables o)
                                        (poParamTypes o)) j pv pn lb ab ob) step0 token with
             | Some msg => Panic msg
             | None =>
               if negb (isValidToken step0 token) && false
               then Panic (unexpectedToken
                             (mkParser s st
                                (mkParseOptions false (poDialect o) (IdentifyTables o)
                                                (poParamTypes o)) j pv pn lb ab ob)
                             step0 token)
               else Ok (applyStep
                          (mkParser s st
                             (mkParseOptions false (poDialect o) (IdentifyTables o)
                                             (poParamTypes o)) j pv pn lb ab ob)
                          step0 token)
             end
             = Ok (mkParser (statement p') (steps p')
                            (mkParseOptions false (poDialect (options p'))
                               (IdentifyTables (options p')) (poParamTypes (options p')))
                            (currentStepIndex p') (prevToken p')
                            (prevNonWhitespaceToken p') (lastBlockOpener p')
                            (anonBlockStarted p') (openBlocks p'))).
  { intros j step0 H0. unfold missingPredecessor in *.
    cbn [prevToken currentStepIndex] in *.
    match type of H0 with
    | match ?m with Some _ => _ | None => _ end = _ => destruct m; [discriminate H0|]
    end.
    rewrite andb_false_r.
    destruct (negb (isValidToken step0 token) && IsStrict o); [discriminate H0|].
    injection H0 as H0. subst p'. f_equal.
    unfold applyStep, setPrevToken. cbv zeta.
    unfold set_statement, set_currentStepIndex, set_prevToken, set_prevNonWhitespaceToken.
    cbn [statement steps options currentStepIndex prevToken prevNonWhitespaceToken
                   lastBlockOpener anonBlockStarted openBlocks].
    destruct (PostCanGoToNext step0 token);
      destruct (negb (TokenType_eqb (tokType token) TokenWhitespace)); reflexivity. }
  destruct (PreCanGoToNext step token).
  - cbn [steps currentStepIndex] in *.
    destruct ((0 <=? i + 1) && (i + 1 <? llen st)); [|discriminate H].
    destruct (nth_error st (Z.to_nat (i + 1))) as [step1|]; [|discriminate H].
    cbn [rbind] in *. apply Hrun. exact H.
  - apply Hrun. exact H.
Qed.

Lemma AddToken_relax :
  forall p token nextToken p',
    AddToken p token nextToken = Ok p' ->
    AddToken (relax p) token nextToken = Ok (relax p').
Proof.
  intros p token nextToken p' H. unfold AddToken in *.
  change (statement (relax p)) with (statement p).
  change (openBlocks (relax p)) with (openBlocks p).
  destruct (sEndStatement (statement p)); [discriminate H|].
  cbv zeta in *.
  match type of H with
  | (if ?c then _ else _) = _ => destruct c
  end.
  { injection H as H. subst p'. reflexivity. }
  match type of H with
  | (if ?c then _ else _) = _ => destruct c
  end.
  { injection H as H. subst p'. clear. relax_cases. }
  destruct (TokenType_eqb (tokType token) TokenWhitespace).
  { injection H as H. subst p'. rewrite setPrevToken_relax. reflexivity. }
  rewrite openBlock_relax.
  destruct (openBlock p token nextToken) as [q|q]; cbn [relaxFlow].
  { injection H as H. subst p'. reflexivity. }
  rewrite captureTables_relax, captureParameters_relax.
  set (q2 := captureParameters (captureTables q token nextToken) token) in *.
  change (statement (relax q2)) with (statement q2).
  match type of H with
  | (if ?c then _ else _) = _ => destruct c
  end.
  { injection H as H. subst p'. rewrite setPrevToken_relax. reflexivity. }
  rewrite skipModifiers_relax.
  destruct (skipModifiers q2 token) as [q3|q3]; cbn [relaxFlow].
  { injection H as H. subst p'. reflexivity. }
  apply runStep_relax. exact H.
Qed.

Lemma createStatementParserByToken_relax :
  forall token nextToken d tables pt p,
    createStatementParserByToken token nextToken (mkParseOptions true d tables pt) = Ok p ->
    createStatementParserByToken token nextToken (mkParseOptions false d tables pt)
    = Ok (relax p).
Proof.
  intros token nextToken d tables pt p H. unfold createStatementParserByToken in *.
  cbn [poDialect IsStrict negb] in *.
  match type of H with
  | match ?b with Some _ => _ | None => _ end = _ =>
    match goal with
    | |- match ?b' with Some _ => _ | None => _ end = _ =>
      assert (Hb : b' = option_map relax b)
    end
  end.
  { repeat match goal with
           | |- context [if ?c then _ else _] => destruct c
           end; reflexivity. }
  rewrite Hb.
  match type of H with
  | match ?b with Some _ => _ | None => _ end = _ => destruct b; [|discriminate H]
  end.
  injection H as H. subst p. reflexivity.
Qed.

(** The state of the loop of [Parse], with strict mode switched off in the
    statement parser it holds. *)
Definition relaxLoop (ls : loopState) : loopState :=
  mkLoop (prevState ls) (option_map relax (statementParser ls)) (cte ls)
         (topLevelResult ls).

Lemma rememberParameter_relax :
  forall token ls, rememberParameter token (relaxLoop ls) = relaxLoop (rememberParameter token ls).
Proof.
  intros token ls. unfold rememberParameter. cbn [relaxLoop cte].
  destruct (isCte (cte ls) && TokenType_eqb (tokType token) TokenParameter); reflexivity.
Qed.

Lemma dispatch_relax :
  forall d tables pt ls token nextToken tokenState ls',
    dispatch true d tables pt ls token nextToken tokenState = Ok ls' ->
    dispatch false d tables pt (relaxLoop ls) token nextToken tokenState
    = Ok (relaxLoop ls').
Proof.
  intros d tables pt ls token nextToken tokenState ls' H. unfold dispatch in *.
  cbn [relaxLoop statementParser].
  destruct (statementParser ls) as [p|] eqn:Ep; cbn [option_map].
  - unfold insideStatement in *.
    destruct (AddToken p token nextToken) as [q| |] eqn:Ea; try discriminate H.
    apply AddToken_relax in Ea. rewrite Ea. cbn [rbind] in *.
    cbv zeta in *. unfold GetStatement in *.
    change (statement (relax q)) with (statement q).
    cbn [relaxLoop topLevelResult cte].
    destruct (sEndStatement (statement q)); injection H as H; subst ls'; reflexivity.
  - unfold outsideStatement in *. cbv zeta in *.
    change (cte (relaxLoop ls)) with (cte ls).
    match type of H with
    | rbind ?m _ = _ =>
      match goal with
      | |- rbind ?m' _ = _ =>
        assert (Hm : forall l1, m = Ok l1 -> m' = Ok (relaxLoop l1))
      end
    end.
    { intros l1.
      repeat match goal with
             | |- (if ?c then _ else _) = _ -> _ =>
               destruct c;
                 [intros H1; injection H1 as H1; subst l1; unfold consume, relaxLoop;
                  cbn [prevState statementParser cte topLevelResult]; rewrite ?Ep;
                  reflexivity|]
             end.
      intros H1.
      destruct (createStatementParserByToken token nextToken
                  (mkParseOptions true d tables pt)) as [q| |] eqn:Ec; try discriminate H1.
      apply createStatementParserByToken_relax in Ec. rewrite Ec. cbn [rbind] in *.
      destruct (isCte (cte ls)); injection H1 as H1; subst l1; reflexivity. }
    match type of H with
    | rbind ?m _ = _ => destruct m as [l1| |]; try discriminate H
    end.
    rewrite (Hm l1 eq_refl). cbn [rbind] in *.
    injection H as H. subst ls'. rewrite rememberParameter_relax. reflexivity.
Qed.

Lemma parseIteration_relax :
  forall d tables pt ls ls',
    parseIteration true d tables pt ls = Ok ls' ->
    parseIteration false d tables pt (relaxLoop ls) = Ok (relaxLoop ls').
Proof.
  intros d tables pt ls ls' H. unfold parseIteration in *.
  cbn [relaxLoop prevState].
  destruct (ScanToken d pt (initState [] (Some (prevState ls)))) as [[token tokenState]| |];
    try discriminate H.
  cbn [rbind] in *.
  destruct (nextNonWhitespaceToken d pt tokenState) as [nextToken| |]; try discriminate H.
  cbn [rbind] in *. apply dispatch_relax. exact H.
Qed.

Lemma Parse_loop_relax :
  forall d tables pt fuel topLevelEnd ls ls',
    Parse_loop true d tables pt fuel topLevelEnd ls = Ok ls' ->
    Parse_loop false d tables pt fuel topLevelEnd (relaxLoop ls) = Ok (relaxLoop ls').
Proof.
  intros d tables pt. induction fuel as [|n IH]; intros topLevelEnd ls ls' H;
    cbn [Parse_loop] in *; [discriminate H|].
  change (prevState (relaxLoop ls)) with (prevState ls).
  destruct (stPosition (prevState ls) <? topLevelEnd).
  - destruct (parseIteration true d tables pt ls) as [l1| |] eqn:E; try discriminate H.
    apply parseIteration_relax in E. rewrite E. cbn [rbind] in *. apply IH. exact H.
  - injection H as H. subst ls'. reflexivity.
Qed.

Lemma finish_relax : forall ls, finish (relaxLoop ls) = finish ls.
Proof.
  intros ls. unfold finish. cbn [relaxLoop statementParser topLevelResult].
  destruct (statementParser ls) as [p|]; reflexivity.
Qed.

Lemma Parse_relax :
  forall d tables pt (query : string) pr,
    Parse true d tables pt query = Ok pr -> Parse false d tables pt query = Ok pr.
Proof.
  intros d tables pt query pr H. unfold Parse in *. cbv zeta in *.
  match type of H with
  | rbind ?m _ = _ => destruct m as [ls| |] eqn:E; try discriminate H
  end.
  apply Parse_loop_relax in E. unfold relaxLoop at 1 in E.
  cbn [prevState statementParser option_map cte topLevelResult] in E.
  rewrite E. cbn [rbind] in *. rewrite finish_relax. exact H.
Qed.

(** X8: whatever [Identify] answers without an error in strict mode (asked
    for, or by default) it answers in the same way with strict mode switched
    off: strict mode only refuses queries, it never changes a result. *)
Theorem X8_strict_mode_only_refuses :
  forall (query : string) strict dialect tables pt results,
    (strict = None \/ strict = Some true) ->
    Identify query (mkIdentifyOptions strict dialect tables pt) = Ok (Some results, None) ->
    Identify query (mkIdentifyOptions (Some false) dialect tables pt)
    = Ok (Some results, None).
Proof.
  intros query strict dialect tables pt results Hs H.
  unfold Identify, identifyBody in *.
  cbn [optStrict optDialect optIdentifyTables optParamTypes] in *. cbv zeta in *.
  assert (Hst : match strict with Some b => b | None => true end = true)
    by (destruct Hs; subst strict; reflexivity).
  rewrite Hst in H.
  match type of H with
  | match (if ?c then _ else _) with _ => _ end = _ => destruct c; [discriminate H|]
  end.
  match type of H with
  | context [Parse true ?d ?t ?p query] =>
    destruct (Parse true d t p query) as [pr| |] eqn:E;
      [apply Parse_relax in E; rewrite E; exact H
      |cbn [rbind] in H; discriminate H
      |cbn [rbind] in H; discriminate H]
  end.
Qed.

(** ** Statements end on semicolons *)

(** The number of semicolon tokens. *)
Definition semicolons (tokens : list Token) : nat :=
  List.length (filter (fun t => TokenType_eqb (tokType t) TokenSemicolon) tokens).

Lemma semicolons_snoc :
  forall tokens t,
    semicolons (tokens ++ [t])
    = (semicolons tokens
       + if TokenType_eqb (tokType t) TokenSemicolon then 1 else 0)%nat.
Proof.
  intros tokens t. unfold semicolons. rewrite filter_app, length_app. cbn [filter].
  destruct (TokenType_eqb (tokType t) TokenSemicolon); reflexivity.
Qed.

(** Every statement of the body was closed by a semicolon token of its own,
    and the steps of the open statement leave the end marker alone. *)
Definition closedBySemicolons (ls : loopState) : Prop :=
  (List.length (Body (topLevelResult ls)) <= semicolons (Tokens (topLevelResult ls)))%nat
  /\ match statementParser ls with
     | Some p => quietSteps (steps p)
     | None => True
     end.

Lemma consume_closedBySemicolons :
  forall ls c token tokenState,
    closedBySemicolons ls -> closedBySemicolons (consume ls c token tokenState).
Proof.
  intros ls c token tokenState [Hn Hq]. unfold closedBySemicolons, consume.
  cbn [topLevelResult statementParser Body Tokens appendToken].
  rewrite semicolons_snoc. split; [lia | exact Hq].
Qed.

Lemma dispatch_closedBySemicolons :
  forall isStrict d tables pt ls token nextToken tokenState ls',
    closedBySemicolons ls ->
    dispatch isStrict d tables pt ls token nextToken tokenState = Ok ls' ->
    closedBySemicolons ls'.
Proof.
  intros isStrict d tables pt ls token nextToken tokenState ls' Hinv H.
  pose proof Hinv as [Hn Hq].
  unfold dispatch in H. destruct (statementParser ls) as [p|] eqn:Ep.
  - unfold insideStatement in H.
    destruct (AddToken p token nextToken) as [p'| |] eqn:EA; cbn [rbind] in H;
      try discriminate.
    pose proof (@AddToken_endMarker p token nextToken p' Hq EA) as [_ [Hsteps Hmark]].
    unfold GetStatement in H.
    destruct (sEndStatement (statement p')) as [marker|] eqn:Eend.
    + destruct Hmark as [[Ht _] | [_ Hnone]]; [|congruence].
      apply andb_true_iff in Ht. destruct Ht as [Ht _].
      inversion H; subst ls'; clear H. unfold closedBySemicolons.
      cbn [topLevelResult statementParser Body Tokens appendToken appendBody].
      rewrite semicolons_snoc, Ht, length_app. cbn [List.length]. split; [lia | exact I].
    + inversion H; subst ls'; clear H. unfold closedBySemicolons.
      cbn [topLevelResult statementParser Body Tokens appendToken appendBody].
      rewrite semicolons_snoc, Hsteps. split; [lia | exact Hq].
  - unfold outsideStatement in H.
    match type of H with rbind ?r _ = _ => destruct r as [ls1| |] eqn:E1 end;
      cbn [rbind] in H; try discriminate.
    inversion H; subst ls'; clear H.
    assert (H1 : closedBySemicolons ls1).
    { revert E1.
      repeat match goal with
             | |- (if ?c then _ else _) = _ -> _ =>
               lazymatch c with
               | isCte (cte ls) && TokenType_eqb (tokType token) TokenSemicolon =>
                 destruct c eqn:Esemi
               | _ => destruct c
               end;
                 [intros E1; inversion E1; subst ls1; clear E1;
                  try (apply consume_closedBySemicolons; exact Hinv)|]
             end.
      - apply andb_true_iff in Esemi. destruct Esemi as [_ Et].
        unfold closedBySemicolons, consume.
        cbn [topLevelResult statementParser Body Tokens appendToken appendBody].
        rewrite semicolons_snoc, Et, length_app, Ep. cbn [List.length].
        split; [lia | exact I].
      - intros E1.
        destruct (createStatementParserByToken token nextToken
                    (mkParseOptions isStrict d tables pt)) as [q| |] eqn:EC;
          cbn [rbind] in E1; try discriminate.
        destruct (createStatementParserByToken_quiet _ _ _ EC) as [Hquiet _].
        destruct (isCte (cte ls)); inversion E1; subst ls1; clear E1;
          unfold closedBySemicolons;
          cbn [topLevelResult statementParser steps set_statement];
          (split; [exact Hn | exact Hquiet]). }
    unfold rememberParameter.
    destruct (isCte (cte ls1) && TokenType_eqb (tokType token) TokenParameter);
      exact H1.
Qed.

(** X10: [Parse] closes a statement on a semicolon token only: the body it
    returns has at most one statement more than the token list has
    semicolon tokens (the one more is the statement that the end of the
    input closes). *)
Theorem X10_statements_end_on_semicolons :
  forall isStrict d tables pt (query : string) pr,
    Parse isStrict d tables pt query = Ok pr ->
    (List.length (Body pr) <= S (semicolons (Tokens pr)))%nat.
Proof.
  intros isStrict d tables pt query pr H. unfold Parse in H.
  match type of H with rbind (Parse_loop _ _ _ _ ?f ?e ?l) _ = _ =>
    destruct (Parse_loop isStrict d tables pt f e l) as [ls| |] eqn:EL
  end; cbn [rbind] in H; try discriminate.
  inversion H; subst pr; clear H.
  assert (Hinv : closedBySemicolons ls).
  { refine (@Parse_loop_invariant closedBySemicolons isStrict d tables pt _ _ _ _ _ _ EL).
    - intros l1 l2 Hl Hit. unfold parseIteration in Hit.
      destruct (ScanToken d pt (initState [] (Some (prevState l1))))
        as [[token tokenState]| |]; cbn [rbind] in Hit; try discriminate.
      destruct (nextNonWhitespaceToken d pt tokenState) as [nextToken| |];
        cbn [rbind] in Hit; try discriminate.
      eapply dispatch_closedBySemicolons; eassumption.
    - unfold closedBySemicolons. cbn. split; [lia | exact I]. }
  destruct Hinv as [Hn _]. unfold finish.
  destruct (statementParser ls) as [p|]; [|lia].
  destruct (sEndStatement (GetStatement p)); [lia|].
  cbn [Body Tokens appendBody]. rewrite length_app. cbn [List.length]. lia.
Qed.

(** ** Characters and bytes *)

(** A string has at most as many characters as it has bytes. *)
Lemma decodeRunes_length :
  forall n bs, (List.length bs <= n)%nat ->
               (List.length (decodeRunes bs) <= List.length bs)%nat.
Proof.
  induction n as [|n IH]; intros bs Hn.
  - destruct bs; [cbn; lia | cbn in Hn; lia].
  - destruct bs as [|b0 t1]; [cbn; lia|].
    cbn [List.length] in Hn.
    assert (H1 : (List.length (decodeRunes t1) <= List.length t1)%nat)
      by (apply IH; lia).
    cbn [decodeRunes].
    repeat match goal with
           | |- context [if ?c then _ else _] => destruct c
           | |- context [match ?l with [] => _ | _ :: _ => _ end] =>
             is_var l; destruct l
           end;
      cbn [List.length] in *;
      try lia;
      match goal with
      | |- (S (List.length (decodeRunes ?t)) <= _)%nat =>
        assert (List.length (decodeRunes t) <= List.length t)%nat
          by (apply IH; cbn [List.length]; lia);
          cbn [List.length] in *; lia
      end.
Qed.

Lemma length_list_ascii_of_string :
  forall s, List.length (list_ascii_of_string s) = String.length s.
Proof. induction s as [|a s IH]; cbn; [reflexivity | rewrite IH; reflexivity]. Qed.

Lemma runes_at_most_bytes :
  forall s : string, llen (runes_of_string s) <= len s.
Proof.
  intros s. unfold llen, len, runes_of_string.
  pose proof (@decodeRunes_length (List.length (bytes_of_string s)) (bytes_of_string s)
                (Nat.le_refl _)) as H.
  unfold bytes_of_string in *. rewrite length_map, length_list_ascii_of_string in H. lia.
Qed.

(** ** Strict mode: the statements lie within the input *)

(** Every statement of the body starts at an offset of the input, ends at
    or after its start, and ends before the offset [n]. *)
Definition within (n : Z) (body : list ConcreteStatement) : Prop :=
  Forall (fun c => 0 <= cStart c <= cEnd c /\ cEnd c < n) body.

Lemma within_snoc :
  forall n body c,
    within n body -> 0 <= cStart c <= cEnd c -> cEnd c < n -> within n (body ++ [c]).
Proof.
  intros n body c Hb H1 H2. unfold within. apply Forall_app. split; [exact Hb|].
  constructor; [split; assumption | constructor].
Qed.

(** What one turn of the loop does to the body in strict mode: nothing, or
    one more statement, which ends on the token of the turn. *)
Lemma dispatch_body_strict :
  forall d tables pt ls token nextToken tokenState ls',
    inOrder d pt ls ->
    stPosition (prevState ls) < llen (stInput (prevState ls)) - 1 ->
    ScanToken d pt (initState [] (Some (prevState ls))) = Ok (token, tokenState) ->
    dispatch true d tables pt ls token nextToken tokenState = Ok ls' ->
    prEnd (topLevelResult ls') = prEnd (topLevelResult ls)
    /\ (Body (topLevelResult ls') = Body (topLevelResult ls)
        \/ exists c,
            Body (topLevelResult ls') = Body (topLevelResult ls) ++ [c]
            /\ 0 <= cStart c <= cEnd c /\ cEnd c <= stPosition tokenState).
Proof.
  intros d tables pt ls token nextToken tokenState ls' [Hs [Hpos Hph]] Hlt ES H.
  pose proof (@ScanToken_semicolon d pt _ _ _ ES) as Hsemi.
  pose proof (@ScanToken_spec d pt _ _ _ ES) as [_ [Hstart [_ [Hadv _]]]].
  specialize (Hadv Hlt).
  unfold dispatch in H. destruct (statementParser ls) as [p|] eqn:Ep.
  - destruct Hph as [Hcte [Hq [Hsteady [Hend Hph]]]].
    unfold insideStatement in H.
    destruct (AddToken p token nextToken) as [p'| |] eqn:EA; cbn [rbind] in H;
      try discriminate.
    pose proof (@AddToken_endMarker p token nextToken p' Hq EA) as [_ [Hsteps Hmark]].
    unfold GetStatement in H.
    destruct (sEndStatement (statement p')) as [marker|] eqn:Eend'.
    + destruct Hmark as [[Ht _] | [_ Hn]]; [|congruence].
      apply andb_true_iff in Ht. destruct Ht as [Ht _].
      assert (Hst : 0 <= sStart (statement p') <= stPosition (prevState ls)).
      { destruct Hph as [[Hst Hb] | [Hb [Hf [_ Hverb]]]].
        - rewrite (@AddToken_start p token nextToken p' Hsteady (proj1 Hst) EA). exact Hst.
        - destruct (Hverb token tokenState ES) as [Hk Hw].
          apply TokenType_eqb_eq in Ht. rewrite Ht in Hk. discriminate Hk. }
      apply TokenType_eqb_eq in Ht. specialize (Hsemi Ht).
      inversion H; subst ls'; clear H.
      cbn [topLevelResult Body prEnd appendBody appendToken].
      split; [reflexivity|]. right. eexists. split; [reflexivity|].
      cbn [ToConcrete cStart cEnd set_sEnd sStart sEnd]. lia.
    + inversion H; subst ls'; clear H.
      cbn [topLevelResult Body prEnd appendBody appendToken].
      split; [reflexivity | left; reflexivity].
  - unfold outsideStatement in H.
    match type of H with rbind ?r _ = _ => destruct r as [ls1| |] eqn:E1 end;
      cbn [rbind] in H; try discriminate.
    inversion H; subst ls'; clear H.
    assert (Hr : topLevelResult (rememberParameter token ls1) = topLevelResult ls1).
    { unfold rememberParameter.
      destruct (isCte (cte ls1) && TokenType_eqb (tokType token) TokenParameter);
        reflexivity. }
    rewrite Hr. clear Hr. revert E1.
    repeat match goal with
           | |- (if ?c then _ else _) = _ -> _ =>
             lazymatch c with
             | isCte (cte ls) && TokenType_eqb (tokType token) TokenSemicolon =>
               destruct c eqn:Esemi
             | _ => destruct c
             end;
               [intros E1; inversion E1; subst ls1; clear E1;
                try (cbn [topLevelResult Body prEnd appendToken consume];
                     split; [reflexivity | left; reflexivity])|]
           end.
    + apply andb_true_iff in Esemi. destruct Esemi as [Ec Et].
      rewrite Ec in Hph. destruct Hph as [Hc _].
      apply TokenType_eqb_eq in Et. specialize (Hsemi Et).
      cbn [topLevelResult Body prEnd appendBody appendToken consume].
      split; [reflexivity|]. right. eexists. split; [reflexivity|].
      cbn [cStart cEnd]. lia.
    + intros E1.
      destruct (createStatementParserByToken token nextToken
                  (mkParseOptions true d tables pt)) as [q| |];
        cbn [rbind] in E1; try discriminate.
      destruct (isCte (cte ls)); inversion E1; subst ls1; clear E1;
        cbn [topLevelResult]; (split; [reflexivity | left; reflexivity]).
Qed.

(** The invariant of the loop of [Parse] in strict mode, with the bounds
    of the statements. *)
Definition strictInvariant (d : Dialect) (pt : option ParamTypes) (input : list rune)
           (ls : loopState) : Prop :=
  inOrder d pt ls
  /\ stPosition (prevState ls) <= llen input - 1
  /\ prEnd (topLevelResult ls) = llen input - 1
  /\ within (llen input) (Body (topLevelResult ls)).

Lemma parseIteration_strictInvariant :
  forall d tables pt input ls ls',
    strictInvariant d pt input ls -> stInput (prevState ls) = input ->
    stPosition (prevState ls) < llen input - 1 ->
    parseIteration true d tables pt ls = Ok ls' ->
    strictInvariant d pt input ls'.
Proof.
  intros d tables pt input ls ls' [Hin [Hle [Hend Hw]]] HI Hlt H.
  rewrite <- HI in Hlt.
  pose proof (@parseIteration_inOrder d tables pt ls ls' Hin Hlt H) as Hin'.
  unfold parseIteration in H.
  destruct (ScanToken d pt (initState [] (Some (prevState ls)))) as [[token tokenState]| |]
    eqn:ES; cbn [rbind] in H; try discriminate.
  destruct (nextNonWhitespaceToken d pt tokenState) as [nextToken| |];
    cbn [rbind] in H; try discriminate.
  pose proof (@ScanToken_spec d pt _ _ _ ES) as [_ [_ [_ [Hadv _]]]].
  specialize (Hadv Hlt). rewrite HI in Hadv.
  pose proof (@dispatch_body_strict d tables pt ls token nextToken tokenState ls'
                Hin Hlt ES H) as [Hpr Hbody].
  split; [exact Hin'|]. split.
  - destruct (dispatch_cursor _ _ _ _ _ _ _ _ H) as [Hc | [Hc _]]; rewrite Hc; lia.
  - split; [congruence|].
    destruct Hbody as [Hb | [c [Hb [Hc1 Hc2]]]]; rewrite Hb; [exact Hw|].
    apply within_snoc; [exact Hw | exact Hc1 | lia].
Qed.

(** X9: in strict mode every statement that [Parse] returns lies within the
    input: its start is an offset of the input, its end is at or after its
    start and at most the last offset.  So the text that [Identify] cuts
    out of the query for each statement is always in range: in strict mode
    a query that [Parse] accepts has one result for every statement. *)
Theorem X9_strict_statements_within_input :
  forall d tables pt (query : string) pr,
    Parse true d tables pt query = Ok pr ->
    Forall (fun c => 0 <= cStart c <= cEnd c
                     /\ cEnd c <= llen (runes_of_string query) - 1) (Body pr)
    /\ forall sortParams,
        exists results,
          identifyResults query sortParams (Body pr) = Ok results
          /\ List.length results = List.length (Body pr).
Proof.
  intros d tables pt query pr H.
  assert (Hw : within (llen (runes_of_string query)) (Body pr)).
  { unfold Parse in H.
    match type of H with rbind (Parse_loop _ _ _ _ ?f ?e ?l) _ = _ =>
      destruct (Parse_loop true d tables pt f e l) as [ls| |] eqn:EL
    end; cbn [rbind] in H; try discriminate.
    inversion H; subst pr; clear H. cbn [initState stEnd] in EL.
    eapply (@Parse_loop_guarded (strictInvariant d pt (runes_of_string query)))
      in EL.
    - destruct EL as [[[Hs [Hpos Hph]] [Hle [Hend Hw]]] [HI Hge]]. unfold finish.
      destruct (statementParser ls) as [p|]; [|exact Hw].
      destruct Hph as [_ [_ [_ [Hnone Hph]]]]. unfold GetStatement. rewrite Hnone.
      cbn [Body appendBody].
      destruct Hph as [[Hst _] | [_ [_ [Hlt _]]]]; [|rewrite HI in Hlt; lia].
      apply within_snoc; [exact Hw | |];
        cbn [ToConcrete cStart cEnd set_sEnd sStart sEnd]; lia.
    - intros l1 l2 Hl HI Hlt Hit. eapply parseIteration_strictInvariant; eassumption.
    - reflexivity.
    - unfold strictInvariant, inOrder, within.
      cbn [prevState statementParser cte topLevelResult Body prEnd isCte initState
                     stPosition].
      split; [split; [|split]|split; [|split]].
      + intros i j a b Ha. destruct i; discriminate Ha.
      + lia.
      + constructor.
      + unfold llen. lia.
      + reflexivity.
      + constructor. }
  split.
  { unfold within in Hw. eapply Forall_impl; [|exact Hw]. cbv beta. intros c Hc. lia. }
  intros sortParams.
  pose proof (runes_at_most_bytes query) as Hlen.
  revert Hw. generalize (Body pr) as body.
  induction body as [|c rest IH]; intros Hw.
  - exists []. split; reflexivity.
  - inversion Hw as [|c0 rest0 [Hc1 Hc2] Hrest]; subst c0 rest0.
    destruct (IH Hrest) as [results [Hres Hl]].
    cbn [identifyResults]. unfold substr, slice.
    assert (Hb : llen (bytes_of_string query) = len query).
    { unfold llen, len, bytes_of_string.
      rewrite length_map, length_list_ascii_of_string. reflexivity. }
    rewrite Hb.
    assert (Hok : (0 <=? cStart c) && (cStart c <=? Z.min (cEnd c + 1) (len query))
                  && (Z.min (cEnd c + 1) (len query) <=? len query) = true).
    { rewrite !andb_true_iff, !Z.leb_le. lia. }
    rewrite Hok. cbn [rbind]. rewrite Hres. cbn [rbind].
    eexists. split; [reflexivity|]. cbn [List.length]. rewrite Hl. reflexivity.
Qed.


(** ** Whitespace tokens *)

(** The characters of the input at the offsets [lo] to [hi] are whitespace. *)
Definition blankRun (input : list rune) (lo hi : Z) : Prop :=
  forall i, lo <= i <= hi -> isWhitespace (nth (Z.to_nat i) input 0) = true.

(** No character of the input is the end marker of the cursor. *)
Definition noEof (input : list rune) : Prop := Forall (fun r => r <> eof) input.

Lemma read0_char :
  forall st ch st',
    -1 <= stPosition st -> stPosition st < llen (stInput st) - 1 ->
    read 0 st = Ok (ch, st') ->
    ch = nth (Z.to_nat (stPosition st + 1)) (stInput st) 0
    /\ st' = set_Position st (stPosition st + 1).
Proof.
  intros st ch st' Hp Hlt H. unfold read in H.
  destruct (stPosition st + 0 >=? llen (stInput st) - 1) eqn:E; [lia|].
  unfold index in H. cbn [stInput stPosition set_Position] in H.
  destruct ((0 <=? stPosition st + 1 + 0) && (stPosition st + 1 + 0 <? llen (stInput st)));
    cbn [rbind] in H; [|discriminate H].
  inversion H; subst. replace (stPosition st + 1 + 0) with (stPosition st + 1) by lia.
  split; reflexivity.
Qed.

Lemma noEof_nth :
  forall input i, noEof input -> 0 <= i < llen input -> nth (Z.to_nat i) input 0 <> eof.
Proof.
  intros input i H Hi. unfold noEof in H. rewrite Forall_forall in H. apply H.
  apply nth_In. unfold llen in Hi. lia.
Qed.

(** The loop of [scanWhitespace]: it stops behind the run of whitespace,
    at the end of the input or on the first character that is not
    whitespace. *)
Lemma whitespace_loop :
  forall fuel st nextChar st',
    noEof (stInput st) -> 0 <= stStart st <= stPosition st ->
    blankRun (stInput st) (stStart st) (stPosition st) ->
    iterate fuel
            (fun _ : unit =>
               ch <- read 0 ;; ret (if negb (isWhitespace ch) then inr ch else inl tt))
            tt st = Ok (nextChar, st') ->
    sameInput st st'
    /\ exists cur,
        stPosition st <= cur /\ blankRun (stInput st) (stStart st) cur
        /\ ((nextChar = eof /\ stPosition st' = cur /\ llen (stInput st) - 1 <= cur)
            \/ (nextChar <> eof /\ stPosition st' = cur + 1
                /\ cur + 1 <= llen (stInput st) - 1
                /\ isWhitespace (nth (Z.to_nat (cur + 1)) (stInput st) 0) = false)).
Proof.
  induction fuel as [|n IH]; intros st nextChar st' Hne Hs Hrun H; cbn [iterate] in H;
    [discriminate H|].
  unfold bind at 1 in H.
  destruct (read 0 st) as [[ch st1]| |] eqn:E; try discriminate H.
  unfold ret in H.
  destruct (read0_spec _ E) as [[-> [-> Hge]] | [Hlt Hst1]].
  - change (isWhitespace eof) with false in H. cbn [negb] in H.
    inversion H; subst nextChar st'; clear H.
    split; [repeat split|]. exists (stPosition st).
    split; [lia|]. split; [exact Hrun|]. left. repeat split. exact Hge.
  - destruct (@read0_char st ch st1 ltac:(lia) Hlt E) as [Hch _]. subst st1.
    destruct (isWhitespace ch) eqn:Ew; cbn [negb] in H.
    + apply IH in H.
      * cbn [stInput stStart stPosition set_Position] in H.
        destruct H as [Hsame [cur [Hle [Hrun' Hex]]]].
        split; [exact Hsame|]. exists cur. split; [lia|]. split; [exact Hrun' | exact Hex].
      * exact Hne.
      * cbn [stStart stPosition set_Position]. lia.
      * cbn [stInput stStart stPosition set_Position]. intros i Hi.
        destruct (Z.eq_dec i (stPosition st + 1)) as [-> | Hneq].
        -- rewrite <- Hch. exact Ew.
        -- apply Hrun. lia.
    + inversion H; subst nextChar st'; clear H.
      split; [repeat split|]. exists (stPosition st).
      split; [lia|]. split; [exact Hrun|]. right.
      cbn [stPosition set_Position]. rewrite <- Hch.
      split; [|split; [reflexivity | split; [lia | exact Ew]]].
      rewrite Hch. apply noEof_nth; [exact Hne | lia].
Qed.

(** [scanWhitespace], entered on a whitespace character: the cursor ends on
    the last character of the run of whitespace that starts there. *)
Lemma scanWhitespace_run :
  forall st tok st',
    noEof (stInput st) -> 0 <= stStart st <= stPosition st ->
    blankRun (stInput st) (stStart st) (stPosition st) ->
    scanWhitespace st = Ok (tok, st') ->
    sameInput st st' /\ stPosition st <= stPosition st'
    /\ blankRun (stInput st) (stStart st) (stPosition st')
    /\ (stPosition st' < llen (stInput st) - 1 ->
        isWhitespace (nth (Z.to_nat (stPosition st' + 1)) (stInput st) 0) = false).
Proof.
  intros st tok st' Hne Hs Hrun H. unfold scanWhitespace in H.
  run_bind H. unfold loop in E. apply whitespace_loop in E; [|assumption..].
  destruct E as [[HI [HS HE]] [cur [Hle [Hrun' Hex]]]].
  run_bind H.
  assert (Hs0 : sameInput st s0 /\ stPosition s0 = cur).
  { destruct Hex as [[-> [Hp Hge]] | [Hneq [Hp [Hlt Hw]]]].
    - change (negb (eof =? eof)) with false in E. inversion E; subst s0.
      split; [repeat split; assumption | exact Hp].
    - replace (negb (r =? eof)) with true in E
        by (symmetry; apply negb_true_iff, Z.eqb_neq; exact Hneq).
      unfold unread in E.
      destruct (stPosition s <=? stStart s) eqn:Eu; [apply Z.leb_le in Eu; lia|].
      inversion E; subst s0. cbn [stPosition set_Position].
      split; [repeat split; assumption | lia]. }
  destruct Hs0 as [Hsame0 Hp0].
  run_bind H. unfold tokenText in E0.
  destruct (slice (stInput s0) (stStart s0) (stPosition s0 + 1)); cbn [rbind] in E0;
    try discriminate E0.
  inversion E0; subst s2; clear E0.
  unfold tokenOf, bind, get, ret in H. inversion H; subst st'; clear H.
  split; [exact Hsame0|]. rewrite Hp0. split; [exact Hle|]. split; [exact Hrun'|].
  intros Hlt. destruct Hex as [[_ [_ Hge]] | [_ [_ [_ Hw]]]]; [lia | exact Hw].
Qed.

(** A whitespace token of [ScanToken] covers a run of whitespace that cannot
    be extended. *)
Lemma ScanToken_whitespace :
  forall d pt prev tok st',
    noEof (stInput prev) -> -1 <= stPosition prev ->
    ScanToken d pt (initState [] (Some prev)) = Ok (tok, st') ->
    tokType tok = TokenWhitespace ->
    stPosition prev < stPosition st'
    /\ blankRun (stInput prev) (stPosition prev + 1) (stPosition st')
    /\ (stPosition st' < llen (stInput prev) - 1 ->
        isWhitespace (nth (Z.to_nat (stPosition st' + 1)) (stInput prev) 0) = false).
Proof.
  intros d pt prev tok st' Hne Hp H Hty. unfold ScanToken in H. run_bind H.
  pose proof (made_scanAt d pt r _ H) as [_ Hws]. specialize (Hws Hty).
  unfold scanAt in H. rewrite Hws in H.
  destruct (read0_spec _ E) as [[_ [-> _]] | [Hlt Hs]].
  { discriminate Hws. }
  cbn [initState stInput stPosition] in Hlt.
  destruct (@read0_char (initState [] (Some prev)) r s
              ltac:(cbn [initState stPosition]; lia)
              ltac:(cbn [initState stInput stPosition]; lia) E) as [Hch _].
  cbn [initState stInput stPosition] in Hch.
  subst s. apply scanWhitespace_run in H.
  - cbn [initState stInput stStart stPosition set_Position] in H.
    destruct H as [_ [Hle [Hrun Hmax]]].
    split; [lia|]. split; [exact Hrun | exact Hmax].
  - exact Hne.
  - cbn [initState stStart stPosition set_Position]. lia.
  - cbn [initState stInput stStart stPosition set_Position]. intros i Hi.
    replace i with (stPosition prev + 1) by lia. rewrite <- Hch. exact Hws.
Qed.

Lemma decodeRunes_nonnegative :
  forall n bs, (List.length bs <= n)%nat ->
               Forall (fun b => 0 <= b) bs -> Forall (fun r => 0 <= r) (decodeRunes bs).
Proof.
  induction n as [|n IH]; intros bs Hn Hb.
  - destruct bs; [constructor | cbn in Hn; lia].
  - destruct bs as [|b0 t1]; [constructor|].
    cbn [List.length] in Hn.
    cbn [decodeRunes].
    repeat match goal with
           | |- context [if ?c then _ else _] => destruct c
           | |- context [match ?l with [] => _ | _ :: _ => _ end] =>
             is_var l; destruct l
           end;
      repeat match goal with
             | H : Forall _ (_ :: _) |- _ => inversion H; subst; clear H
             end;
      (constructor;
       [ first [ assumption
               | unfold RuneError; lia
               | repeat first [ apply Z.lor_nonneg; split
                              | apply Z.shiftl_nonneg
                              | apply Z.land_nonneg; right; lia ] ]
       | apply IH; [cbn [List.length] in *; lia
                  | first [assumption | repeat (constructor; try assumption)]] ]).
Qed.

Lemma runes_noEof : forall s : string, noEof (runes_of_string s).
Proof.
  intros s. unfold noEof, runes_of_string.
  assert (H : Forall (fun r => 0 <= r) (decodeRunes (bytes_of_string s))).
  { apply (@decodeRunes_nonnegative (List.length (bytes_of_string s))); [lia|].
    unfold bytes_of_string. apply Forall_forall. intros b Hb.
    apply in_map_iff in Hb. destruct Hb as [a [<- _]]. unfold byte_of_ascii. lia. }
  eapply Forall_impl; [|exact H]. cbv beta. intros r Hr. unfold eof. lia.
Qed.

(** The text is a run of whitespace characters, and is not empty. *)
Definition blankText (value : string) : Prop :=
  exists run : list rune,
    run <> [] /\ Forall (fun ch => isWhitespace ch = true) run
    /\ value = string_of_runes run.

(** No whitespace token is followed by a whitespace token. *)
Definition noTwoBlanks (tokens : list Token) : Prop :=
  forall (i : nat) (a b : Token),
    nth_error tokens i = Some a -> nth_error tokens (S i) = Some b ->
    tokType a = TokenWhitespace -> tokType b <> TokenWhitespace.

Lemma noTwoBlanks_snoc :
  forall tokens t,
    noTwoBlanks tokens ->
    (forall a, nth_error tokens (List.length tokens - 1) = Some a ->
               tokType a = TokenWhitespace -> tokType t <> TokenWhitespace) ->
    noTwoBlanks (tokens ++ [t]).
Proof.
  intros tokens t Hn Hlast i a b Ha Hb Hty.
  assert (Hi : (S i < List.length (tokens ++ [t]))%nat)
    by (apply nth_error_Some; congruence).
  rewrite length_app in Hi. cbn [List.length] in Hi.
  rewrite nth_error_app1 in Ha by lia.
  destruct (Nat.eq_dec (S i) (List.length tokens)) as [He | Hne].
  - rewrite nth_error_app2 in Hb by lia.
    replace (S i - List.length tokens)%nat with 0%nat in Hb by lia.
    inversion Hb; subst b. apply (Hlast a); [|exact Hty].
    replace (List.length tokens - 1)%nat with i by lia. exact Ha.
  - rewrite nth_error_app1 in Hb by lia. exact (Hn i a b Ha Hb Hty).
Qed.

Lemma blankRun_stretch :
  forall input lo hi,
    0 <= lo -> blankRun input lo hi ->
    Forall (fun ch => isWhitespace ch = true) (stretch input lo (hi + 1)).
Proof.
  intros input lo hi Hlo Hrun. apply Forall_forall. intros x Hx.
  apply (In_nth _ _ 0) in Hx. destruct Hx as [n [Hn <-]].
  unfold stretch in *. rewrite length_firstn in Hn.
  rewrite nth_firstn.
  replace (n <? Z.to_nat (hi + 1 - lo))%nat with true
    by (symmetry; apply Nat.ltb_lt; lia).
  rewrite nth_skipn.
  replace (Z.to_nat lo + n)%nat with (Z.to_nat (lo + Z.of_nat n)) by lia.
  apply Hrun. lia.
Qed.

(** The invariant of the loop of [Parse] on the whitespace tokens: the last
    one ends where the whitespace ends. *)
Definition blanksTogether (input : list rune) (ls : loopState) : Prop :=
  let tokens := Tokens (topLevelResult ls) in
  let pos := stPosition (prevState ls) in
  -1 <= pos
  /\ Forall (fun tok => tokType tok = TokenWhitespace -> blankText (tokValue tok)) tokens
  /\ noTwoBlanks tokens
  /\ (forall t,
         nth_error tokens (List.length tokens - 1) = Some t ->
         tokType t = TokenWhitespace -> pos < llen input - 1 ->
         isWhitespace (nth (Z.to_nat (pos + 1)) input 0) = false).

Lemma parseIteration_blanksTogether :
  forall isStrict d tables pt input ls ls',
    noEof input ->
    blanksTogether input ls -> stInput (prevState ls) = input ->
    stPosition (prevState ls) < llen input - 1 ->
    parseIteration isStrict d tables pt ls = Ok ls' ->
    blanksTogether input ls'.
Proof.
  intros isStrict d tables pt input ls ls' Hne [Hp [Hall [Hn Hlast]]] HI Hlt H.
  unfold parseIteration in H.
  destruct (ScanToken d pt (initState [] (Some (prevState ls)))) as [[token tokenState]| |]
    eqn:ES; cbn [rbind] in H; try discriminate.
  destruct (nextNonWhitespaceToken d pt tokenState) as [nextToken| |];
    cbn [rbind] in H; try discriminate.
  pose proof (@ScanToken_cursorStart d pt _ _ _ ES) as Hcur.
  pose proof (@ScanToken_spec d pt _ _ _ ES) as [HI' [_ [Hle _]]].
  assert (Hsp : spelled token tokenState).
  { pose proof ES as ES'. unfold ScanToken in ES'. run_bind ES'.
    eapply spelled_scanAt. exact ES'. }
  destruct Hsp as [_ Hv]. rewrite HI', Hcur, HI in Hv.
  assert (Hws : tokType token = TokenWhitespace ->
                stPosition (prevState ls) < stPosition tokenState
                /\ blankRun input (stPosition (prevState ls) + 1) (stPosition tokenState)
                /\ (stPosition tokenState < llen input - 1 ->
                    isWhitespace (nth (Z.to_nat (stPosition tokenState + 1)) input 0)
                    = false)).
  { intros Hty. rewrite <- HI.
    apply (@ScanToken_whitespace d pt (prevState ls) token tokenState); try assumption.
    rewrite HI. exact Hne. }
  apply dispatch_tokens in H. unfold blanksTogether.
  destruct H as [[-> ->] | [-> ->]]; [|repeat split; assumption].
  split; [lia|]. split; [|split].
  - apply Forall_app. split; [exact Hall|]. constructor; [|constructor].
    intros Hty. destruct (Hws Hty) as [Hadv [Hrun _]].
    exists (stretch input (stPosition (prevState ls) + 1) (stPosition tokenState + 1)).
    split; [|split; [apply blankRun_stretch; [lia | exact Hrun] | exact Hv]].
    intros Hnil. apply (f_equal (@List.length rune)) in Hnil. unfold stretch in Hnil.
    rewrite length_firstn, length_skipn in Hnil. cbn [List.length] in Hnil.
    unfold llen in Hlt. lia.
  - apply noTwoBlanks_snoc; [exact Hn|].
    intros a Ha Hta Hty. destruct (Hws Hty) as [Hadv [Hrun _]].
    specialize (Hlast a Ha Hta Hlt).
    rewrite (Hrun (stPosition (prevState ls) + 1)) in Hlast by lia. discriminate Hlast.
  - intros t Ht Hty Hlt'. rewrite length_app in Ht. cbn [List.length] in Ht.
    rewrite nth_error_app2 in Ht by lia.
    replace (List.length (Tokens (topLevelResult ls)) + 1 - 1
             - List.length (Tokens (topLevelResult ls)))%nat with 0%nat in Ht by lia.
    inversion Ht; subst t. destruct (Hws Hty) as [_ [_ Hmax]]. exact (Hmax Hlt').
Qed.


(** ** The refusal of a finished statement *)

(** The message with which [AddToken] refuses a token for a statement that
    has its end marker. *)
Definition finishedMessage : string := "This statement has already got to the end.".

(** [m] never panics with that message. *)
Definition hushed {A : Type} (m : M A) : Prop :=
  forall st, m st <> Panic finishedMessage.

Lemma hushed_ret : forall A (a : A), hushed (ret a).
Proof. intros A a st. discriminate. Qed.

Lemma hushed_get : hushed get.
Proof. intros st. discriminate. Qed.

Lemma hushed_lift :
  forall A (r : result A), r <> Panic finishedMessage -> hushed (lift r).
Proof.
  intros A r Hr st. unfold lift. destruct r as [a|msg|]; cbn [rbind]; try discriminate.
  intros H. apply Hr. inversion H. reflexivity.
Qed.

Lemma hushed_bind :
  forall A B (m : M A) (k : A -> M B),
    hushed m -> (forall a, hushed (k a)) -> hushed (bind m k).
Proof.
  intros A B m k Hm Hk st. unfold bind.
  destruct (m st) as [[a st1]|msg|] eqn:E; try discriminate.
  - apply Hk.
  - intros H. injection H as H. subst msg. exact (Hm st E).
Qed.

Lemma slice_hushed :
  forall A (xs : list A) lo hi, slice xs lo hi <> Panic finishedMessage.
Proof. intros A xs lo hi. unfold slice. destruct (_ && _); discriminate. Qed.

Lemma index_hushed : forall xs i, index xs i <> Panic finishedMessage.
Proof. intros xs i. unfold index. destruct (_ && _); discriminate. Qed.

Lemma hushed_read : forall skip, hushed (read skip).
Proof.
  intros skip st. unfold read. destruct (_ >=? _); [discriminate|].
  destruct (index _ _) as [c|msg|] eqn:E; cbn [rbind]; try discriminate.
  intros H. injection H as H. subst msg. exact (index_hushed _ _ E).
Qed.

Lemma hushed_unread : hushed unread.
Proof. intros st. unfold unread. destruct (_ <=? _); discriminate. Qed.

Lemma hushed_peek : hushed peek.
Proof.
  intros st. unfold peek. destruct (_ >=? _); [discriminate|].
  destruct (index _ _) as [c|msg|] eqn:E; cbn [rbind]; try discriminate.
  intros H. injection H as H. subst msg. exact (index_hushed _ _ E).
Qed.

Lemma hushed_peekBack : hushed peekBack.
Proof.
  intros st. unfold peekBack. destruct (_ =? _); [discriminate|].
  destruct (index _ _) as [c|msg|] eqn:E; cbn [rbind]; try discriminate.
  intros H. injection H as H. subst msg. exact (index_hushed _ _ E).
Qed.

Lemma hushed_tokenText : hushed tokenText.
Proof.
  intros st. unfold tokenText.
  destruct (slice _ _ _) as [c|msg|] eqn:E; cbn [rbind]; try discriminate.
  intros H. injection H as H. subst msg. exact (slice_hushed _ _ _ E).
Qed.

Lemma hushed_remainingInput : hushed remainingInput.
Proof.
  intros st. unfold remainingInput.
  destruct (slice _ _ _) as [c|msg|] eqn:E; cbn [rbind]; try discriminate.
  intros H. injection H as H. subst msg. exact (slice_hushed _ _ _ E).
Qed.

Lemma hushed_tokenOf : forall ty value, hushed (tokenOf ty value).
Proof. intros ty value st. discriminate. Qed.

Lemma hushed_times : forall (body : M unit) n, hushed body -> hushed (times n body).
Proof.
  intros body n Hb. induction n as [|n IH]; cbn [times].
  - apply hushed_ret.
  - apply hushed_bind; [exact Hb | intros _; exact IH].
Qed.

Lemma hushed_iterate :
  forall X A (body : X -> M (X + A)),
    (forall x, hushed (body x)) -> forall fuel x, hushed (iterate fuel body x).
Proof.
  intros X A body Hb. induction fuel as [|n IH]; intros x st; cbn [iterate];
    [discriminate|].
  destruct (body x st) as [[[x'|r] st1]|msg|] eqn:E; try discriminate.
  - apply IH.
  - intros H. injection H as H. subst msg. exact (Hb x st E).
Qed.

Lemma hushed_loop :
  forall X A (body : X -> M (X + A)) x, (forall x, hushed (body x)) -> hushed (loop body x).
Proof. intros X A body x Hb st. unfold loop. apply hushed_iterate. exact Hb. Qed.

Lemma MustCompile_hushed : forall r, MustCompile r <> Panic finishedMessage.
Proof.
  intros r. unfold MustCompile. destruct (reCompiles _); [discriminate|].
  unfold sappend. cbn [String.append]. discriminate.
Qed.

Lemma getCustomParam_loop_hushed :
  forall text patterns, getCustomParam_loop text patterns <> Panic finishedMessage.
Proof.
  intros text. induction patterns as [|r rest IH]; cbn [getCustomParam_loop];
    [discriminate|].
  destruct (MustCompile r) as [re|msg|] eqn:E; cbn [rbind]; try discriminate.
  - destruct (negb _); [discriminate | exact IH].
  - intros H. injection H as H. subst msg. exact (MustCompile_hushed r E).
Qed.

Lemma isCustomParam_loop_hushed :
  forall text patterns, isCustomParam_loop text patterns <> Panic finishedMessage.
Proof.
  intros text. induction patterns as [|r rest IH]; cbn [isCustomParam_loop];
    [discriminate|].
  destruct (MustCompile r) as [re|msg|] eqn:E; cbn [rbind]; try discriminate.
  - destruct (reFind _ _); [discriminate | exact IH].
  - intros H. injection H as H. subst msg. exact (MustCompile_hushed r E).
Qed.

(** Decompose a goal [hushed m] along the structure of [m]. *)
Ltac hushed_step :=
  lazymatch goal with
  | |- hushed (bind _ _) => apply hushed_bind; [|intros ?]
  | |- hushed (ret _) => apply hushed_ret
  | |- hushed get => apply hushed_get
  | |- hushed (lift (slice _ _ _)) => apply hushed_lift, slice_hushed
  | |- hushed (lift (index _ _)) => apply hushed_lift, index_hushed
  | |- hushed (lift (getCustomParam_loop _ _)) =>
    apply hushed_lift, getCustomParam_loop_hushed
  | |- hushed (lift (isCustomParam_loop _ _)) =>
    apply hushed_lift, isCustomParam_loop_hushed
  | |- hushed (lift (Panic _)) => apply hushed_lift; discriminate
  | |- hushed peek => apply hushed_peek
  | |- hushed peekBack => apply hushed_peekBack
  | |- hushed tokenText => apply hushed_tokenText
  | |- hushed remainingInput => apply hushed_remainingInput
  | |- hushed (tokenOf _ _) => apply hushed_tokenOf
  | |- hushed (read _) => apply hushed_read
  | |- hushed unread => apply hushed_unread
  | |- hushed (times _ _) => apply hushed_times
  | |- hushed (loop _ _) => apply hushed_loop; intros ?
  | |- hushed (if ?c then _ else _) => destruct c
  | |- hushed (match ?x with _ => _ end) => destruct x
  end.

Lemma hushed_scanAt : forall d pt ch, hushed (scanAt d pt ch).
Proof.
  intros d pt ch.
  unfold scanAt, isCommentInline, isCommentBlock, isParameter, isCustomParam,
         isDollarQuotedString, derefParamTypes, scanIndividualCharacter, skipChar,
         scanWhitespace, scanCommentInline, scanCommentBlock, scanString,
         scanParameter, getCustomParam, scanDollarQuotedString, scanQuotedIdentifier,
         scanWord, skipWord.
  repeat hushed_step.
Qed.

Lemma hushed_ScanToken : forall d pt, hushed (ScanToken d pt).
Proof.
  intros d pt. unfold ScanToken. apply hushed_bind; [apply hushed_read|].
  intros ch. apply hushed_scanAt.
Qed.

Lemma nextNonWhitespaceToken_hushed :
  forall d pt state, nextNonWhitespaceToken d pt state <> Panic finishedMessage.
Proof.
  intros d pt state. unfold nextNonWhitespaceToken.
  generalize (S (remaining state)) as fuel. intros fuel. revert state.
  induction fuel as [|n IH]; intros state; cbn [nextNonWhitespaceToken_loop];
    [discriminate|].
  destruct (ScanToken d pt (initState [] (Some state))) as [[token s]|msg|] eqn:E;
    try discriminate.
  - destruct (negb _); [discriminate | apply IH].
  - intros H. injection H as H. subst msg.
    exact (hushed_ScanToken d pt (initState [] (Some state)) E).
Qed.

(** The statement that is open has no end marker, and its steps leave the
    end marker alone. *)
Definition openStatement (ls : loopState) : Prop :=
  match statementParser ls with
  | Some p => sEndStatement (statement p) = None /\ quietSteps (steps p)
  | None => True
  end.

Lemma dispatch_openStatement :
  forall isStrict d tables pt ls token nextToken tokenState ls',
    openStatement ls ->
    dispatch isStrict d tables pt ls token nextToken tokenState = Ok ls' ->
    openStatement ls'.
Proof.
  intros isStrict d tables pt ls token nextToken tokenState ls' Hinv H.
  unfold openStatement in Hinv.
  unfold dispatch in H. destruct (statementParser ls) as [p|] eqn:Ep.
  - destruct Hinv as [Hend Hq]. unfold insideStatement in H.
    destruct (AddToken p token nextToken) as [p'| |] eqn:EA; cbn [rbind] in H;
      try discriminate.
    pose proof (@AddToken_endMarker p token nextToken p' Hq EA) as [_ [Hsteps _]].
    unfold GetStatement in H.
    destruct (sEndStatement (statement p')) as [marker|] eqn:Eend';
      inversion H; subst ls'; clear H; unfold openStatement; cbn [statementParser].
    + exact I.
    + rewrite Hsteps. split; [exact Eend' | exact Hq].
  - unfold outsideStatement in H.
    match type of H with rbind ?r _ = _ => destruct r as [ls1| |] eqn:E1 end;
      cbn [rbind] in H; try discriminate.
    inversion H; subst ls'; clear H.
    assert (H1 : openStatement ls1).
    { revert E1.
      repeat match goal with
             | |- (if ?c then _ else _) = _ -> _ =>
               destruct c;
                 [intros E1; inversion E1; subst ls1; clear E1;
                  unfold openStatement, consume; cbn [statementParser]; rewrite Ep;
                  exact I|]
             end.
      intros E1.
      destruct (createStatementParserByToken token nextToken
                  (mkParseOptions isStrict d tables pt)) as [q| |] eqn:EC;
        cbn [rbind] in E1; try discriminate.
      destruct (createStatementParserByToken_quiet _ _ _ EC) as [Hquiet [Hend _]].
      destruct (isCte (cte ls)); inversion E1; subst ls1; clear E1;
        unfold openStatement, GetStatement;
        cbn [statementParser steps statement set_statement set_sParameters set_sIsCte
                             set_sStart sEndStatement];
        (split; [exact Hend | exact Hquiet]). }
    unfold rememberParameter.
    destruct (isCte (cte ls1) && TokenType_eqb (tokType token) TokenParameter);
      exact H1.
Qed.

Lemma stepAt_hushed : forall p i, stepAt p i <> Panic finishedMessage.
Proof.
  intros p i. unfold stepAt. destruct (_ && _); [|discriminate].
  destruct (nth_error _ _); discriminate.
Qed.

Lemma runStep_hushed : forall p token, runStep p token <> Panic finishedMessage.
Proof.
  intros p token. unfold runStep, currentStepOf.
  assert (Hrun : forall q step,
             match missingPredecessor q step token with
             | Some msg => Panic msg
             | None =>
               if negb (isValidToken step token) && IsStrict (options q)
               then Panic (unexpectedToken q step token)
               else Ok (applyStep q step token)
             end <> Panic finishedMessage).
  { intros q step. unfold missingPredecessor, unexpectedToken.
    destruct (prevToken q) as [prev|].
    - match goal with
      | |- match (if ?c then _ else _) with _ => _ end <> _ => destruct c
      end.
      + unfold sappend. cbn [String.append]. discriminate.
      + destruct (_ && _); [|discriminate].
        unfold sappend. cbn [String.append]. discriminate.
    - destruct (_ && _); [|discriminate].
      unfold sappend. cbn [String.append]. discriminate. }
  destruct (stepAt p (currentStepIndex p)) as [step|msg|] eqn:E; cbn [rbind];
    try discriminate.
  - destruct (PreCanGoToNext step token).
    + match goal with
      | |- rbind (rbind ?s _) _ <> _ => destruct s as [step1|msg|] eqn:E1
      end; cbn [rbind]; try discriminate.
      * apply Hrun.
      * intros H. injection H as H. subst msg. exact (stepAt_hushed _ _ E1).
    + cbn [rbind]. apply Hrun.
  - intros H. injection H as H. subst msg. exact (stepAt_hushed _ _ E).
Qed.

(** [AddToken] refuses with that message a statement that has its end
    marker, and no other. *)
Lemma AddToken_hushed :
  forall p token nextToken,
    sEndStatement (statement p) = None ->
    AddToken p token nextToken <> Panic finishedMessage.
Proof.
  intros p token nextToken Hend. unfold AddToken. rewrite Hend. cbv zeta.
  repeat match goal with
         | |- (if ?c then _ else _) <> _ => destruct c; [discriminate|]
         end.
  destruct (openBlock p token nextToken) as [q|q]; [discriminate|].
  repeat match goal with
         | |- (if ?c then _ else _) <> _ => destruct c; [discriminate|]
         end.
  destruct (skipModifiers _ token) as [q'|q']; [discriminate|].
  apply runStep_hushed.
Qed.

Lemma createStatementParserByToken_hushed :
  forall token nextToken opts,
    createStatementParserByToken token nextToken opts <> Panic finishedMessage.
Proof.
  intros token nextToken opts. unfold createStatementParserByToken.
  match goal with
  | |- match ?b with Some _ => _ | None => _ end <> _ => destruct b; [discriminate|]
  end.
  destruct (negb _); [discriminate|].
  unfold sappend. cbn [String.append]. discriminate.
Qed.

Lemma dispatch_hushed :
  forall isStrict d tables pt ls token nextToken tokenState,
    openStatement ls ->
    dispatch isStrict d tables pt ls token nextToken tokenState <> Panic finishedMessage.
Proof.
  intros isStrict d tables pt ls token nextToken tokenState Hinv.
  unfold openStatement in Hinv. unfold dispatch.
  destruct (statementParser ls) as [p|].
  - destruct Hinv as [Hend _]. unfold insideStatement.
    destruct (AddToken p token nextToken) as [p'|msg|] eqn:EA; cbn [rbind];
      try discriminate.
    + destruct (sEndStatement (GetStatement p')); discriminate.
    + intros H. injection H as H. subst msg. exact (@AddToken_hushed p token nextToken Hend EA).
  - unfold outsideStatement.
    match goal with
    | |- rbind ?r _ <> _ => destruct r as [ls1|msg|] eqn:E1
    end; cbn [rbind]; try discriminate.
    intros H. injection H as H. subst msg. revert E1.
    repeat match goal with
           | |- (if ?c then _ else _) = _ -> _ => destruct c; [discriminate|]
           end.
    destruct (createStatementParserByToken token nextToken
                (mkParseOptions isStrict d tables pt)) as [q|msg|] eqn:EC;
      cbn [rbind]; try discriminate.
    + destruct (isCte (cte ls)); discriminate.
    + intros H. injection H as H. subst msg.
      exact (createStatementParserByToken_hushed _ _ _ EC).
Qed.

Lemma parseIteration_hushed :
  forall isStrict d tables pt ls,
    openStatement ls -> parseIteration isStrict d tables pt ls <> Panic finishedMessage.
Proof.
  intros isStrict d tables pt ls Hinv. unfold parseIteration.
  destruct (ScanToken d pt (initState [] (Some (prevState ls))))
    as [[token tokenState]|msg|] eqn:ES; cbn [rbind]; try discriminate.
  - destruct (nextNonWhitespaceToken d pt tokenState) as [nextToken|msg|] eqn:EN;
      cbn [rbind]; try discriminate.
    + apply dispatch_hushed. exact Hinv.
    + intros H. injection H as H. subst msg.
      exact (nextNonWhitespaceToken_hushed _ _ _ EN).
  - intros H. injection H as H. subst msg. exact (hushed_ScanToken _ _ _ ES).
Qed.

Lemma parseIteration_openStatement :
  forall isStrict d tables pt ls ls',
    openStatement ls -> parseIteration isStrict d tables pt ls = Ok ls' ->
    openStatement ls'.
Proof.
  intros isStrict d tables pt ls ls' Hinv H. unfold parseIteration in H.
  destruct (ScanToken d pt (initState [] (Some (prevState ls))))
    as [[token tokenState]| |]; cbn [rbind] in H; try discriminate.
  destruct (nextNonWhitespaceToken d pt tokenState) as [nextToken| |];
    cbn [rbind] in H; try discriminate.
  eapply dispatch_openStatement; eassumption.
Qed.

Lemma Parse_loop_hushed :
  forall isStrict d tables pt fuel topLevelEnd ls,
    openStatement ls ->
    Parse_loop isStrict d tables pt fuel topLevelEnd ls <> Panic finishedMessage.
Proof.
  intros isStrict d tables pt. induction fuel as [|n IH]; intros topLevelEnd ls Hinv;
    cbn [Parse_loop]; [discriminate|].
  destruct (stPosition (prevState ls) <? topLevelEnd); [|discriminate].
  destruct (parseIteration isStrict d tables pt ls) as [ls1|msg|] eqn:E; cbn [rbind];
    try discriminate.
  - apply IH. eapply parseIteration_openStatement; eassumption.
  - intros H. injection H as H. subst msg. exact (@parseIteration_hushed isStrict d tables pt ls Hinv E).
Qed.

Lemma Parse_hushed :
  forall isStrict d tables pt (query : string),
    Parse isStrict d tables pt query <> Panic finishedMessage.
Proof.
  intros isStrict d tables pt query. unfold Parse. cbv zeta.
  match goal with
  | |- rbind ?l _ <> _ => destruct l as [ls|msg|] eqn:E
  end; cbn [rbind]; try discriminate.
  intros H. injection H as H. subst msg. revert E. apply Parse_loop_hushed. exact I.
Qed.

Lemma identifyResults_hushed :
  forall query sortParams body,
    identifyResults query sortParams body <> Panic finishedMessage.
Proof.
  intros query sortParams. induction body as [|c rest IH]; cbn [identifyResults];
    [discriminate|].
  unfold substr.
  destruct (slice _ _ _) as [bs|msg|] eqn:E; cbn [rbind]; try discriminate.
  - destruct (identifyResults query sortParams rest) as [results|msg|] eqn:ER;
      cbn [rbind]; try discriminate.
    intros H. injection H as H. subst msg. exact (IH eq_refl).
  - intros H. injection H as H. subst msg. exact (slice_hushed _ _ _ E).
Qed.

(** X12: the error "This statement has already got to the end.", with which
    [AddToken] refuses a token for a statement that has its end marker, is
    never the error of [Identify]: [Parse] drops a statement parser as soon
    as its statement has the end marker, so that [AddToken] is never called
    on a finished statement. *)
Theorem X12_finished_statement_is_never_fed :
  forall (query : string) options results msg,
    Identify query options = Ok (results, Some msg) ->
    msg <> finishedMessage.
Proof.
  intros query options results msg H Hmsg. subst msg.
  unfold Identify in H.
  destruct (identifyBody query options) as [r|msg|] eqn:E.
  - inversion H; subst r; clear H. unfold identifyBody in E. cbv zeta in E.
    destruct (negb _); [inversion E; discriminate|].
    match type of E with
    | rbind ?p _ = _ => destruct p as [pr| |]
    end; cbn [rbind] in E; try discriminate.
    destruct (identifyResults _ _ _); cbn [rbind] in E; discriminate.
  - inversion H; subst; clear H. unfold identifyBody in E. cbv zeta in E.
    destruct (negb _); [discriminate|].
    match type of E with
    | rbind ?p _ = _ => destruct p as [pr|msg|] eqn:EP
    end; cbn [rbind] in E; try discriminate.
    + destruct (identifyResults _ _ _) as [rs|msg|] eqn:ER; cbn [rbind] in E;
        try discriminate.
      injection E as E. subst msg. exact (identifyResults_hushed _ _ _ ER).
    + injection E as E. subst msg. exact (Parse_hushed _ _ _ _ _ EP).
  - discriminate H.
Qed.


(** *** Every parameter of a statement is listed *)

(** [AddToken] lists the text of a parameter token it is fed, unless the
    token reads END. *)
Lemma AddToken_captures :
  forall p token nextToken p',
    quietSteps (steps p) ->
    AddToken p token nextToken = Ok p' ->
    tokType token = TokenParameter ->
    ToUpper (tokValue token) <> "END" ->
    In (tokValue token) (sParameters (statement p')).
Proof.
  intros p token nextToken p' Hq H Hty Hend. unfold AddToken in H.
  destruct (sEndStatement (statement p)); [discriminate|].
  rewrite Hty in H. cbn [TokenType_eqb andb] in H.
  replace (String.eqb (ToUpper (tokValue token)) "END") with false in H
    by (symmetry; apply String.eqb_neq; exact Hend).
  rewrite andb_false_r in H.
  assert (Hob : openBlock p token nextToken = Continue p).
  { unfold openBlock. rewrite Hty. reflexivity. }
  rewrite Hob in H.
  destruct (captureTables_frame p token nextToken) as [_ [Ht1 Ht2]].
  destruct (captureParameters_frame (captureTables p token nextToken) token) as [_ [Hp2 _]].
  assert (Hin : In (tokValue token)
                   (sParameters (statement (captureParameters
                                              (captureTables p token nextToken) token)))).
  { unfold captureParameters. rewrite Hty. cbn [TokenType_eqb].
    destruct (String.eqb (tokValue token) "?"
              || negb (contains_string
                         (sParameters (statement (captureTables p token nextToken)))
                         (tokValue token))) eqn:E.
    - cbn [statement set_statement sParameters set_sParameters].
      apply in_or_app. right. left. reflexivity.
    - apply orb_false_iff in E. destruct E as [_ E]. apply negb_false_iff in E.
      apply contains_string_In. exact E. }
  set (q2 := captureParameters (captureTables p token nextToken) token) in *.
  assert (Hs2 : steps q2 = steps p) by congruence.
  destruct (match sType (statement q2) with Some _ => true | None => false end
            && (sStart (statement q2) >=? 0)).
  { inversion H; subst. rewrite setPrevToken_statement. exact Hin. }
  destruct (skipModifiers_frame q2 token) as [_ [Hm1 Hm2]].
  destruct (skipModifiers q2 token) as [q3|q3]; cbn [carried] in Hm1, Hm2.
  { inversion H; subst. rewrite Hm1. exact Hin. }
  apply runStep_frame in H; [|rewrite Hm2, Hs2; exact Hq].
  destruct H as [_ [H2 _]]. rewrite H2, Hm1. exact Hin.
Qed.

Lemma AddToken_keeps_parameters :
  forall p token nextToken p',
    quietSteps (steps p) ->
    AddToken p token nextToken = Ok p' ->
    incl (sParameters (statement p)) (sParameters (statement p')).
Proof.
  intros p token nextToken p' Hq H.
  destruct (@AddToken_parameters p token nextToken p' Hq H) as [-> | [_ ->]].
  - apply incl_refl.
  - apply incl_appl, incl_refl.
Qed.

(** [AddToken] never takes the mark of a WITH header off a statement. *)
Lemma AddToken_keeps_cte :
  forall p token nextToken p',
    Forall plainStep (steps p) ->
    AddToken p token nextToken = Ok p' ->
    sIsCte (statement p) = Some true -> sIsCte (statement p') = Some true.
Proof.
  intros p token nextToken p' Hpl H Hc.
  refine (proj1 (@AddToken_keeps (options p) (fun s => sIsCte s = Some true)
                   _ _ _ _ _ _ _ _ p token nextToken p' Hpl eq_refl Hc H));
    try (intros; cbn in *; assumption).
  intros s HJ step tok Hp.
  destruct (plainStep_lists tok s Hp) as [_ [_ ->]]. exact HJ.
Qed.

(** The parameter tokens of the stream that start at [lo] or later, and do
    not read END, have their text in the list. *)
Definition listedFrom (tokens : list Token) (lo : Z) (parameters : list string) : Prop :=
  forall tok,
    In tok tokens -> tokType tok = TokenParameter -> lo <= tokStart tok ->
    ToUpper (tokValue tok) <> "END" ->
    In (tokValue tok) parameters.

(** The same for the parameter tokens within the span of a statement. *)
Definition listedWithin (tokens : list Token) (c : ConcreteStatement) : Prop :=
  forall tok,
    In tok tokens -> tokType tok = TokenParameter ->
    cStart c <= tokStart tok <= cEnd c ->
    ToUpper (tokValue tok) <> "END" ->
    In (tokValue tok) (cParameters c).

(** The statements that the completeness of the parameter list is stated
    for: those of a known type that do not follow a WITH header. *)
Definition ordinary (c : ConcreteStatement) : Prop :=
  cType c <> StatementUnknown /\ cIsCte c <> Some true.

(** The invariant of the loop of [Parse] in strict mode on the parameters:
    the tokens lie behind the cursor, the statements of the body list the
    parameter tokens of their span, and so does the open statement from its
    start on. *)
Definition parametersListed (ls : loopState) : Prop :=
  let tokens := Tokens (topLevelResult ls) in
  let pos := stPosition (prevState ls) in
  Forall (fun t => tokStart t <= pos) tokens
  /\ Forall (fun c => cEnd c <= pos /\ (ordinary c -> listedWithin tokens c))
            (Body (topLevelResult ls))
  /\ match statementParser ls with
     | Some p =>
       Forall plainStep (steps p)
       /\ (sIsCte (statement p) <> Some true -> 0 <= sStart (statement p) ->
           listedFrom tokens (sStart (statement p)) (sParameters (statement p)))
     | None => True
     end.

Lemma parametersListed_token :
  forall tokens body token pos pos',
    Forall (fun t => tokStart t <= pos) tokens ->
    Forall (fun c => cEnd c <= pos /\ (ordinary c -> listedWithin tokens c)) body ->
    tokStart token = pos + 1 -> pos < pos' ->
    Forall (fun t => tokStart t <= pos') (tokens ++ [token])
    /\ Forall (fun c => cEnd c <= pos'
                        /\ (ordinary c -> listedWithin (tokens ++ [token]) c)) body.
Proof.
  intros tokens body token pos pos' Ht Hb Hs Hlt. split.
  - apply Forall_app. split.
    + eapply Forall_impl; [|exact Ht]. cbv beta. intros t H. lia.
    + constructor; [lia | constructor].
  - eapply Forall_impl; [|exact Hb]. cbv beta. intros c [He Hl].
    split; [lia|]. intros Ho tok Hin Hty Hr Hend.
    apply in_app_or in Hin. destruct Hin as [Hin | [<- | []]].
    + exact (Hl Ho tok Hin Hty Hr Hend).
    + lia.
Qed.

Lemma dispatch_parametersListed :
  forall d tables pt ls token nextToken tokenState ls',
    inOrder d pt ls -> parametersListed ls ->
    stPosition (prevState ls) < llen (stInput (prevState ls)) - 1 ->
    ScanToken d pt (initState [] (Some (prevState ls))) = Ok (token, tokenState) ->
    dispatch true d tables pt ls token nextToken tokenState = Ok ls' ->
    parametersListed ls'.
Proof.
  intros d tables pt ls token nextToken tokenState ls' Hin [Ht [Hb Hp]] Hlt ES H.
  pose proof Hin as [Hs [Hpos Hph]].
  pose proof (@ScanToken_semicolon d pt _ _ _ ES) as Hsemi.
  pose proof (@ScanToken_spec d pt _ _ _ ES) as [_ [Hstart [_ [Hadv _]]]].
  specialize (Hadv Hlt).
  destruct (@parametersListed_token _ _ token _ (stPosition tokenState) Ht Hb Hstart
              (proj1 Hadv)) as [Ht' Hb'].
  unfold dispatch in H. destruct (statementParser ls) as [p|] eqn:Ep.
  - destruct Hph as [Hcte [Hq [Hsteady [Hend Hph]]]]. destruct Hp as [Hpl Hlisted].
    unfold insideStatement in H.
    destruct (AddToken p token nextToken) as [p'| |] eqn:EA; cbn [rbind] in H;
      try discriminate.
    pose proof (@AddToken_endMarker p token nextToken p' Hq EA) as [_ [Hsteps Hmark]].
    assert (Hnew : 0 <= sStart (statement p')
                   /\ (sIsCte (statement p') <> Some true ->
                       listedFrom (Tokens (topLevelResult ls) ++ [token])
                                  (sStart (statement p')) (sParameters (statement p')))).
    { destruct Hph as [[Hst _] | [_ [Hf [_ Hverb]]]].
      - rewrite (@AddToken_start p token nextToken p' Hsteady (proj1 Hst) EA).
        split; [lia|]. intros Hc tok Hi Hty Hlo Hne.
        apply in_app_or in Hi. destruct Hi as [Hi | [<- | []]].
        + apply (@AddToken_keeps_parameters p token nextToken p' Hq EA).
          apply Hlisted; try assumption; [|lia].
          intros Hc'. apply Hc. eapply AddToken_keeps_cte; eassumption.
        + eapply AddToken_captures; eassumption.
      - destruct (Hverb token tokenState ES) as [Hk Hw].
        rewrite (@AddToken_first p token nextToken p' Hf Hk Hw EA), Hstart.
        split; [lia|]. intros Hc tok Hi Hty Hlo Hne.
        apply in_app_or in Hi. destruct Hi as [Hi | [<- | []]].
        + rewrite Forall_forall in Ht. specialize (Ht tok Hi). lia.
        + rewrite Hk in Hty. discriminate Hty. }
    destruct Hnew as [Hst' Hl'].
    unfold GetStatement in H.
    destruct (sEndStatement (statement p')) as [marker|] eqn:Eend'.
    + destruct Hmark as [[Hty _] | [_ Hn]]; [|congruence].
      apply andb_true_iff in Hty. destruct Hty as [Hty _].
      apply TokenType_eqb_eq in Hty. specialize (Hsemi Hty).
      inversion H; subst ls'; clear H. unfold parametersListed.
      cbn [topLevelResult prevState statementParser Body Tokens appendBody appendToken].
      split; [exact Ht'|]. split; [|exact I].
      apply Forall_app. split; [exact Hb'|]. constructor; [|constructor].
      cbn [ToConcrete cStart cEnd cParameters set_sEnd sStart sEnd sParameters].
      split; [lia|]. intros [_ Hc] tok Hi Hty' Hr Hne.
      cbn [ToConcrete cStart cEnd cParameters cIsCte set_sEnd sStart sEnd sParameters
                      sIsCte] in *.
      apply Hl'; try assumption. lia.
    + inversion H; subst ls'; clear H. unfold parametersListed.
      cbn [topLevelResult prevState statementParser Body Tokens appendBody appendToken].
      split; [exact Ht'|]. split; [exact Hb'|]. rewrite Hsteps.
      split; [exact Hpl|]. intros Hc _. apply Hl'. exact Hc.
  - unfold outsideStatement in H.
    match type of H with rbind ?r _ = _ => destruct r as [ls1| |] eqn:E1 end;
      cbn [rbind] in H; try discriminate.
    inversion H; subst ls'; clear H.
    assert (H1 : parametersListed ls1).
    { revert E1.
      repeat match goal with
             | |- (if ?c then _ else _) = _ -> _ =>
               lazymatch c with
               | isCte (cte ls) && TokenType_eqb (tokType token) TokenSemicolon =>
                 destruct c eqn:Esemi
               | _ => destruct c
               end;
                 [intros E1; inversion E1; subst ls1; clear E1;
                  try (unfold parametersListed, consume;
                       cbn [topLevelResult prevState statementParser Body Tokens
                                           appendToken];
                       rewrite Ep; split; [exact Ht' | split; [exact Hb' | exact I]])|]
             end.
      - apply andb_true_iff in Esemi. destruct Esemi as [_ Ety].
        apply TokenType_eqb_eq in Ety. specialize (Hsemi Ety).
        unfold parametersListed, consume.
        cbn [topLevelResult prevState statementParser Body Tokens appendToken
                            appendBody].
        rewrite Ep. split; [exact Ht'|]. split; [|exact I].
        apply Forall_app. split; [exact Hb'|]. constructor; [|constructor].
        cbn [cEnd]. split; [lia|]. intros [Hty _]. exfalso. apply Hty. reflexivity.
      - intros E1.
        destruct (createStatementParserByToken token nextToken
                    (mkParseOptions true d tables pt)) as [q| |] eqn:EC;
          cbn [rbind] in E1; try discriminate.
        destruct (createStatementParserByToken_plain _ _ _ EC) as [Hpl [_ Hinit]].
        destruct (isCte (cte ls)); inversion E1; subst ls1; clear E1;
          unfold parametersListed, GetStatement;
          cbn [topLevelResult prevState statementParser steps statement set_statement
                              set_sParameters set_sIsCte set_sStart sIsCte sStart];
          (split; [exact Ht|]); (split; [exact Hb|]); (split; [exact Hpl|]).
        + intros Hc. exfalso. apply Hc. reflexivity.
        + intros _ Hs0. exfalso.
          destruct Hinit as [Hi | Hi]; rewrite Hi in Hs0; cbn in Hs0; lia. }
    unfold rememberParameter.
    destruct (isCte (cte ls1) && TokenType_eqb (tokType token) TokenParameter);
      exact H1.
Qed.

Lemma parseIteration_parametersListed :
  forall d tables pt input ls ls',
    inOrder d pt ls /\ parametersListed ls -> stInput (prevState ls) = input ->
    stPosition (prevState ls) < llen input - 1 ->
    parseIteration true d tables pt ls = Ok ls' ->
    inOrder d pt ls' /\ parametersListed ls'.
Proof.
  intros d tables pt input ls ls' [Hin Hp] HI Hlt H. rewrite <- HI in Hlt.
  split; [exact (@parseIteration_inOrder d tables pt ls ls' Hin Hlt H)|].
  unfold parseIteration in H.
  destruct (ScanToken d pt (initState [] (Some (prevState ls)))) as [[token tokenState]| |]
    eqn:ES; cbn [rbind] in H; try discriminate.
  destruct (nextNonWhitespaceToken d pt tokenState) as [nextToken| |];
    cbn [rbind] in H; try discriminate.
  exact (@dispatch_parametersListed d tables pt ls token nextToken tokenState ls'
           Hin Hp Hlt ES H).
Qed.

(** In strict mode every ordinary statement that [Parse] returns lists the
    parameter tokens of its span. *)
Lemma Parse_parametersListed :
  forall d tables pt (query : string) pr,
    Parse true d tables pt query = Ok pr ->
    forall c, In c (Body pr) -> ordinary c -> listedWithin (Tokens pr) c.
Proof.
  intros d tables pt query pr H.
  enough (HF : Forall (fun c => ordinary c -> listedWithin (Tokens pr) c) (Body pr))
    by (rewrite Forall_forall in HF; exact HF).
  unfold Parse in H.
  match type of H with rbind (Parse_loop _ _ _ _ ?f ?e ?l) _ = _ =>
    destruct (Parse_loop true d tables pt f e l) as [ls| |] eqn:EL
  end; cbn [rbind] in H; try discriminate.
  inversion H; subst pr; clear H. cbn [initState stEnd] in EL.
  eapply (@Parse_loop_guarded (fun ls => inOrder d pt ls /\ parametersListed ls)) in EL.
  - destruct EL as [[[_ [_ Hph]] [_ [Hb Hp]]] [HI Hge]].
    assert (Hb' : Forall (fun c => ordinary c ->
                                   listedWithin (Tokens (topLevelResult ls)) c)
                         (Body (topLevelResult ls))).
    { eapply Forall_impl; [|exact Hb]. cbv beta. intros c [_ Hc]. exact Hc. }
    rewrite finish_tokens. unfold finish.
    destruct (statementParser ls) as [p|]; [|exact Hb'].
    destruct Hph as [_ [_ [_ [Hnone Hph]]]]. unfold GetStatement. rewrite Hnone.
    cbn [Body appendBody]. apply Forall_app. split; [exact Hb'|].
    constructor; [|constructor].
    destruct Hph as [[Hst _] | [_ [_ [Hlt _]]]]; [|rewrite HI in Hlt; lia].
    destruct Hp as [_ Hl]. intros [_ Hc] tok Hi Hty Hr Hne.
    cbn [ToConcrete cStart cEnd cParameters cIsCte set_sEnd sStart sEnd sParameters
                    sIsCte] in *.
    apply Hl; try assumption; lia.
  - intros l1 l2 Hl HI Hlt Hit. eapply parseIteration_parametersListed; eassumption.
  - reflexivity.
  - split.
    + unfold inOrder. cbn. split; [|split; [lia | constructor]].
      intros i j a b Ha. destruct i; discriminate Ha.
    + unfold parametersListed.
      cbn [prevState statementParser topLevelResult Body Tokens].
      split; [constructor | split; [constructor | exact I]].
Qed.

Lemma count_occ_filter :
  forall (f : string -> bool) l v,
    f v = true -> count_occ string_dec (filter f l) v = count_occ string_dec l v.
Proof.
  intros f l v Hv. induction l as [|x l IH]; [reflexivity|].
  cbn [filter count_occ]. destruct (string_dec x v) as [-> | Hne].
  - rewrite Hv. cbn [count_occ]. destruct (string_dec v v); [|contradiction].
    rewrite IH. reflexivity.
  - destruct (f x); [cbn [count_occ]; destruct (string_dec x v); [contradiction|]|];
      exact IH.
Qed.

(** X6: a statement that does not follow a WITH header lists no parameter
    other than the positional ["?"] twice; and in strict mode a statement of
    a known type lists every parameter token of its span (none is left out,
    but for a token that reads END), so that each parameter other than
    ["?"] that occurs in the statement is listed exactly once, however often
    it occurs. *)
Theorem X6_named_parameters_listed_once :
  forall isStrict d tables pt (query : string) pr,
    Parse isStrict d tables pt query = Ok pr ->
    forall c,
      In c (Body pr) -> cIsCte c <> Some true ->
      NoDup (namedParameters (cParameters c))
      /\ (isStrict = true -> cType c <> StatementUnknown ->
          forall tok,
            In tok (Tokens pr) -> tokType tok = TokenParameter ->
            cStart c <= tokStart tok <= cEnd c ->
            ToUpper (tokValue tok) <> "END" ->
            In (tokValue tok) (cParameters c)
            /\ (tokValue tok <> "?" ->
                count_occ string_dec (cParameters c) (tokValue tok) = 1%nat)).
Proof.
  intros isStrict d tables pt query pr H c Hc Hcte.
  pose proof (@named_parameters_not_repeated isStrict d tables pt query pr H c Hc Hcte)
    as Hnd.
  split; [exact Hnd|].
  intros -> Hty tok Hi Hp Hr Hne.
  pose proof (@Parse_parametersListed d tables pt query pr H c Hc (conj Hty Hcte)
                tok Hi Hp Hr Hne) as Hin.
  split; [exact Hin|]. intros Hq.
  assert (Hf : negb (String.eqb (tokValue tok) "?") = true)
    by (apply negb_true_iff, String.eqb_neq; exact Hq).
  rewrite <- (count_occ_filter (fun v => negb (String.eqb v "?")) (cParameters c) _ Hf).
  apply NoDup_count_occ'; [exact Hnd|].
  unfold namedParameters. apply filter_In. split; [exact Hin | exact Hf].
Qed.

(** A quoted parameter that is not closed takes the character after it
    into its text, whatever it is: in bigquery, the token that starts at the
    [@] of "@`::int" is the parameter "@`:", whose last character is the
    first colon of the cast. *)
Lemma parse_quoted_parameter_takes_colon :
  exists pr : ParseResult,
    Parse true DialectBigQuery false (Some (DefaultParamTypesFor DialectBigQuery))
          "SELECT @`::int" = Ok pr
    /\ In (mkToken TokenParameter "@`:" 7 9) (Tokens pr)
    /\ map cParameters (Body pr) = [["@`:"]].
Proof.
  eexists. split; [vm_compute; reflexivity|].
  split; [do 2 right; left; reflexivity | reflexivity].
Qed.

End Identifier.

(** * Closed instances

    The examples below run the development on ASCII inputs without custom
    parameter patterns, where neither the Unicode tables nor the expression
    engine is consulted; they are given trivial values. *)

Definition noUpper (r : rune) : rune := r.
Definition noDigit (r : rune) : bool := false.
Definition noCompile (pattern : string) : bool := false.
Definition noFind (pattern text : string) : option string := None.


(** C4 as stated (end 14) fails: whatever the tables, the one statement
    returned ends at offset 18. *)
Lemma C4_end_is_not_14 :
  ~ (exists (U : rune -> rune) (D : rune -> bool) (RC : string -> bool)
            (RF : string -> string -> option string) (r : IdentifyResult),
        Identify U D RC RF "LIST * FROM Persons"
                 (mkIdentifyOptions (Some false) None None None)
        = Ok (Some [r], None)
        /\ rType r = StatementUnknown /\ rExecutionType r = ExecutionUnknown
        /\ rStart r = 0 /\ rEnd r = 14).
Proof.
  intros [U [D [RC [RF [r [H [_ [_ [_ Hend]]]]]]]]].
  rewrite identify_LIST_non_strict in H. inversion H; subst r. discriminate Hend.
Qed.

(** C6 at a psql query whose parameters are captured out of order. *)
Lemma C6_parameters_sorted_only_for_default_psql_witness :
  let query := "select x from a where x = $2 and y = $1" in
  let options := mkIdentifyOptions None (Some DialectPSQL) None None in
  let results :=
      [mkIdentifyResult 0 38 query StatementSelect ExecutionListing ["$1"; "$2"] []] in
  Identify noUpper noDigit noCompile noFind query options = Ok (Some results, None)
  /\ parameters_as_returned noUpper noDigit noCompile noFind query options results.
Proof.
  cbv zeta.
  assert (H : Identify noUpper noDigit noCompile noFind
                       "select x from a where x = $2 and y = $1"
                       (mkIdentifyOptions None (Some DialectPSQL) None None)
              = Ok (Some [mkIdentifyResult 0 38 "select x from a where x = $2 and y = $1"
                                           StatementSelect ExecutionListing ["$1"; "$2"] []],
                    None)).
  { vm_compute. reflexivity. }
  split; [exact H|].
  exact (C6_parameters_sorted_only_for_default_psql
           noUpper noDigit noCompile noFind _ _ H).
Defined.

(** C7 at the dialect name "postgres". *)
Lemma C7_invalid_dialect_is_an_error_witness :
  ~ In "postgres" DIALECTS
  /\ Identify noUpper noDigit noCompile noFind "SELECT 1"
              (mkIdentifyOptions (Some false) (Some "postgres") None None)
     = Ok (None,
           Some "Unknown dialect. Allowed values: [mssql sqlite mysql oracle psql bigquery generic]").
Proof.
  assert (H : ~ In "postgres" DIALECTS).
  { cbn. intros H. repeat (destruct H as [H | H]; [discriminate H|]). exact H. }
  split; [exact H|].
  exact (C7_invalid_dialect_is_an_error noUpper noDigit noCompile noFind
           "SELECT 1" (Some false) None None H).
Defined.



(** X1 at "SELECT 1;": the tokens cover the nine offsets of the input. *)
Lemma X1_tokens_partition_ascii_input_witness :
  isASCII "SELECT 1;"
  /\ exists pr : ParseResult,
      Parse noUpper noDigit noCompile noFind true DialectGeneric false
            (Some (DefaultParamTypesFor DialectGeneric)) "SELECT 1;" = Ok pr
      /\ tokensPartition (len "SELECT 1;") (Tokens pr).
Proof.
  assert (Ha : isASCII "SELECT 1;").
  { unfold isASCII. cbn. repeat (constructor; [lia|]). constructor. }
  split; [exact Ha|].
  eexists. split; [vm_compute; reflexivity|].
  apply (@X1_tokens_partition_ascii_input noUpper noDigit noCompile noFind true
           DialectGeneric false (Some (DefaultParamTypesFor DialectGeneric))
           "SELECT 1;" _ Ha).
  vm_compute. reflexivity.
Defined.

(** X2 at an input of two statements. *)
Lemma X2_statement_spans_increase_in_strict_mode_witness :
  exists pr : ParseResult,
    Parse noUpper noDigit noCompile noFind true DialectGeneric false
          (Some (DefaultParamTypesFor DialectGeneric)) "SELECT 1;SELECT 2;" = Ok pr
    /\ List.length (Body pr) = 2%nat
    /\ spansIncrease (Body pr).
Proof.
  eexists. split; [vm_compute; reflexivity|]. split; [reflexivity|].
  apply (@X2_statement_spans_increase_in_strict_mode noUpper noDigit noCompile noFind
           DialectGeneric false (Some (DefaultParamTypesFor DialectGeneric))
           "SELECT 1;SELECT 2;" _).
  vm_compute. reflexivity.
Defined.

(** X3 at "SELECT 1;": the values of the five tokens spell the query. *)
Lemma X3_token_values_spell_the_input_witness :
  exists pr : ParseResult,
    Parse noUpper noDigit noCompile noFind true DialectGeneric false
          (Some (DefaultParamTypesFor DialectGeneric)) "SELECT 1;" = Ok pr
    /\ textOfTokens (Tokens pr) = string_of_runes (runes_of_string "SELECT 1;")
    /\ (isASCII "SELECT 1;" -> textOfTokens (Tokens pr) = "SELECT 1;").
Proof.
  eexists. split; [vm_compute; reflexivity|].
  apply (@X3_token_values_spell_the_input noUpper noDigit noCompile noFind true
           DialectGeneric false (Some (DefaultParamTypesFor DialectGeneric))
           "SELECT 1;" _).
  vm_compute. reflexivity.
Defined.

(** X5 at a query that names the table [t] twice. *)
Lemma X5_tables_listed_once_witness :
  exists pr : ParseResult,
    Parse noUpper noDigit noCompile noFind true DialectMSSQL true
          (Some (DefaultParamTypesFor DialectMSSQL)) "SELECT * FROM t JOIN t JOIN u" = Ok pr
    /\ map cTables (Body pr) = [["t"; "u"]]
    /\ forall c, In c (Body pr) ->
         NoDup (cTables c) /\ (true = false -> cTables c = [])
         /\ (cIsCte c = Some true -> cTables c = []).
Proof.
  eexists. split; [vm_compute; reflexivity|]. split; [vm_compute; reflexivity|].
  apply (@X5_tables_listed_once noUpper noDigit noCompile noFind true
           DialectMSSQL true (Some (DefaultParamTypesFor DialectMSSQL))
           "SELECT * FROM t JOIN t JOIN u" _).
  vm_compute. reflexivity.
Defined.

(** X6 at a query that uses the parameter [:a] twice. *)
Lemma X6_named_parameters_listed_once_witness :
  exists pr : ParseResult,
    Parse noUpper noDigit noCompile noFind true DialectMSSQL false
          (Some (DefaultParamTypesFor DialectMSSQL)) "SELECT :a, :b, :a" = Ok pr
    /\ map cParameters (Body pr) = [[":a"; ":b"]]
    /\ forall c, In c (Body pr) -> cIsCte c <> Some true ->
         NoDup (namedParameters (cParameters c))
         /\ (true = true -> cType c <> StatementUnknown ->
             forall tok,
               In tok (Tokens pr) -> tokType tok = TokenParameter ->
               cStart c <= tokStart tok <= cEnd c ->
               ToUpper noUpper (tokValue tok) <> "END" ->
               In (tokValue tok) (cParameters c)
               /\ (tokValue tok <> "?" ->
                   count_occ string_dec (cParameters c) (tokValue tok) = 1%nat)).
Proof.
  eexists. split; [vm_compute; reflexivity|]. split; [vm_compute; reflexivity|].
  apply (@X6_named_parameters_listed_once noUpper noDigit noCompile noFind true
           DialectMSSQL false (Some (DefaultParamTypesFor DialectMSSQL))
           "SELECT :a, :b, :a" _).
  vm_compute. reflexivity.
Defined.

(** X7 at a query of two statements. *)
Lemma X7_execution_type_follows_the_type_witness :
  exists pr : ParseResult,
    Parse noUpper noDigit noCompile noFind true DialectGeneric false
          (Some (DefaultParamTypesFor DialectGeneric)) "SELECT 1; DELETE FROM t" = Ok pr
    /\ map cExecutionType (Body pr) = [ExecutionListing; ExecutionModification]
    /\ forall c, In c (Body pr) ->
         cExecutionType c = GetExecutionType (cType c)
         \/ (cType c = StatementAnonBlock /\ cExecutionType c = ExecutionUnknown).
Proof.
  eexists. split; [vm_compute; reflexivity|]. split; [vm_compute; reflexivity|].
  apply (@X7_execution_type_follows_the_type noUpper noDigit noCompile noFind true
           DialectGeneric false (Some (DefaultParamTypesFor DialectGeneric))
           "SELECT 1; DELETE FROM t" _).
  vm_compute. reflexivity.
Defined.

(** X8 at "SELECT 1;" with the default strict mode. *)
Lemma X8_strict_mode_only_refuses_witness :
  exists results : list IdentifyResult,
    (@None bool = None \/ @None bool = Some true)
    /\ Identify noUpper noDigit noCompile noFind "SELECT 1;"
                (mkIdentifyOptions None None None None) = Ok (Some results, None)
    /\ Identify noUpper noDigit noCompile noFind "SELECT 1;"
                (mkIdentifyOptions (Some false) None None None) = Ok (Some results, None).
Proof.
  eexists. split; [left; reflexivity|]. split; [vm_compute; reflexivity|].
  apply (@X8_strict_mode_only_refuses noUpper noDigit noCompile noFind
           "SELECT 1;" None None None None _ (or_introl eq_refl)).
  vm_compute. reflexivity.
Defined.

(** X9 at a query of two statements. *)
Lemma X9_strict_statements_within_input_witness :
  exists pr : ParseResult,
    Parse noUpper noDigit noCompile noFind true DialectGeneric false
          (Some (DefaultParamTypesFor DialectGeneric)) "SELECT 1; SELECT 2" = Ok pr
    /\ map (fun c => (cStart c, cEnd c)) (Body pr) = [(0, 8); (10, 17)]
    /\ Forall (fun c => 0 <= cStart c <= cEnd c
                        /\ cEnd c <= llen (runes_of_string "SELECT 1; SELECT 2") - 1)
              (Body pr)
    /\ forall sortParams,
        exists results,
          identifyResults "SELECT 1; SELECT 2" sortParams (Body pr) = Ok results
          /\ List.length results = List.length (Body pr).
Proof.
  eexists. split; [vm_compute; reflexivity|]. split; [vm_compute; reflexivity|].
  apply (@X9_strict_statements_within_input noUpper noDigit noCompile noFind
           DialectGeneric false (Some (DefaultParamTypesFor DialectGeneric))
           "SELECT 1; SELECT 2" _).
  vm_compute. reflexivity.
Defined.

(** X10 at a query of two statements and one semicolon. *)
Lemma X10_statements_end_on_semicolons_witness :
  exists pr : ParseResult,
    Parse noUpper noDigit noCompile noFind true DialectGeneric false
          (Some (DefaultParamTypesFor DialectGeneric)) "SELECT 1; SELECT 2" = Ok pr
    /\ semicolons (Tokens pr) = 1%nat
    /\ (List.length (Body pr) <= S (semicolons (Tokens pr)))%nat.
Proof.
  eexists. split; [vm_compute; reflexivity|]. split; [vm_compute; reflexivity|].
  apply (@X10_statements_end_on_semicolons noUpper noDigit noCompile noFind true
           DialectGeneric false (Some (DefaultParamTypesFor DialectGeneric))
           "SELECT 1; SELECT 2" _).
  vm_compute. reflexivity.
Defined.


(** X12 at a query that strict mode refuses. *)
Lemma X12_finished_statement_is_never_fed_witness :
  exists (results : option (list IdentifyResult)) (msg : string),
    Identify noUpper noDigit noCompile noFind "LIST * FROM Persons"
             (mkIdentifyOptions (Some true) None None None) = Ok (results, Some msg)
    /\ msg <> finishedMessage.
Proof.
  eexists. eexists. split; [vm_compute; reflexivity|].
  apply (@X12_finished_statement_is_never_fed noUpper noDigit noCompile noFind
           "LIST * FROM Persons" (mkIdentifyOptions (Some true) None None None) None _).
  vm_compute. reflexivity.
Defined.
